(** * Array-backed doubly linked lists with generation-checked handles

    A shallow embedding of [array_linked_list_fast_soa.hpp] (column layout,
    class [ArrayLinkedList]) and [array_linked_list_slow_aos.hpp] (row
    layout, class [arrlist_slow::ArrayLinkedList]), and of the order book
    [ArrayListBook] and [preload] of [benchmark.cpp], which use the list,
    and the properties of the three classes.

    Conventions of the embedding:
    - [int] and [std::size_t] values are integers in [Z]; the wrap-around of
      [std::uint32_t] (generations) and of [std::size_t] (the element count)
      is written out with [wrap32] and [wrap64];
    - a [std::vector] is a [list]; [operator[]] outside the vector is
      undefined behaviour and is the outcome [UB];
    - a member function is a computation in a state-and-exception monad: a
      thrown exception keeps the state as it was when it was thrown;
    - [std::move] out of a slot leaves in the slot what the move constructor
      of the element type leaves, [moved_from] of the value;
    - the [while] loop of [for_each] runs on fuel, [OutOfFuel] is the
      outcome of a loop that has not ended when the fuel has. *)

From Stdlib Require Import ZArith String.
From stdpp Require Import base tactics numbers list.

Local Open Scope Z_scope.

(** ** Machine integers *)

(** [std::uint32_t] arithmetic. *)
Definition wrap32 (z : Z) : Z := z mod 2 ^ 32.

(** [std::size_t] arithmetic (64-bit target). *)
Definition wrap64 (z : Z) : Z := z mod 2 ^ 64.

Arguments wrap32 : simpl never.
Arguments wrap64 : simpl never.

Definition INT_MAX : Z := 2 ^ 31 - 1.

(** [static_cast<int>(i)] of a [std::size_t]: reduction modulo [2^32] into
    the range of [int]. *)
Definition to_int (z : Z) : Z := (z + 2 ^ 31) mod 2 ^ 32 - 2 ^ 31.

(** [static constexpr int kNull = -1;] *)
Definition kNull : Z := -1.

(** ** Handles, exceptions, outcomes *)

(** [struct NodeHandle { int index = -1; std::uint32_t generation = 0; };] *)
Module Handle.
Record NodeHandle : Type := mk { index : Z; generation : Z }.
End Handle.
Abbreviation NodeHandle := Handle.NodeHandle.

(** The exceptions of [<stdexcept>] the two classes throw, with their
    [what()] message. *)
Inductive exception : Type :=
| invalid_argument (what : string)
| overflow_error (what : string)
| out_of_range (what : string).

(** The error kinds, by the [throw] statement that raises each. *)
Definition InvalidCapacity : exception :=
  invalid_argument "capacity must be greater than zero"%string.
Definition CapacityExhausted : exception :=
  overflow_error "no free slots left in the list"%string.
Definition InvalidHandle : exception :=
  out_of_range "node handle is invalid or stale"%string.
Definition InvalidNode : exception :=
  out_of_range "node index is invalid"%string.
Definition NoSuccessor : exception :=
  out_of_range "no node exists after the given index"%string.
Definition Empty : exception :=
  out_of_range "list is empty"%string.

(** The outcome of a member function run on a state. *)
Inductive res (St A : Type) : Type :=
| Ok (a : A) (s : St)
| Throw (e : exception) (s : St)
| UB
| OutOfFuel.
Arguments Ok {St A} a s.
Arguments Throw {St A} e s.
Arguments UB {St A}.
Arguments OutOfFuel {St A}.

(** ** Vectors *)

(** [v[i]] as an rvalue; [None] is an access outside the vector. *)
Definition vget {A} (v : list A) (i : Z) : option A :=
  if decide (0 ≤ i) then v !! Z.to_nat i else None.

(** [v[i] = x]; [None] is an access outside the vector. *)
Definition vset {A} (v : list A) (i : Z) (x : A) : option (list A) :=
  if decide (0 ≤ i < Z.of_nat (length v)) then Some (<[Z.to_nat i := x]> v)
  else None.

Arguments vget : simpl never.
Arguments vset : simpl never.

(** [free_list_.back()] *)
Definition back {A} (v : list A) : option A := last v.

(** [free_list_.pop_back()] *)
Definition pop_back {A} (v : list A) : list A := removelast v.

(** [free_list_.push_back(x)] *)
Definition push_back_vec {A} (v : list A) (x : A) : list A := v ++ [x].

(** The constructor's loop
    [for (std::size_t i = capacity; i-- > 0;) free_list_.push_back(static_cast<int>(i));] *)
Fixpoint initial_free_list (capacity : nat) : list Z :=
  match capacity with
  | O => []
  | S i => to_int (Z.of_nat i) :: initial_free_list i
  end.

(** ** The monad of member functions *)

Definition M (St A : Type) : Type := St → res St A.

Section Monad.
Context {St : Type}.

Definition ret {A} (a : A) : M St A := λ s, Ok a s.

Definition bind {A B} (m : M St A) (k : A → M St B) : M St B :=
  λ s, match m s with
       | Ok a s' => k a s'
       | Throw e s' => Throw e s'
       | UB => UB
       | OutOfFuel => OutOfFuel
       end.

Definition throw {A} (e : exception) : M St A := λ s, Throw e s.

Definition gets {A} (f : St → A) : M St A := λ s, Ok (f s) s.

Definition modify (f : St → St) : M St unit := λ s, Ok tt (f s).

(** [v[i]] read from the vector [field] of the object. *)
Definition read {A} (field : St → list A) (i : Z) : M St A :=
  λ s, match vget (field s) i with
       | Some x => Ok x s
       | None => UB
       end.

(** [v[i] = x] on the vector [field] of the object, stored back by [store]. *)
Definition write {A} (field : St → list A) (store : list A → St → St)
    (i : Z) (x : A) : M St unit :=
  λ s, match vset (field s) i x with
       | Some v => Ok tt (store v s)
       | None => UB
       end.
End Monad.

Notation "'let!' x ':=' m 'in' k" := (bind m (λ x, k))
  (at level 10, x name, m at level 100, k at level 200).
Notation "m '>>>' k" := (bind m (λ _, k))
  (at level 90, right associativity).

(** ** The public interface *)

(** A call of a public member function. *)
Inductive op (T : Type) : Type :=
| PushFront (value : T)
| PushBack (value : T)
| InsertAfter (handle : NodeHandle) (value : T)
| Erase (handle : NodeHandle)
| EraseAfter (handle : NodeHandle)
| PopFront
| ForEach
| Size.
Arguments PushFront {T} value.
Arguments PushBack {T} value.
Arguments InsertAfter {T} handle value.
Arguments Erase {T} handle.
Arguments EraseAfter {T} handle.
Arguments PopFront {T}.
Arguments ForEach {T}.
Arguments Size {T}.

(** What a call returns: the handle of an insertion, nothing for [erase]
    and [erase_after], the value of [pop_front], the calls [for_each] made
    to its argument, the count of [size]. *)
Inductive obs (T : Type) : Type :=
| RHandle (h : NodeHandle)
| RUnit
| RValue (v : T)
| RVisited (calls : list (T * Z))
| RSize (n : Z).
Arguments RHandle {T} h.
Arguments RUnit {T}.
Arguments RValue {T} v.
Arguments RVisited {T} calls.
Arguments RSize {T} n.

(** What the caller sees of a call. *)
Inductive outcome (A : Type) : Type :=
| Returned (a : A)
| Thrown (e : exception)
| Undefined
| Unfinished.
Arguments Returned {A} a.
Arguments Thrown {A} e.
Arguments Undefined {A}.
Arguments Unfinished {A}.

Definition outcome_of {St A} (r : res St A) : outcome A :=
  match r with
  | Ok a _ => Returned a
  | Throw e _ => Thrown e
  | UB => Undefined
  | OutOfFuel => Unfinished
  end.

Definition is_insertion {T} (o : op T) : bool :=
  match o with
  | PushFront _ | PushBack _ | InsertAfter _ _ => true
  | _ => false
  end.

Definition is_removal {T} (o : op T) : bool :=
  match o with
  | Erase _ | EraseAfter _ | PopFront => true
  | _ => false
  end.

(** ** Moving a value out of a slot *)

(** [T value = std::move(x);] calls the move constructor of [T]: [value] is
    what [x] held, and [x] is left holding [moved_from] of it. For a
    trivially copyable [T], such as [int] or a struct of integers, moving
    is copying and [x] is left as it was; [std::string] and the containers
    leave [x] empty. *)
Class Move (T : Type) : Type := moved_from : T → T.

#[export] Instance Move_unit : Move unit := λ v, v.
#[export] Instance Move_nat : Move nat := λ v, v.

(** ** Column layout: [ArrayLinkedList] of [array_linked_list_fast_soa.hpp] *)

Module arrlist_fast.
Section ArrayLinkedList.
Context {T : Type} `{!Move T}.
(** [T()], the value-initialised element [values_.resize(capacity)] stores. *)
Context (T_default : T).

(** The data members. *)
Record ArrayLinkedList : Type := mkList {
  values_ : list T;
  next_ : list Z;
  prev_ : list Z;
  generations_ : list Z;
  free_list_ : list Z;
  head_ : Z;
  tail_ : Z;
  size_ : Z
}.

Definition store_values (v : list T) (s : ArrayLinkedList) : ArrayLinkedList :=
  mkList v (next_ s) (prev_ s) (generations_ s) (free_list_ s)
    (head_ s) (tail_ s) (size_ s).
Definition store_next (v : list Z) (s : ArrayLinkedList) : ArrayLinkedList :=
  mkList (values_ s) v (prev_ s) (generations_ s) (free_list_ s)
    (head_ s) (tail_ s) (size_ s).
Definition store_prev (v : list Z) (s : ArrayLinkedList) : ArrayLinkedList :=
  mkList (values_ s) (next_ s) v (generations_ s) (free_list_ s)
    (head_ s) (tail_ s) (size_ s).
Definition store_generations (v : list Z) (s : ArrayLinkedList) : ArrayLinkedList :=
  mkList (values_ s) (next_ s) (prev_ s) v (free_list_ s)
    (head_ s) (tail_ s) (size_ s).
Definition store_free_list (v : list Z) (s : ArrayLinkedList) : ArrayLinkedList :=
  mkList (values_ s) (next_ s) (prev_ s) (generations_ s) v
    (head_ s) (tail_ s) (size_ s).
Definition store_head (i : Z) (s : ArrayLinkedList) : ArrayLinkedList :=
  mkList (values_ s) (next_ s) (prev_ s) (generations_ s) (free_list_ s)
    i (tail_ s) (size_ s).
Definition store_tail (i : Z) (s : ArrayLinkedList) : ArrayLinkedList :=
  mkList (values_ s) (next_ s) (prev_ s) (generations_ s) (free_list_ s)
    (head_ s) i (size_ s).
Definition store_size (n : Z) (s : ArrayLinkedList) : ArrayLinkedList :=
  mkList (values_ s) (next_ s) (prev_ s) (generations_ s) (free_list_ s)
    (head_ s) (tail_ s) n.

Abbreviation Op := (M ArrayLinkedList).

(** [explicit ArrayLinkedList(std::size_t capacity)]: the object built, or
    the exception thrown. *)
Definition make (capacity : nat) : exception + ArrayLinkedList :=
  if decide (capacity = 0%nat) then inl InvalidCapacity
  else inr {| values_ := replicate capacity T_default;
              next_ := replicate capacity kNull;
              prev_ := replicate capacity kNull;
              generations_ := replicate capacity 0;
              free_list_ := initial_free_list capacity;
              head_ := kNull;
              tail_ := kNull;
              size_ := 0 |}.

Definition capacity (s : ArrayLinkedList) : Z := Z.of_nat (length (values_ s)).
Definition size (s : ArrayLinkedList) : Z := size_ s.
Definition empty (s : ArrayLinkedList) : bool := bool_decide (size_ s = 0).

(** [++size_] and [--size_] *)
Definition incr_size : Op unit := modify (λ s, store_size (wrap64 (size_ s + 1)) s).
Definition decr_size : Op unit := modify (λ s, store_size (wrap64 (size_ s - 1)) s).

Definition allocate_node (v : T) : Op NodeHandle :=
  let! fl := gets free_list_ in
  match back fl with
  | None => throw CapacityExhausted
  | Some idx =>
      modify (store_free_list (pop_back fl)) >>>
      write values_ store_values idx v >>>
      write next_ store_next idx kNull >>>
      write prev_ store_prev idx kNull >>>
      let! g := read generations_ idx in
      write generations_ store_generations idx (wrap32 (g + 1)) >>>
      let! g' := read generations_ idx in
      ret (Handle.mk idx g')
  end.

Definition release_node (idx : Z) : Op unit :=
  write next_ store_next idx kNull >>>
  write prev_ store_prev idx kNull >>>
  modify (λ s, store_free_list (push_back_vec (free_list_ s) idx) s).

Definition ensure_valid_handle (handle : NodeHandle) : Op unit :=
  let idx := Handle.index handle in
  let! n := gets (λ s, Z.of_nat (length (values_ s))) in
  if decide (idx < 0) then throw InvalidHandle
  else if decide (idx >= n) then throw InvalidHandle
  else
    let! g := read generations_ idx in
    if decide (g ≠ Handle.generation handle) then throw InvalidHandle
    else ret tt.

Definition ensure_valid_node (idx : Z) : Op unit :=
  let! n := gets (λ s, Z.of_nat (length (values_ s))) in
  if decide (idx < 0) then throw InvalidNode
  else if decide (idx >= n) then throw InvalidNode
  else ret tt.

Definition emplace_front (v : T) : Op NodeHandle :=
  let! handle := allocate_node v in
  let idx := Handle.index handle in
  write prev_ store_prev idx kNull >>>
  let! head := gets head_ in
  write next_ store_next idx head >>>
  (if decide (head ≠ kNull) then write prev_ store_prev head idx
   else modify (store_tail idx)) >>>
  modify (store_head idx) >>>
  incr_size >>>
  ret handle.

Definition emplace_back (v : T) : Op NodeHandle :=
  let! handle := allocate_node v in
  let idx := Handle.index handle in
  write next_ store_next idx kNull >>>
  let! tail := gets tail_ in
  write prev_ store_prev idx tail >>>
  (if decide (tail ≠ kNull) then write next_ store_next tail idx
   else modify (store_head idx)) >>>
  modify (store_tail idx) >>>
  incr_size >>>
  ret handle.

Definition emplace_after (handle : NodeHandle) (v : T) : Op NodeHandle :=
  ensure_valid_handle handle >>>
  let node_index := Handle.index handle in
  let! new_handle := allocate_node v in
  let idx := Handle.index new_handle in
  let! old_next := read next_ node_index in
  write prev_ store_prev idx node_index >>>
  write next_ store_next idx old_next >>>
  write next_ store_next node_index idx >>>
  (if decide (old_next ≠ kNull) then write prev_ store_prev old_next idx
   else modify (store_tail idx)) >>>
  incr_size >>>
  ret new_handle.

(** [T value = std::move(values_[idx]);] leaves [moved_from value] in the
    slot. *)
Definition pop_front : Op T :=
  let! head := gets head_ in
  if decide (head = kNull) then throw Empty
  else
    let idx := head in
    let! nx := read next_ idx in
    modify (store_head nx) >>>
    (if decide (nx ≠ kNull) then write prev_ store_prev nx kNull
     else modify (store_tail kNull)) >>>
    decr_size >>>
    let! value := read values_ idx in
    write values_ store_values idx (moved_from value) >>>
    release_node idx >>>
    ret value.

Definition erase_after (handle : NodeHandle) : Op unit :=
  ensure_valid_handle handle >>>
  let node_index := Handle.index handle in
  let! target := read next_ node_index in
  if decide (target = kNull) then throw NoSuccessor
  else
    let! new_next := read next_ target in
    write next_ store_next node_index new_next >>>
    (if decide (new_next ≠ kNull) then write prev_ store_prev new_next node_index
     else modify (store_tail node_index)) >>>
    decr_size >>>
    release_node target.

Definition erase (handle : NodeHandle) : Op unit :=
  ensure_valid_handle handle >>>
  let node_index := Handle.index handle in
  let! prev := read prev_ node_index in
  let! next := read next_ node_index in
  (if decide (prev ≠ kNull) then write next_ store_next prev next
   else modify (store_head next)) >>>
  (if decide (next ≠ kNull) then write prev_ store_prev next prev
   else modify (store_tail prev)) >>>
  decr_size >>>
  release_node node_index.

(** The loop of [for_each], from [idx]; the result lists the calls
    [fn(values_[idx], idx)] in the order they are made. *)
Fixpoint for_each_from (fuel : nat) (idx : Z) : Op (list (T * Z)) :=
  match fuel with
  | O => λ _, OutOfFuel
  | S fuel' =>
      if decide (idx ≠ kNull) then
        let! v := read values_ idx in
        let! nx := read next_ idx in
        let! rest := for_each_from fuel' nx in
        ret ((v, idx) :: rest)
      else ret []
  end.

Definition for_each (fuel : nat) : Op (list (T * Z)) :=
  let! head := gets head_ in
  for_each_from fuel head.

Definition at_ (node_index : Z) : Op T :=
  ensure_valid_node node_index >>>
  read values_ node_index.

Definition push_front (value : T) : Op NodeHandle := emplace_front value.
Definition push_back (value : T) : Op NodeHandle := emplace_back value.
Definition insert_after (handle : NodeHandle) (value : T) : Op NodeHandle :=
  emplace_after handle value.

(** The unchecked helpers for tight loops. *)
Definition head_index_unchecked : Op Z := gets head_.
Definition next_index_unchecked (node_index : Z) : Op Z :=
  read next_ node_index.
Definition value_unchecked (node_index : Z) : Op T :=
  read values_ node_index.

(** The loop of [for_each_value_unchecked], from [idx]; the result lists
    the calls [fn(values_[idx])] in the order they are made. *)
Fixpoint for_each_value_unchecked_from (fuel : nat) (idx : Z)
    : Op (list T) :=
  match fuel with
  | O => λ _, OutOfFuel
  | S fuel' =>
      if decide (idx ≠ kNull) then
        let! v := read values_ idx in
        let! nx := read next_ idx in
        let! rest := for_each_value_unchecked_from fuel' nx in
        ret (v :: rest)
      else ret []
  end.

Definition for_each_value_unchecked (fuel : nat) : Op (list T) :=
  let! head := gets head_ in
  for_each_value_unchecked_from fuel head.

(** A call of the public interface; [fuel] bounds the loop of [for_each]. *)
Definition exec (fuel : nat) (o : op T) : Op (obs T) :=
  match o with
  | PushFront v => let! h := push_front v in ret (RHandle h)
  | PushBack v => let! h := push_back v in ret (RHandle h)
  | InsertAfter h v => let! h' := insert_after h v in ret (RHandle h')
  | Erase h => erase h >>> ret RUnit
  | EraseAfter h => erase_after h >>> ret RUnit
  | PopFront => let! v := pop_front in ret (RValue v)
  | ForEach => let! l := for_each fuel in ret (RVisited l)
  | Size => let! n := gets size in ret (RSize n)
  end.

(** A sequence of calls on one object: what each call returned or threw.
    The sequence ends at a call with undefined behaviour or that does not
    return. *)
Fixpoint run (fuel : nat) (ops : list (op T)) (s : ArrayLinkedList)
    : list (outcome (obs T)) :=
  match ops with
  | [] => []
  | o :: ops' =>
      match exec fuel o s with
      | Ok a s' => Returned a :: run fuel ops' s'
      | Throw e s' => Thrown e :: run fuel ops' s'
      | UB => [Undefined]
      | OutOfFuel => [Unfinished]
      end
  end.

(** The same on a list built with the given capacity. *)
Definition run_new (capacity : nat) (fuel : nat) (ops : list (op T))
    : list (outcome (obs T)) :=
  match make capacity with
  | inl e => [Thrown e]
  | inr s => run fuel ops s
  end.

End ArrayLinkedList.
Arguments ArrayLinkedList T : clear implicits.
End arrlist_fast.

(** ** Row layout: [arrlist_slow::ArrayLinkedList] of
    [array_linked_list_slow_aos.hpp] *)

Module arrlist_slow.
Section ArrayLinkedList.
Context {T : Type} `{!Move T}.
(** [T()], the initialiser [T value{}] of a node. *)
Context (T_default : T).

(** [struct Node { T value{}; int next = kNull; int prev = kNull;
    std::uint32_t generation = 0; };] *)
Record Node : Type := mkNode {
  value : T;
  next : Z;
  prev : Z;
  generation : Z
}.

Definition set_value (v : T) (n : Node) : Node :=
  mkNode v (next n) (prev n) (generation n).
Definition set_next (i : Z) (n : Node) : Node :=
  mkNode (value n) i (prev n) (generation n).
Definition set_prev (i : Z) (n : Node) : Node :=
  mkNode (value n) (next n) i (generation n).
Definition set_generation (g : Z) (n : Node) : Node :=
  mkNode (value n) (next n) (prev n) g.

(** The data members. *)
Record ArrayLinkedList : Type := mkList {
  nodes_ : list Node;
  free_list_ : list Z;
  head_ : Z;
  tail_ : Z;
  size_ : Z
}.

Definition store_nodes (v : list Node) (s : ArrayLinkedList) : ArrayLinkedList :=
  mkList v (free_list_ s) (head_ s) (tail_ s) (size_ s).
Definition store_free_list (v : list Z) (s : ArrayLinkedList) : ArrayLinkedList :=
  mkList (nodes_ s) v (head_ s) (tail_ s) (size_ s).
Definition store_head (i : Z) (s : ArrayLinkedList) : ArrayLinkedList :=
  mkList (nodes_ s) (free_list_ s) i (tail_ s) (size_ s).
Definition store_tail (i : Z) (s : ArrayLinkedList) : ArrayLinkedList :=
  mkList (nodes_ s) (free_list_ s) (head_ s) i (size_ s).
Definition store_size (n : Z) (s : ArrayLinkedList) : ArrayLinkedList :=
  mkList (nodes_ s) (free_list_ s) (head_ s) (tail_ s) n.

Abbreviation Op := (M ArrayLinkedList).

(** [nodes_[i].field] as an rvalue. *)
Definition read_field {A} (field : Node → A) (i : Z) : Op A :=
  let! n := read nodes_ i in
  ret (field n).

(** [nodes_[i].field = x], [set] being the assignment to the field. *)
Definition write_field (set : Node → Node) (i : Z) : Op unit :=
  let! n := read nodes_ i in
  write nodes_ store_nodes i (set n).

(** [explicit ArrayLinkedList(std::size_t capacity)] *)
Definition make (capacity : nat) : exception + ArrayLinkedList :=
  if decide (capacity = 0%nat) then inl InvalidCapacity
  else inr {| nodes_ := replicate capacity (mkNode T_default kNull kNull 0);
              free_list_ := initial_free_list capacity;
              head_ := kNull;
              tail_ := kNull;
              size_ := 0 |}.

Definition capacity (s : ArrayLinkedList) : Z := Z.of_nat (length (nodes_ s)).
Definition size (s : ArrayLinkedList) : Z := size_ s.
Definition empty (s : ArrayLinkedList) : bool := bool_decide (size_ s = 0).

Definition incr_size : Op unit := modify (λ s, store_size (wrap64 (size_ s + 1)) s).
Definition decr_size : Op unit := modify (λ s, store_size (wrap64 (size_ s - 1)) s).

Definition allocate_node (v : T) : Op NodeHandle :=
  let! fl := gets free_list_ in
  match back fl with
  | None => throw CapacityExhausted
  | Some idx =>
      modify (store_free_list (pop_back fl)) >>>
      write_field (set_value v) idx >>>
      write_field (set_next kNull) idx >>>
      write_field (set_prev kNull) idx >>>
      let! g := read_field generation idx in
      write_field (set_generation (wrap32 (g + 1))) idx >>>
      let! g' := read_field generation idx in
      ret (Handle.mk idx g')
  end.

Definition release_node (idx : Z) : Op unit :=
  write_field (set_next kNull) idx >>>
  write_field (set_prev kNull) idx >>>
  modify (λ s, store_free_list (push_back_vec (free_list_ s) idx) s).

Definition ensure_valid_handle (handle : NodeHandle) : Op unit :=
  let idx := Handle.index handle in
  let! n := gets (λ s, Z.of_nat (length (nodes_ s))) in
  if decide (idx < 0) then throw InvalidHandle
  else if decide (idx >= n) then throw InvalidHandle
  else
    let! g := read_field generation idx in
    if decide (g ≠ Handle.generation handle) then throw InvalidHandle
    else ret tt.

Definition ensure_valid_node (idx : Z) : Op unit :=
  let! n := gets (λ s, Z.of_nat (length (nodes_ s))) in
  if decide (idx < 0) then throw InvalidNode
  else if decide (idx >= n) then throw InvalidNode
  else ret tt.

Definition emplace_front (v : T) : Op NodeHandle :=
  let! handle := allocate_node v in
  let idx := Handle.index handle in
  write_field (set_prev kNull) idx >>>
  let! head := gets head_ in
  write_field (set_next head) idx >>>
  (if decide (head ≠ kNull) then write_field (set_prev idx) head
   else modify (store_tail idx)) >>>
  modify (store_head idx) >>>
  incr_size >>>
  ret handle.

Definition emplace_back (v : T) : Op NodeHandle :=
  let! handle := allocate_node v in
  let idx := Handle.index handle in
  write_field (set_next kNull) idx >>>
  let! tail := gets tail_ in
  write_field (set_prev tail) idx >>>
  (if decide (tail ≠ kNull) then write_field (set_next idx) tail
   else modify (store_head idx)) >>>
  modify (store_tail idx) >>>
  incr_size >>>
  ret handle.

Definition emplace_after (handle : NodeHandle) (v : T) : Op NodeHandle :=
  ensure_valid_handle handle >>>
  let node_index := Handle.index handle in
  let! new_handle := allocate_node v in
  let idx := Handle.index new_handle in
  let! old_next := read_field next node_index in
  write_field (set_prev node_index) idx >>>
  write_field (set_next old_next) idx >>>
  write_field (set_next idx) node_index >>>
  (if decide (old_next ≠ kNull) then write_field (set_prev idx) old_next
   else modify (store_tail idx)) >>>
  incr_size >>>
  ret new_handle.

Definition push_front (value : T) : Op NodeHandle := emplace_front value.
Definition push_back (value : T) : Op NodeHandle := emplace_back value.
Definition insert_after (handle : NodeHandle) (value : T) : Op NodeHandle :=
  emplace_after handle value.

(** [T value = std::move(nodes_[idx].value);] leaves [moved_from value] in
    the node. *)
Definition pop_front : Op T :=
  let! head := gets head_ in
  if decide (head = kNull) then throw Empty
  else
    let idx := head in
    let! nx := read_field next idx in
    modify (store_head nx) >>>
    (if decide (nx ≠ kNull) then write_field (set_prev kNull) nx
     else modify (store_tail kNull)) >>>
    decr_size >>>
    let! value := read_field value idx in
    write_field (set_value (moved_from value)) idx >>>
    release_node idx >>>
    ret value.

Definition erase_after (handle : NodeHandle) : Op unit :=
  ensure_valid_handle handle >>>
  let node_index := Handle.index handle in
  let! target := read_field next node_index in
  if decide (target = kNull) then throw NoSuccessor
  else
    let! new_next := read_field next target in
    write_field (set_next new_next) node_index >>>
    (if decide (new_next ≠ kNull) then write_field (set_prev node_index) new_next
     else modify (store_tail node_index)) >>>
    decr_size >>>
    release_node target.

Definition erase (handle : NodeHandle) : Op unit :=
  ensure_valid_handle handle >>>
  let node_index := Handle.index handle in
  let! prev := read_field prev node_index in
  let! next := read_field next node_index in
  (if decide (prev ≠ kNull) then write_field (set_next next) prev
   else modify (store_head next)) >>>
  (if decide (next ≠ kNull) then write_field (set_prev prev) next
   else modify (store_tail prev)) >>>
  decr_size >>>
  release_node node_index.

Fixpoint for_each_from (fuel : nat) (idx : Z) : Op (list (T * Z)) :=
  match fuel with
  | O => λ _, OutOfFuel
  | S fuel' =>
      if decide (idx ≠ kNull) then
        let! v := read_field value idx in
        let! nx := read_field next idx in
        let! rest := for_each_from fuel' nx in
        ret ((v, idx) :: rest)
      else ret []
  end.

Definition for_each (fuel : nat) : Op (list (T * Z)) :=
  let! head := gets head_ in
  for_each_from fuel head.

Definition at_ (node_index : Z) : Op T :=
  ensure_valid_node node_index >>>
  read_field value node_index.

(** The unchecked helpers for tight loops. *)
Definition head_index_unchecked : Op Z := gets head_.
Definition next_index_unchecked (node_index : Z) : Op Z :=
  read_field next node_index.
Definition value_unchecked (node_index : Z) : Op T :=
  read_field value node_index.

Fixpoint for_each_value_unchecked_from (fuel : nat) (idx : Z)
    : Op (list T) :=
  match fuel with
  | O => λ _, OutOfFuel
  | S fuel' =>
      if decide (idx ≠ kNull) then
        let! v := read_field value idx in
        let! nx := read_field next idx in
        let! rest := for_each_value_unchecked_from fuel' nx in
        ret (v :: rest)
      else ret []
  end.

Definition for_each_value_unchecked (fuel : nat) : Op (list T) :=
  let! head := gets head_ in
  for_each_value_unchecked_from fuel head.

(** A call of the public interface; [fuel] bounds the loop of [for_each]. *)
Definition exec (fuel : nat) (o : op T) : Op (obs T) :=
  match o with
  | PushFront v => let! h := push_front v in ret (RHandle h)
  | PushBack v => let! h := push_back v in ret (RHandle h)
  | InsertAfter h v => let! h' := insert_after h v in ret (RHandle h')
  | Erase h => erase h >>> ret RUnit
  | EraseAfter h => erase_after h >>> ret RUnit
  | PopFront => let! v := pop_front in ret (RValue v)
  | ForEach => let! l := for_each fuel in ret (RVisited l)
  | Size => let! n := gets size in ret (RSize n)
  end.

(** A sequence of calls on one object: what each call returned or threw.
    The sequence ends at a call with undefined behaviour or that does not
    return. *)
Fixpoint run (fuel : nat) (ops : list (op T)) (s : ArrayLinkedList)
    : list (outcome (obs T)) :=
  match ops with
  | [] => []
  | o :: ops' =>
      match exec fuel o s with
      | Ok a s' => Returned a :: run fuel ops' s'
      | Throw e s' => Thrown e :: run fuel ops' s'
      | UB => [Undefined]
      | OutOfFuel => [Unfinished]
      end
  end.

(** The same on a list built with the given capacity. *)
Definition run_new (capacity : nat) (fuel : nat) (ops : list (op T))
    : list (outcome (obs T)) :=
  match make capacity with
  | inl e => [Thrown e]
  | inr s => run fuel ops s
  end.

End ArrayLinkedList.
Arguments Node T : clear implicits.
Arguments ArrayLinkedList T : clear implicits.
End arrlist_slow.

(** ** The two layouts side by side *)

(** The columns of a row-layout object. *)
Definition to_soa {T} (s : arrlist_slow.ArrayLinkedList T)
    : arrlist_fast.ArrayLinkedList T :=
  {| arrlist_fast.values_ := arrlist_slow.value <$> arrlist_slow.nodes_ s;
     arrlist_fast.next_ := arrlist_slow.next <$> arrlist_slow.nodes_ s;
     arrlist_fast.prev_ := arrlist_slow.prev <$> arrlist_slow.nodes_ s;
     arrlist_fast.generations_ :=
       arrlist_slow.generation <$> arrlist_slow.nodes_ s;
     arrlist_fast.free_list_ := arrlist_slow.free_list_ s;
     arrlist_fast.head_ := arrlist_slow.head_ s;
     arrlist_fast.tail_ := arrlist_slow.tail_ s;
     arrlist_fast.size_ := arrlist_slow.size_ s |}.

Definition map_res {St St' A} (f : St → St') (r : res St A) : res St' A :=
  match r with
  | Ok a s => Ok a (f s)
  | Throw e s => Throw e (f s)
  | UB => UB
  | OutOfFuel => OutOfFuel
  end.

(** A column-layout computation and a row-layout computation that do the
    same on corresponding objects. *)
Definition simulates {T A} (m1 : M (arrlist_fast.ArrayLinkedList T) A)
    (m2 : M (arrlist_slow.ArrayLinkedList T) A) : Prop :=
  ∀ s, m1 (to_soa s) = map_res to_soa (m2 s).

(** ** Specification of the column layout *)

Import arrlist_fast.

(** The trace of an object: the calls made on it since its construction,
    each with what the caller saw of it. *)
Definition trace (T : Type) : Type := list (op T * outcome (obs T)).

(** The calls of a trace that returned, among the calls selected by [p]. *)
Fixpoint successes {T} (p : op T → bool) (tr : trace T) : Z :=
  match tr with
  | [] => 0
  | (o, Returned _) :: tr' => (if p o then 1 else 0) + successes p tr'
  | _ :: tr' => successes p tr'
  end.

(** Successful insertions minus successful removals. *)
Definition live_count {T} (tr : trace T) : Z :=
  successes is_insertion tr - successes is_removal tr.

Definition state_of {St A} (r : res St A) : option St :=
  match r with
  | Ok _ s | Throw _ s => Some s
  | UB | OutOfFuel => None
  end.

Section Specification.
Context {T : Type} `{!Move T}.
Context (T_default : T).
Implicit Types (s : ArrayLinkedList T) (h : NodeHandle) (i : Z) (l : list Z).

(** The handle passes the check of [ensure_valid_handle]. *)
Definition validates s h : Prop := ensure_valid_handle h s = Ok tt s.

(** The states an object goes through, calls being restricted by [allowed]. *)
Inductive reaches (allowed : ArrayLinkedList T → op T → Prop) (c : nat)
    : trace T → ArrayLinkedList T → Prop :=
| reaches_make s :
    make T_default c = inr s → reaches allowed c [] s
| reaches_step tr s fuel o s' :
    reaches allowed c tr s →
    allowed s o →
    state_of (exec fuel o s) = Some s' →
    reaches allowed c (tr ++ [(o, outcome_of (exec fuel o s))]) s'.

(** Any call with any argument. *)
Definition any_call : ArrayLinkedList T → op T → Prop := λ _ _, True.

(** Calls that do not hand [erase] or [insert_after] a handle that passes
    the check although its slot is on the free list: the handle of an
    element already removed whose slot has not been taken again, or a
    handle that no insertion returned, such as [{i, 0}] for a slot never
    taken. *)
Definition live_handles s (o : op T) : Prop :=
  match o with
  | InsertAfter h _ | Erase h =>
      validates s h → Handle.index h ∉ free_list_ s
  | _ => True
  end.

(** The generation of slot [i]. *)
Definition generation_of s i : option Z := vget (generations_ s) i.

(** A slot index, and a link: [kNull] or a slot index. *)
Definition is_slot (c : nat) i : Prop := 0 ≤ i < Z.of_nat c.
Definition is_link (c : nat) i : Prop := i = kNull ∨ is_slot c i.

(** What holds of the vectors and indices of every object, whatever was
    called on it. *)
Record shape (c : nat) s : Prop := mkShape {
  shape_values : length (values_ s) = c;
  shape_next : length (next_ s) = c;
  shape_prev : length (prev_ s) = c;
  shape_generations : length (generations_ s) = c;
  shape_free_list : Forall (is_slot c) (free_list_ s);
  shape_next_links : Forall (is_link c) (next_ s);
  shape_prev_links : Forall (is_link c) (prev_ s);
  shape_head : is_link c (head_ s);
  shape_tail : is_link c (tail_ s)
}.

(** The effect of an insertion that took slot [idx] at generation [g], and
    of a removal that gave slot [idx] back, on the free list, the
    generations and the count. *)
Definition allocated s s' (idx g : Z) : Prop :=
  free_list_ s = free_list_ s' ++ [idx] ∧
  generation_of s idx = Some g ∧
  generations_ s' = <[Z.to_nat idx := wrap32 (g + 1)]> (generations_ s) ∧
  size_ s' = wrap64 (size_ s + 1).

Definition released s s' (idx : Z) : Prop :=
  free_list_ s' = free_list_ s ++ [idx] ∧
  generations_ s' = generations_ s ∧
  values_ s' = values_ s ∧
  size_ s' = wrap64 (size_ s - 1).

(** The effect of [pop_front], which gave the head slot [idx] back and
    returned [a], on the same and on the values: the value of the head
    slot has been moved out. *)
Definition popped s s' (idx : Z) (a : obs T) : Prop :=
  free_list_ s' = free_list_ s ++ [idx] ∧
  generations_ s' = generations_ s ∧
  (∃ v, a = RValue v ∧ head_ s = idx ∧ vget (values_ s) idx = Some v ∧
        values_ s' = <[Z.to_nat idx := moved_from v]> (values_ s)) ∧
  size_ s' = wrap64 (size_ s - 1).

(** The generation of slot [i] after a call, [g] being its generation
    before the call and [r] what the caller saw of the call: one more,
    modulo [2^32], if the call returned a handle of the slot. *)
Definition generation_after (r : outcome (obs T)) i (g : Z) : Z :=
  match r with
  | Returned (RHandle h) =>
      if decide (Handle.index h = i) then wrap32 (g + 1) else g
  | _ => g
  end.

(** The object of capacity 1 whose slot is free, and the one whose slot
    is taken, [g] being the generation of the slot and [v] the value left
    in it. *)
Definition vacant (v : T) (g : Z) : ArrayLinkedList T :=
  {| values_ := [v]; next_ := [kNull]; prev_ := [kNull];
     generations_ := [g]; free_list_ := [0];
     head_ := kNull; tail_ := kNull; size_ := 0 |}.

Definition taken (v : T) (g : Z) : ArrayLinkedList T :=
  {| values_ := [v]; next_ := [kNull]; prev_ := [kNull];
     generations_ := [g]; free_list_ := [];
     head_ := 0; tail_ := 0; size_ := 1 |}.

(** What a call that returned [a] has done to the object. *)
Definition effect (o : op T) (a : obs T) s s' : Prop :=
  match o with
  | PushFront _ | PushBack _ | InsertAfter _ _ =>
      ∃ idx g, a = RHandle (Handle.mk idx (wrap32 (g + 1))) ∧
               allocated s s' idx g
  | Erase _ | EraseAfter _ => ∃ idx, released s s' idx
  | PopFront => ∃ idx, popped s s' idx a
  | ForEach | Size => s' = s
  end.

(** Why a call threw [e]. *)
Definition thrown (o : op T) (e : exception) s : Prop :=
  match o with
  | PushFront _ | PushBack _ => e = CapacityExhausted ∧ free_list_ s = []
  | InsertAfter h _ =>
      (e = InvalidHandle ∧ ¬ validates s h) ∨
      (e = CapacityExhausted ∧ validates s h ∧ free_list_ s = [])
  | Erase h => e = InvalidHandle ∧ ¬ validates s h
  | EraseAfter h =>
      (e = InvalidHandle ∧ ¬ validates s h) ∨
      (e = NoSuccessor ∧ validates s h ∧
       vget (next_ s) (Handle.index h) = Some kNull)
  | PopFront => e = Empty ∧ head_ s = kNull
  | ForEach | Size => False
  end.

(** The first slot of a chain, [q] if it has none, and its last slot, [p]
    if it has none. *)
Definition first_of (q : Z) l : Z := default q (head l).
Definition last_of (p : Z) l : Z := default p (last l).

(** The [next_] links along the chain [l], [q] after its last slot. *)
Fixpoint fwd (nx : list Z) l (q : Z) : Prop :=
  match l with
  | [] => True
  | i :: l' => vget nx i = Some (first_of q l') ∧ fwd nx l' q
  end.

(** The [prev_] links along the chain [l], [p] before its first slot. *)
Fixpoint bwd (pv : list Z) (p : Z) l : Prop :=
  match l with
  | [] => True
  | i :: l' => vget pv i = Some p ∧ bwd pv i l'
  end.

(** The object holds the chain of slots [l], from head to tail: every slot
    is either in the chain or on the free list, once; the links follow the
    chain; the links of free slots are [kNull]; the count is the length of
    the chain. *)
Record repr (c : nat) s l : Prop := mkRepr {
  repr_capacity : Z.of_nat c ≤ INT_MAX + 1;
  repr_values : length (values_ s) = c;
  repr_next : length (next_ s) = c;
  repr_prev : length (prev_ s) = c;
  repr_generations : length (generations_ s) = c;
  repr_NoDup : NoDup (l ++ free_list_ s);
  repr_slots : ∀ i, is_slot c i ↔ i ∈ l ++ free_list_ s;
  repr_total : length (l ++ free_list_ s) = c;
  repr_head : head_ s = first_of kNull l;
  repr_tail : tail_ s = last_of kNull l;
  repr_fwd : fwd (next_ s) l kNull;
  repr_bwd : bwd (prev_ s) kNull l;
  repr_free : ∀ i, i ∈ free_list_ s →
    vget (next_ s) i = Some kNull ∧ vget (prev_ s) i = Some kNull;
  repr_size : size_ s = Z.of_nat (length l)
}.

(** [next_] with [x] after the last slot of the chain [l1], and [prev_]
    with [x] before the first slot of the chain [l2]. *)
Definition link_after l1 (x : Z) (nx : list Z) : list Z :=
  match last l1 with
  | Some p => <[Z.to_nat p := x]> nx
  | None => nx
  end.

Definition link_before l2 (x : Z) (pv : list Z) : list Z :=
  match head l2 with
  | Some n => <[Z.to_nat n := x]> pv
  | None => pv
  end.

(** The object after slot [idx], the last of the free list, has been given
    the value [v] and linked between the chains [l1] and [l2]. *)
Definition spliced_in l1 (idx : Z) l2 (v : T) s : ArrayLinkedList T :=
  {| values_ := <[Z.to_nat idx := v]> (values_ s);
     next_ := link_after l1 idx
                (<[Z.to_nat idx := first_of kNull l2]> (next_ s));
     prev_ := link_before l2 idx
                (<[Z.to_nat idx := last_of kNull l1]> (prev_ s));
     generations_ :=
       <[Z.to_nat idx :=
           wrap32 (default 0 (generation_of s idx) + 1)]> (generations_ s);
     free_list_ := pop_back (free_list_ s);
     head_ := first_of idx l1;
     tail_ := last_of idx l2;
     size_ := wrap64 (size_ s + 1) |}.

(** The object after slot [i] has been unlinked from between the chains
    [l1] and [l2] and put on the free list. *)
Definition spliced_out l1 (i : Z) l2 s : ArrayLinkedList T :=
  {| values_ := values_ s;
     next_ := <[Z.to_nat i := kNull]>
                (link_after l1 (first_of kNull l2) (next_ s));
     prev_ := <[Z.to_nat i := kNull]>
                (link_before l2 (last_of kNull l1) (prev_ s));
     generations_ := generations_ s;
     free_list_ := free_list_ s ++ [i];
     head_ := first_of kNull (l1 ++ l2);
     tail_ := last_of kNull (l1 ++ l2);
     size_ := wrap64 (size_ s - 1) |}.

(** The object after the value [v] of slot [i] has been moved out. *)
Definition moved_out (i : Z) (v : T) s : ArrayLinkedList T :=
  store_values (<[Z.to_nat i := moved_from v]> (values_ s)) s.

(** The object after a sequence of calls, if they all return or throw. *)
Fixpoint exec_all (fuel : nat) (ops : list (op T)) s
    : option (ArrayLinkedList T) :=
  match ops with
  | [] => Some s
  | o :: ops' =>
      match state_of (exec fuel o s) with
      | Some s' => exec_all fuel ops' s'
      | None => None
      end
  end.

(** The values stored in the slots of a chain. *)
Definition contents s l (vs : list T) : Prop :=
  Forall2 (λ i v, vget (values_ s) i = Some v) l vs.

End Specification.

(** An object of capacity 2, just built, and the same after [push_back(7)]
    and [push_back(8)], with its trace. *)
Definition demo_empty : ArrayLinkedList nat :=
  {| values_ := [0%nat; 0%nat]; next_ := [kNull; kNull];
     prev_ := [kNull; kNull]; generations_ := [0; 0]; free_list_ := [1; 0];
     head_ := kNull; tail_ := kNull; size_ := 0 |}.

Definition demo_one : ArrayLinkedList nat :=
  {| values_ := [7%nat; 0%nat]; next_ := [kNull; kNull];
     prev_ := [kNull; kNull]; generations_ := [1; 0]; free_list_ := [1];
     head_ := 0; tail_ := 0; size_ := 1 |}.

Definition demo_list : ArrayLinkedList nat :=
  {| values_ := [7%nat; 8%nat]; next_ := [1; kNull];
     prev_ := [kNull; 0]; generations_ := [1; 1]; free_list_ := [];
     head_ := 0; tail_ := 1; size_ := 2 |}.

Definition demo_trace : trace nat :=
  [(PushBack 7%nat, Returned (RHandle (Handle.mk 0 1)));
   (PushBack 8%nat, Returned (RHandle (Handle.mk 1 1)))].

(** Computations that leave the object as it is when they throw. *)
Definition atomic {St A} (m : M St A) : Prop :=
  ∀ s e s', m s = Throw e s' → s' = s.

(** Computations that do not throw. *)
Definition nothrow {St A} (m : M St A) : Prop :=
  ∀ s e s', m s ≠ Throw e s'.

(** Computations that do not change the object. *)
Definition readonly {St A} (m : M St A) : Prop :=
  ∀ s, match m s with
       | Ok _ s' | Throw _ s' => s' = s
       | _ => True
       end.

(** ** The order book of [benchmark.cpp] *)

Module benchmark.

(** [struct Order { std::uint64_t id; std::int32_t qty; };] *)
Record Order : Type := mkOrder { id : Z; qty : Z }.

(** [Order{}] *)
Definition Order_default : Order := mkOrder 0 0.

(** [template <typename List> class ArrayListBook], [List] being the
    column-layout list of orders: the data members. *)
Record ArrayListBook : Type := mkBook {
  list_ : ArrayLinkedList Order;
  handles_ : list NodeHandle
}.

Definition store_list (l : ArrayLinkedList Order) (b : ArrayListBook)
    : ArrayListBook :=
  mkBook l (handles_ b).
Definition store_handles (v : list NodeHandle) (b : ArrayListBook)
    : ArrayListBook :=
  mkBook (list_ b) v.

(** A member function of [list_] called from a member function of the
    book. *)
Definition on_list {A} (m : M (ArrayLinkedList Order) A)
    : M ArrayListBook A :=
  λ b, match m (list_ b) with
       | Ok a l => Ok a (store_list l b)
       | Throw e l => Throw e (store_list l b)
       | UB => UB
       | OutOfFuel => OutOfFuel
       end.

(** [explicit ArrayListBook(std::size_t capacity) : list_(capacity)] *)
Definition make_book (capacity : nat) : exception + ArrayListBook :=
  match make Order_default capacity with
  | inl e => inl e
  | inr l => inr (mkBook l [])
  end.

Definition size (b : ArrayListBook) : Z := Z.of_nat (length (handles_ b)).
Definition capacity (b : ArrayListBook) : Z := arrlist_fast.capacity (list_ b).

Definition add (order : Order) : M ArrayListBook unit :=
  let! handle := on_list (push_back order) in
  modify (λ b, store_handles (push_back_vec (handles_ b) handle) b).

(** [pos] is a [std::size_t]. *)
Definition cancel_at_position (pos : nat) : M ArrayListBook unit :=
  let! n := gets (λ b, Z.of_nat (length (handles_ b))) in
  if decide (Z.of_nat pos >= n) then ret tt
  else
    let last := wrap64 (n - 1) in
    let! handle := read handles_ (Z.of_nat pos) in
    on_list (erase handle) >>>
    let! moved := read handles_ last in
    write handles_ store_handles (Z.of_nat pos) moved >>>
    modify (λ b, store_handles (pop_back (handles_ b)) b).

(** The sum is a [std::uint64_t]; [static_cast<std::uint64_t>(o.qty)]
    reduces the quantity modulo [2^64]. *)
Definition iterate_sum (fuel : nat) : M ArrayListBook Z :=
  let! visited := on_list (for_each_value_unchecked fuel) in
  ret (foldl (λ sum o, wrap64 (sum + wrap64 (qty o))) 0 visited).

(** [template <typename Book> void preload(Book&, const std::vector<Order>&)] *)
Fixpoint preload (orders : list Order) : M ArrayListBook unit :=
  match orders with
  | [] => ret tt
  | o :: orders' => add o >>> preload orders'
  end.

(** A call of [add] or [cancel_at_position]. *)
Inductive call : Type :=
| Add (order : Order)
| Cancel (pos : nat).

Definition exec_call (k : call) : M ArrayListBook unit :=
  match k with
  | Add order => add order
  | Cancel pos => cancel_at_position pos
  end.

(** The books built with capacity [c] and what [add] and
    [cancel_at_position] make of them. *)
Inductive book_reaches (c : nat) : ArrayListBook → Prop :=
| book_make b : make_book c = inr b → book_reaches c b
| book_step b k b' :
    book_reaches c b → state_of (exec_call k b) = Some b' →
    book_reaches c b'.

(** The handles of the book are the handles of the elements of the list:
    their indices are the slots of the chain, each once, and each passes
    the check. *)
Definition book_inv (c : nat) (b : ArrayListBook) : Prop :=
  ∃ l, repr c (list_ b) l ∧
       Handle.index <$> handles_ b ≡ₚ l ∧
       Forall (validates (list_ b)) (handles_ b).

(** The sum of the quantities of orders, as [iterate_sum] adds them up. *)
Definition total_qty (orders : list Order) : Z :=
  wrap64 (foldr (λ o sum, qty o + sum) 0 orders).

End benchmark.

(** Applying [f] to what a computation returns. *)
Definition res_map {St A B} (f : A → B) (r : res St A) : res St B :=
  match r with
  | Ok a s => Ok (f a) s
  | Throw e s => Throw e s
  | UB => UB
  | OutOfFuel => OutOfFuel
  end.

(** The object [demo_list] after [pop_front()]; after [erase] of its
    second element; and the latter after [push_back(9)]. *)
Definition demo_popped : ArrayLinkedList nat :=
  {| values_ := [7%nat; 8%nat]; next_ := [kNull; kNull];
     prev_ := [kNull; kNull]; generations_ := [1; 1]; free_list_ := [0];
     head_ := 1; tail_ := 1; size_ := 1 |}.

Definition demo_erased : ArrayLinkedList nat :=
  {| values_ := [7%nat; 8%nat]; next_ := [kNull; kNull];
     prev_ := [kNull; kNull]; generations_ := [1; 1]; free_list_ := [1];
     head_ := 0; tail_ := 0; size_ := 1 |}.

Definition demo_reused : ArrayLinkedList nat :=
  {| values_ := [7%nat; 9%nat]; next_ := [1; kNull];
     prev_ := [kNull; 0]; generations_ := [1; 2]; free_list_ := [];
     head_ := 0; tail_ := 1; size_ := 2 |}.

(** A book of capacity 2, just built, and the same after an order of
    quantity 5 has been added. *)
Definition demo_book : benchmark.ArrayListBook :=
  benchmark.mkBook
    {| values_ := [benchmark.Order_default; benchmark.Order_default];
       next_ := [kNull; kNull]; prev_ := [kNull; kNull];
       generations_ := [0; 0]; free_list_ := [1; 0];
       head_ := kNull; tail_ := kNull; size_ := 0 |}
    [].

Definition demo_book_one : benchmark.ArrayListBook :=
  benchmark.mkBook
    {| values_ := [benchmark.mkOrder 1 5; benchmark.Order_default];
       next_ := [kNull; kNull]; prev_ := [kNull; kNull];
       generations_ := [1; 0]; free_list_ := [1];
       head_ := 0; tail_ := 0; size_ := 1 |}
    [Handle.mk 0 1].

(** * Properties *)

(** ** Vectors *)

Lemma vget_Some {A} (v : list A) i x :
  vget v i = Some x ↔ 0 ≤ i ∧ v !! Z.to_nat i = Some x.
Proof.
  unfold vget. case_decide; [tauto|].
  split; [done | by intros [? _]].
Qed.

Lemma vget_lt {A} (v : list A) i x :
  vget v i = Some x → 0 ≤ i < Z.of_nat (length v).
Proof.
  rewrite vget_Some. intros [? Hl]. apply lookup_lt_Some in Hl. lia.
Qed.

Lemma vget_is_Some {A} (v : list A) i :
  0 ≤ i < Z.of_nat (length v) → is_Some (vget v i).
Proof.
  intros ?. unfold vget. rewrite decide_True by lia.
  apply lookup_lt_is_Some. lia.
Qed.

Lemma vget_None {A} (v : list A) i :
  vget v i = None ↔ ¬ (0 ≤ i < Z.of_nat (length v)).
Proof.
  unfold vget. case_decide.
  - rewrite lookup_ge_None. lia.
  - split; [lia | done].
Qed.

Lemma vget_fmap {A B} (f : A → B) (v : list A) i :
  vget (f <$> v) i = f <$> vget v i.
Proof. unfold vget. case_decide; [apply list_lookup_fmap | done]. Qed.

Lemma vset_Some {A} (v : list A) i x :
  0 ≤ i < Z.of_nat (length v) → vset v i x = Some (<[Z.to_nat i := x]> v).
Proof. intros ?. unfold vset. by rewrite decide_True. Qed.

Lemma vset_None {A} (v : list A) i x :
  ¬ (0 ≤ i < Z.of_nat (length v)) → vset v i x = None.
Proof. intros ?. unfold vset. by rewrite decide_False. Qed.

Lemma vset_length {A} (v v' : list A) i x :
  vset v i x = Some v' → length v' = length v.
Proof.
  unfold vset. case_decide; [|done]. intros [= <-]. apply length_insert.
Qed.

Lemma vget_vset_eq {A} (v v' : list A) i x :
  vset v i x = Some v' → vget v' i = Some x.
Proof.
  unfold vset, vget. case_decide; [|done]. intros [= <-].
  rewrite decide_True by lia. apply list_lookup_insert_eq. lia.
Qed.

Lemma vget_vset_ne {A} (v v' : list A) i j x :
  vset v i x = Some v' → i ≠ j → vget v' j = vget v j.
Proof.
  unfold vset, vget. case_decide; [|done]. intros [= <-] ?.
  case_decide; [|done]. apply list_lookup_insert_ne. lia.
Qed.

Lemma vget_insert_eq {A} (v : list A) i x :
  0 ≤ i < Z.of_nat (length v) → vget (<[Z.to_nat i := x]> v) i = Some x.
Proof. intros ?. eapply vget_vset_eq, vset_Some; lia. Qed.

Lemma vget_insert_ne {A} (v : list A) i j x :
  i ≠ j → 0 ≤ i → vget (<[Z.to_nat i := x]> v) j = vget v j.
Proof.
  intros ??. unfold vget. case_decide; [|done].
  apply list_lookup_insert_ne. lia.
Qed.

(** ** The two layouts do the same *)

Section Simulation.
Context {T : Type} `{!Move T}.
Implicit Types (s : arrlist_slow.ArrayLinkedList T).

Lemma simulates_ret {A} (a : A) : simulates (T:=T) (ret a) (ret a).
Proof. by intros s. Qed.

Lemma simulates_throw {A} e : simulates (T:=T) (A:=A) (throw e) (throw e).
Proof. by intros s. Qed.

Lemma simulates_bind {A B} m1 m2 (k1 : A → M (ArrayLinkedList T) B) k2 :
  simulates (T:=T) m1 m2 → (∀ a, simulates (k1 a) (k2 a)) →
  simulates (bind m1 k1) (bind m2 k2).
Proof.
  intros Hm Hk s. unfold bind. rewrite Hm.
  destruct (m2 s); simpl; try done. apply Hk.
Qed.

Lemma simulates_gets {A} (f1 : ArrayLinkedList T → A) f2 :
  (∀ s, f1 (to_soa s) = f2 s) → simulates (gets f1) (gets f2).
Proof. intros Hf s. unfold gets. simpl. by rewrite Hf. Qed.

Lemma simulates_modify (f1 : ArrayLinkedList T → ArrayLinkedList T) f2 :
  (∀ s, f1 (to_soa s) = to_soa (f2 s)) → simulates (modify f1) (modify f2).
Proof. intros Hf s. unfold modify. simpl. by rewrite Hf. Qed.

Lemma simulates_if {A} (P : Prop) `{!Decision P} m1 m2 m1' m2' :
  simulates (T:=T) (A:=A) m1 m2 → simulates m1' m2' →
  simulates (if decide P then m1 else m1') (if decide P then m2 else m2').
Proof. by case_decide. Qed.

Lemma simulates_read {A} (col : ArrayLinkedList T → list A) (field : arrlist_slow.Node T → A) i :
  (∀ s, col (to_soa s) = field <$> arrlist_slow.nodes_ s) →
  simulates (read col i) (arrlist_slow.read_field field i).
Proof.
  intros Hcol s. unfold arrlist_slow.read_field, read, bind, ret.
  rewrite Hcol, vget_fmap. by destruct (vget _ i).
Qed.

(** Assigning field [field] of a node: the column of the field gets the
    value, the other columns stay. *)
Lemma fmap_insert_field {A} (f : arrlist_slow.Node T → A) (v : list _) n n' k :
  v !! k = Some n → f <$> <[k := n']> v = <[k := f n']> (f <$> v).
Proof. intros _. apply list_fmap_insert. Qed.

Lemma fmap_insert_other {A} (f : arrlist_slow.Node T → A) (v : list _) n n' k :
  v !! k = Some n → f n' = f n → f <$> <[k := n']> v = f <$> v.
Proof.
  intros Hk Hf. rewrite list_fmap_insert, Hf.
  apply list_insert_id. by rewrite list_lookup_fmap, Hk.
Qed.

Lemma simulates_write_values i (x : T) :
  simulates (write values_ store_values i x)
    (arrlist_slow.write_field (arrlist_slow.set_value x) i).
Proof.
  intros s. unfold arrlist_slow.write_field, read, write, bind. simpl.
  destruct (vget _ i) as [n|] eqn:Hi.
  - pose proof (vget_lt _ _ _ Hi). apply vget_Some in Hi as [_ Hi].
    rewrite !vset_Some by (rewrite ?length_fmap; lia). simpl.
    unfold to_soa, store_values. simpl. f_equal. f_equal.
    + by rewrite list_fmap_insert.
    + by erewrite fmap_insert_other.
    + by erewrite fmap_insert_other.
    + by erewrite fmap_insert_other.
  - apply vget_None in Hi. rewrite vset_None; [done|].
    by rewrite length_fmap.
Qed.

Lemma simulates_write_next i x :
  simulates (T:=T) (write next_ store_next i x)
    (arrlist_slow.write_field (arrlist_slow.set_next x) i).
Proof.
  intros s. unfold arrlist_slow.write_field, read, write, bind. simpl.
  destruct (vget _ i) as [n|] eqn:Hi.
  - pose proof (vget_lt _ _ _ Hi). apply vget_Some in Hi as [_ Hi].
    rewrite !vset_Some by (rewrite ?length_fmap; lia). simpl.
    unfold to_soa, store_next. simpl. f_equal. f_equal.
    + by erewrite fmap_insert_other.
    + by rewrite list_fmap_insert.
    + by erewrite fmap_insert_other.
    + by erewrite fmap_insert_other.
  - apply vget_None in Hi. rewrite vset_None; [done|].
    by rewrite length_fmap.
Qed.

Lemma simulates_write_prev i x :
  simulates (T:=T) (write prev_ store_prev i x)
    (arrlist_slow.write_field (arrlist_slow.set_prev x) i).
Proof.
  intros s. unfold arrlist_slow.write_field, read, write, bind. simpl.
  destruct (vget _ i) as [n|] eqn:Hi.
  - pose proof (vget_lt _ _ _ Hi). apply vget_Some in Hi as [_ Hi].
    rewrite !vset_Some by (rewrite ?length_fmap; lia). simpl.
    unfold to_soa, store_prev. simpl. f_equal. f_equal.
    + by erewrite fmap_insert_other.
    + by erewrite fmap_insert_other.
    + by rewrite list_fmap_insert.
    + by erewrite fmap_insert_other.
  - apply vget_None in Hi. rewrite vset_None; [done|].
    by rewrite length_fmap.
Qed.

Lemma simulates_write_generations i x :
  simulates (T:=T) (write generations_ store_generations i x)
    (arrlist_slow.write_field (arrlist_slow.set_generation x) i).
Proof.
  intros s. unfold arrlist_slow.write_field, read, write, bind. simpl.
  destruct (vget _ i) as [n|] eqn:Hi.
  - pose proof (vget_lt _ _ _ Hi). apply vget_Some in Hi as [_ Hi].
    rewrite !vset_Some by (rewrite ?length_fmap; lia). simpl.
    unfold to_soa, store_generations. simpl. f_equal. f_equal.
    + by erewrite fmap_insert_other.
    + by erewrite fmap_insert_other.
    + by erewrite fmap_insert_other.
    + by rewrite list_fmap_insert.
  - apply vget_None in Hi. rewrite vset_None; [done|].
    by rewrite length_fmap.
Qed.

End Simulation.

Create HintDb sim discriminated.
#[export] Hint Resolve simulates_ret simulates_throw simulates_write_values
  simulates_write_next simulates_write_prev simulates_write_generations : sim.

(** One step of a simulation proof: the two computations have the same
    shape, statement by statement. *)
Ltac sim_step :=
  first
    [ solve [eauto with sim]
    | simple apply simulates_bind; [|intros ?]
    | simple apply simulates_if
    | simple apply simulates_read; intros ?; reflexivity
    | simple apply simulates_gets; intros ?; simpl; rewrite ?length_fmap;
      reflexivity
    | simple apply simulates_modify; intros ?; reflexivity ].

Section SimulationOps.
Context {T : Type} `{!Move T}.

Lemma simulates_allocate_node (v : T) :
  simulates (allocate_node v) (arrlist_slow.allocate_node v).
Proof.
  unfold allocate_node, arrlist_slow.allocate_node.
  apply simulates_bind; [sim_step|]. intros fl.
  destruct (back fl); repeat sim_step.
Qed.

Lemma simulates_release_node i :
  simulates (T:=T) (release_node i) (arrlist_slow.release_node i).
Proof. unfold release_node, arrlist_slow.release_node. repeat sim_step. Qed.

Lemma simulates_ensure_valid_handle h :
  simulates (T:=T) (ensure_valid_handle h) (arrlist_slow.ensure_valid_handle h).
Proof.
  unfold ensure_valid_handle, arrlist_slow.ensure_valid_handle.
  repeat sim_step.
Qed.

Lemma simulates_ensure_valid_node i :
  simulates (T:=T) (ensure_valid_node i) (arrlist_slow.ensure_valid_node i).
Proof.
  unfold ensure_valid_node, arrlist_slow.ensure_valid_node. repeat sim_step.
Qed.

Lemma simulates_incr_size :
  simulates (T:=T) incr_size arrlist_slow.incr_size.
Proof. unfold incr_size, arrlist_slow.incr_size. sim_step. Qed.

Lemma simulates_decr_size :
  simulates (T:=T) decr_size arrlist_slow.decr_size.
Proof. unfold decr_size, arrlist_slow.decr_size. sim_step. Qed.

End SimulationOps.

#[export] Hint Resolve simulates_allocate_node simulates_release_node
  simulates_ensure_valid_handle simulates_ensure_valid_node
  simulates_incr_size simulates_decr_size : sim.

Section SimulationInterface.
Context {T : Type} `{!Move T}.
Context (T_default : T).

Lemma simulates_emplace_front (v : T) :
  simulates (emplace_front v) (arrlist_slow.emplace_front v).
Proof. unfold emplace_front, arrlist_slow.emplace_front. repeat sim_step. Qed.

Lemma simulates_emplace_back (v : T) :
  simulates (emplace_back v) (arrlist_slow.emplace_back v).
Proof. unfold emplace_back, arrlist_slow.emplace_back. repeat sim_step. Qed.

Lemma simulates_emplace_after h (v : T) :
  simulates (emplace_after h v) (arrlist_slow.emplace_after h v).
Proof. unfold emplace_after, arrlist_slow.emplace_after. repeat sim_step. Qed.

Lemma simulates_pop_front :
  simulates (T:=T) pop_front arrlist_slow.pop_front.
Proof. unfold pop_front, arrlist_slow.pop_front. repeat sim_step. Qed.

Lemma simulates_erase_after h :
  simulates (T:=T) (erase_after h) (arrlist_slow.erase_after h).
Proof. unfold erase_after, arrlist_slow.erase_after. repeat sim_step. Qed.

Lemma simulates_erase h :
  simulates (T:=T) (erase h) (arrlist_slow.erase h).
Proof. unfold erase, arrlist_slow.erase. repeat sim_step. Qed.

Lemma simulates_for_each_from fuel i :
  simulates (T:=T) (for_each_from fuel i) (arrlist_slow.for_each_from fuel i).
Proof.
  revert i. induction fuel as [|fuel IH]; intros i; simpl.
  - by intros s.
  - repeat sim_step; apply IH.
Qed.

Lemma simulates_for_each fuel :
  simulates (T:=T) (for_each fuel) (arrlist_slow.for_each fuel).
Proof.
  unfold for_each, arrlist_slow.for_each. sim_step; [sim_step|].
  apply simulates_for_each_from.
Qed.

Lemma simulates_at i :
  simulates (T:=T) (at_ i) (arrlist_slow.at_ i).
Proof. unfold at_, arrlist_slow.at_. repeat sim_step. Qed.

Lemma simulates_exec fuel (o : op T) :
  simulates (exec fuel o) (arrlist_slow.exec fuel o).
Proof.
  destruct o; simpl; sim_step; try sim_step;
    unfold push_front, push_back, insert_after, arrlist_slow.push_front,
      arrlist_slow.push_back, arrlist_slow.insert_after;
    auto using simulates_emplace_front, simulates_emplace_back,
      simulates_emplace_after, simulates_erase, simulates_erase_after,
      simulates_pop_front, simulates_for_each.
Qed.

Lemma run_to_soa fuel (ops : list (op T)) s :
  run fuel ops (to_soa s) = arrlist_slow.run fuel ops s.
Proof.
  revert s. induction ops as [|o ops IH]; intros s; simpl; [done|].
  rewrite simulates_exec.
  destruct (arrlist_slow.exec fuel o s); simpl; by rewrite ?IH.
Qed.

Lemma make_to_soa c :
  make T_default c = sum_map id to_soa (arrlist_slow.make T_default c).
Proof.
  unfold make, arrlist_slow.make. case_decide; [done|]. simpl.
  unfold to_soa. simpl. by rewrite !fmap_replicate.
Qed.

End SimulationInterface.

(** C2. Built with the same capacity and given the same sequence of calls,
    the row layout and the column layout return the same handles, throw the
    same exceptions at the same calls, report the same [size()] and make the
    same calls from [for_each], at every call of the sequence. *)
Theorem layouts_agree {T : Type} `{!Move T} (T_default : T) (c : nat) (fuel : nat)
    (ops : list (op T)) :
  arrlist_slow.run_new T_default c fuel ops
  = arrlist_fast.run_new T_default c fuel ops.
Proof.
  unfold arrlist_slow.run_new, run_new. rewrite make_to_soa.
  destruct (arrlist_slow.make T_default c); simpl; [done|].
  by rewrite run_to_soa.
Qed.

(** ** Where exceptions are thrown *)

Section Atomicity.
Context {St : Type}.

Lemma nothrow_atomic {A} (m : M St A) : nothrow m → atomic m.
Proof. intros Hm s e s' H. by destruct (Hm s e s'). Qed.

Lemma atomic_throw {A} e : atomic (St:=St) (A:=A) (throw e).
Proof. by intros s e' s' [= _ <-]. Qed.

Lemma atomic_bind_readonly {A B} (m : M St A) (k : A → M St B) :
  readonly m → (∀ a, atomic (k a)) → atomic (bind m k).
Proof.
  intros Hm Hk s e s'. unfold bind. specialize (Hm s).
  destruct (m s); try done.
  - subst. apply Hk.
  - by intros [= _ <-].
Qed.

Lemma atomic_bind_nothrow {A B} (m : M St A) (k : A → M St B) :
  atomic m → (∀ a, nothrow (k a)) → atomic (bind m k).
Proof.
  intros Hm Hk s e s'. unfold bind. specialize (Hm s).
  destruct (m s) as [a s1|e1 s1| |]; try done.
  - intros H. by destruct (Hk a s1 e s').
  - intros [= <- <-]. eauto.
Qed.

Lemma atomic_if {A} (P : Prop) `{!Decision P} (m m' : M St A) :
  atomic m → atomic m' → atomic (if decide P then m else m').
Proof. by case_decide. Qed.

Lemma nothrow_ret {A} (a : A) : nothrow (St:=St) (ret a).
Proof. by intros s e s'. Qed.

Lemma nothrow_gets {A} (f : St → A) : nothrow (gets f).
Proof. by intros s e s'. Qed.

Lemma nothrow_modify (f : St → St) : nothrow (modify f).
Proof. by intros s e s'. Qed.

Lemma nothrow_read {A} (field : St → list A) i : nothrow (read field i).
Proof. intros s e s'. unfold read. by destruct (vget _ _). Qed.

Lemma nothrow_write {A} (field : St → list A) store i x :
  nothrow (write field store i x).
Proof. intros s e s'. unfold write. by destruct (vset _ _ _). Qed.

Lemma nothrow_bind {A B} (m : M St A) (k : A → M St B) :
  nothrow m → (∀ a, nothrow (k a)) → nothrow (bind m k).
Proof.
  intros Hm Hk s e s'. unfold bind. specialize (Hm s).
  destruct (m s) as [a s1|e1 s1| |]; try done.
  - apply Hk.
  - by destruct (Hm e1 s1).
Qed.

Lemma nothrow_if {A} (P : Prop) `{!Decision P} (m m' : M St A) :
  nothrow m → nothrow m' → nothrow (if decide P then m else m').
Proof. by case_decide. Qed.

Lemma readonly_ret {A} (a : A) : readonly (St:=St) (ret a).
Proof. by intros s. Qed.

Lemma readonly_throw {A} e : readonly (St:=St) (A:=A) (throw e).
Proof. by intros s. Qed.

Lemma readonly_gets {A} (f : St → A) : readonly (gets f).
Proof. by intros s. Qed.

Lemma readonly_read {A} (field : St → list A) i : readonly (read field i).
Proof. intros s. unfold read. by destruct (vget _ _). Qed.

Lemma readonly_bind {A B} (m : M St A) (k : A → M St B) :
  readonly m → (∀ a, readonly (k a)) → readonly (bind m k).
Proof.
  intros Hm Hk s. unfold bind. specialize (Hm s).
  destruct (m s) as [a s1|e1 s1| |]; try done.
  subst. apply Hk.
Qed.

Lemma readonly_if {A} (P : Prop) `{!Decision P} (m m' : M St A) :
  readonly m → readonly m' → readonly (if decide P then m else m').
Proof. by case_decide. Qed.

Lemma readonly_Ok {A} (m : M St A) s a s' :
  readonly m → m s = Ok a s' → s' = s.
Proof. intros Hm H. specialize (Hm s). by rewrite H in Hm. Qed.

Lemma readonly_Throw {A} (m : M St A) s e s' :
  readonly m → m s = Throw e s' → s' = s.
Proof. intros Hm H. specialize (Hm s). by rewrite H in Hm. Qed.

End Atomicity.

Create HintDb flow discriminated.
#[export] Hint Resolve nothrow_ret nothrow_gets nothrow_modify nothrow_read
  nothrow_write readonly_ret readonly_throw readonly_gets readonly_read
  atomic_throw : flow.

(** The statements of a member function, one by one: none throws, or none
    writes. *)
Ltac nothrow_step :=
  first
    [ solve [eauto with flow]
    | simple apply nothrow_bind; [|intros ?]
    | simple apply nothrow_if ].

Ltac readonly_step :=
  first
    [ solve [eauto with flow]
    | simple apply readonly_bind; [|intros ?]
    | simple apply readonly_if ].

Section AtomicityFast.
Context {T : Type} `{!Move T}.

Lemma nothrow_release_node i : nothrow (release_node (T:=T) i).
Proof. unfold release_node. repeat nothrow_step. Qed.

Lemma nothrow_incr_size : nothrow (incr_size (T:=T)).
Proof. apply nothrow_modify. Qed.

Lemma nothrow_decr_size : nothrow (decr_size (T:=T)).
Proof. apply nothrow_modify. Qed.

Lemma readonly_ensure_valid_handle h :
  readonly (ensure_valid_handle (T:=T) h).
Proof. unfold ensure_valid_handle. repeat readonly_step. Qed.

Lemma readonly_ensure_valid_node i : readonly (ensure_valid_node (T:=T) i).
Proof. unfold ensure_valid_node. repeat readonly_step. Qed.

Lemma atomic_allocate_node (v : T) : atomic (allocate_node v).
Proof.
  unfold allocate_node. apply atomic_bind_readonly; [eauto with flow|].
  intros fl. destruct (back fl); [|apply atomic_throw].
  apply nothrow_atomic. repeat nothrow_step.
Qed.

End AtomicityFast.

#[export] Hint Resolve nothrow_release_node nothrow_incr_size
  nothrow_decr_size readonly_ensure_valid_handle readonly_ensure_valid_node
  atomic_allocate_node : flow.

Section AtomicityInterface.
Context {T : Type} `{!Move T}.

Lemma atomic_emplace_front (v : T) : atomic (emplace_front v).
Proof.
  unfold emplace_front. apply atomic_bind_nothrow; [eauto with flow|].
  intros h. repeat nothrow_step.
Qed.

Lemma atomic_emplace_back (v : T) : atomic (emplace_back v).
Proof.
  unfold emplace_back. apply atomic_bind_nothrow; [eauto with flow|].
  intros h. repeat nothrow_step.
Qed.

Lemma atomic_emplace_after h (v : T) : atomic (emplace_after h v).
Proof.
  unfold emplace_after. apply atomic_bind_readonly; [eauto with flow|].
  intros _. apply atomic_bind_nothrow; [eauto with flow|].
  intros h'. repeat nothrow_step.
Qed.

Lemma atomic_pop_front : atomic (pop_front (T:=T)).
Proof.
  unfold pop_front. apply atomic_bind_readonly; [eauto with flow|].
  intros hd. apply atomic_if; [apply atomic_throw|].
  apply nothrow_atomic. repeat nothrow_step.
Qed.

Lemma atomic_erase_after h : atomic (erase_after (T:=T) h).
Proof.
  unfold erase_after. apply atomic_bind_readonly; [eauto with flow|].
  intros _. apply atomic_bind_readonly; [eauto with flow|].
  intros target. apply atomic_if; [apply atomic_throw|].
  apply nothrow_atomic. repeat nothrow_step.
Qed.

Lemma atomic_erase h : atomic (erase (T:=T) h).
Proof.
  unfold erase. apply atomic_bind_readonly; [eauto with flow|].
  intros _. apply nothrow_atomic. repeat nothrow_step.
Qed.

Lemma readonly_for_each_from fuel i s :
  match for_each_from (T:=T) fuel i s with
  | Ok _ s' => s' = s
  | Throw _ _ => False
  | _ => True
  end.
Proof.
  revert i. induction fuel as [|fuel IH]; intros i; simpl; [done|].
  case_decide; [|done]. unfold bind, read, ret.
  destruct (vget (values_ s) i); [|done].
  destruct (vget (next_ s) i) as [nx|]; [|done].
  specialize (IH nx). by destruct (for_each_from fuel nx s).
Qed.

Lemma readonly_for_each fuel : readonly (for_each (T:=T) fuel).
Proof.
  intros s. unfold for_each, bind, gets.
  pose proof (readonly_for_each_from fuel (head_ s) s).
  by destruct (for_each_from _ _ _).
Qed.

Lemma atomic_exec fuel (o : op T) : atomic (exec fuel o).
Proof.
  destruct o; simpl; unfold push_front, push_back, insert_after.
  - apply atomic_bind_nothrow; [apply atomic_emplace_front|eauto with flow].
  - apply atomic_bind_nothrow; [apply atomic_emplace_back|eauto with flow].
  - apply atomic_bind_nothrow; [apply atomic_emplace_after|eauto with flow].
  - apply atomic_bind_nothrow; [apply atomic_erase|eauto with flow].
  - apply atomic_bind_nothrow; [apply atomic_erase_after|eauto with flow].
  - apply atomic_bind_nothrow; [apply atomic_pop_front|eauto with flow].
  - apply atomic_bind_readonly; [apply readonly_for_each|].
    intros l. apply nothrow_atomic. eauto with flow.
  - apply nothrow_atomic. repeat nothrow_step.
Qed.

(** The columns determine the rows. *)
Lemma to_soa_inj (s1 s2 : arrlist_slow.ArrayLinkedList T) :
  to_soa s1 = to_soa s2 → s1 = s2.
Proof.
  destruct s1 as [n1 f1 h1 t1 z1], s2 as [n2 f2 h2 t2 z2].
  unfold to_soa. simpl. intros [= Hv Hn Hp Hg -> -> -> ->].
  f_equal. revert n2 Hv Hn Hp Hg.
  induction n1 as [|[] n1 IH]; intros [|[] n2]; simpl; try done.
  intros [= -> ?] [= -> ?] [= -> ?] [= -> ?]. f_equal. by apply IH.
Qed.

Lemma atomic_exec_slow fuel (o : op T) : atomic (arrlist_slow.exec fuel o).
Proof.
  intros s e s' H. apply to_soa_inj.
  apply (atomic_exec fuel o (to_soa s) e). by rewrite simulates_exec, H.
Qed.

End AtomicityInterface.

(** C5. A call that throws leaves the object as it was before the call, in
    either layout; the constructor called with capacity zero throws
    [InvalidCapacity] and builds no object. *)
Theorem failed_call_is_noop {T : Type} `{!Move T} (T_default : T) :
  make T_default 0 = inl InvalidCapacity ∧
  arrlist_slow.make T_default 0 = inl InvalidCapacity ∧
  (∀ fuel (o : op T) s e s', exec fuel o s = Throw e s' → s' = s) ∧
  (∀ fuel (o : op T) s e s',
     arrlist_slow.exec fuel o s = Throw e s' → s' = s).
Proof.
  split_and!; [done|done|..].
  - intros fuel o s e s'. apply atomic_exec.
  - intros fuel o s e s'. apply atomic_exec_slow.
Qed.

(** ** Running the member functions *)

Lemma back_snoc {A} (l : list A) x : back (l ++ [x]) = Some x.
Proof. apply last_snoc. Qed.

Lemma pop_back_snoc {A} (l : list A) x : pop_back (l ++ [x]) = l.
Proof. apply removelast_last. Qed.

Lemma back_Some {A} (l : list A) x : back l = Some x → l = pop_back l ++ [x].
Proof.
  unfold back. rewrite last_Some. intros [l' ->]. by rewrite pop_back_snoc.
Qed.

Lemma back_None {A} (l : list A) : back l = None ↔ l = [].
Proof. apply last_None. Qed.

Lemma Forall_insert_vec {A} (P : A → Prop) (v : list A) k x :
  Forall P v → P x → Forall P (<[k := x]> v).
Proof.
  intros Hv Hx. destruct (decide (k < length v)%nat).
  - by apply Forall_insert.
  - rewrite list_insert_ge by lia. done.
Qed.

Lemma Forall_vget {A} (P : A → Prop) (v : list A) i x :
  Forall P v → vget v i = Some x → P x.
Proof.
  intros Hv [_ Hi]%vget_Some. by eapply Forall_lookup_1.
Qed.

(** One statement of a member function run on an object whose vectors are
    known: a read or a write inside its vector, a test that is decided. *)
Ltac run_step :=
  match goal with
  | |- context [vget (<[Z.to_nat ?i := ?x]> ?v) ?i] =>
      rewrite (vget_insert_eq v i x) by (rewrite ?length_insert; lia)
  | H : vget ?v ?i = Some _ |- context [vget ?v ?i] => rewrite H
  | |- context [vset ?v ?i ?x] =>
      rewrite (vset_Some v i x) by (rewrite ?length_insert; lia)
  | |- context [back (?l ++ [?x])] => rewrite back_snoc
  | |- context [pop_back (?l ++ [?x])] => rewrite pop_back_snoc
  | |- context [decide ?P] => destruct (decide P); try lia
  end; simpl.

Ltac unfold_slots :=
  unfold is_link in *; unfold is_slot, kNull in *.

Ltac run_unfold :=
  unfold emplace_front, emplace_back, emplace_after, pop_front, erase_after,
    erase, allocate_node, release_node, ensure_valid_handle,
    ensure_valid_node, incr_size, decr_size, bind, gets, modify, read, write,
    ret, throw, push_back_vec; simpl.

Section Running.
Context {T : Type} `{!Move T}.
Implicit Types (s : ArrayLinkedList T) (h : NodeHandle) (i : Z) (l : list Z).

Lemma validates_iff s h :
  validates s h ↔
  0 ≤ Handle.index h < Z.of_nat (length (values_ s)) ∧
  vget (generations_ s) (Handle.index h) = Some (Handle.generation h).
Proof.
  unfold validates. run_unfold.
  destruct (decide (Handle.index h < 0)); [split; [done|lia]|].
  destruct (decide (Handle.index h >= _)); [split; [done|lia]|].
  destruct (vget (generations_ s) (Handle.index h)) as [g|]; simpl.
  - destruct (decide (g ≠ Handle.generation h)).
    + split; [done|]. intros [_ [= ?]]. done.
    + split; [|done]. intros _. split; [lia|]. f_equal.
      by destruct (decide (g = Handle.generation h)).
  - split; [done|]. by intros [_ ?].
Qed.

Lemma ensure_valid_handle_invalid s h :
  length (generations_ s) = length (values_ s) →
  ¬ validates s h → ensure_valid_handle h s = Throw InvalidHandle s.
Proof.
  intros Hlen. rewrite validates_iff. run_unfold. intros Hv.
  destruct (decide (Handle.index h < 0)); [done|].
  destruct (decide (Handle.index h >= _)); [done|].
  destruct (vget_is_Some (generations_ s) (Handle.index h)) as [g Hg]; [lia|].
  rewrite Hg. simpl. destruct (decide (g ≠ Handle.generation h)); [done|].
  destruct Hv. split; [lia|]. rewrite Hg. f_equal.
  by destruct (decide (g = Handle.generation h)).
Qed.

Lemma shape_free_slot c s fl idx :
  shape c s → free_list_ s = fl ++ [idx] → is_slot c idx.
Proof.
  intros Hs Hfl. pose proof (shape_free_list _ _ Hs) as H.
  rewrite Hfl, Forall_app, Forall_singleton in H. tauto.
Qed.

Lemma shape_free_rest c s fl idx :
  shape c s → free_list_ s = fl ++ [idx] → Forall (is_slot c) fl.
Proof.
  intros Hs Hfl. pose proof (shape_free_list _ _ Hs) as H.
  rewrite Hfl, Forall_app in H. tauto.
Qed.

Lemma shape_next_link c s i x :
  shape c s → vget (next_ s) i = Some x → is_link c x.
Proof. intros Hs. apply Forall_vget, Hs. Qed.

Lemma shape_prev_link c s i x :
  shape c s → vget (prev_ s) i = Some x → is_link c x.
Proof. intros Hs. apply Forall_vget, Hs. Qed.

Lemma allocate_node_Throw (v : T) s :
  free_list_ s = [] → allocate_node v s = Throw CapacityExhausted s.
Proof. intros Hfl. run_unfold. by rewrite Hfl. Qed.

Lemma emplace_front_Throw (v : T) s :
  free_list_ s = [] → emplace_front v s = Throw CapacityExhausted s.
Proof.
  intros Hfl. unfold emplace_front, bind. by rewrite allocate_node_Throw.
Qed.

Lemma emplace_back_Throw (v : T) s :
  free_list_ s = [] → emplace_back v s = Throw CapacityExhausted s.
Proof.
  intros Hfl. unfold emplace_back, bind. by rewrite allocate_node_Throw.
Qed.

Lemma emplace_front_Ok c s (v : T) fl idx g :
  shape c s → free_list_ s = fl ++ [idx] →
  vget (generations_ s) idx = Some g →
  emplace_front v s = Ok (Handle.mk idx (wrap32 (g + 1)))
    {| values_ := <[Z.to_nat idx := v]> (values_ s);
       next_ := <[Z.to_nat idx := head_ s]> (next_ s);
       prev_ := (if decide (head_ s ≠ kNull)
                 then <[Z.to_nat (head_ s) := idx]> else id)
                  (<[Z.to_nat idx := kNull]> (prev_ s));
       generations_ := <[Z.to_nat idx := wrap32 (g + 1)]> (generations_ s);
       free_list_ := fl;
       head_ := idx;
       tail_ := if decide (head_ s ≠ kNull) then tail_ s else idx;
       size_ := wrap64 (size_ s + 1) |}.
Proof.
  intros Hs Hfl Hg. pose proof (shape_free_slot _ _ _ _ Hs Hfl) as Hidx.
  destruct Hs as [???? _ _ _ Hhd _].
  destruct s as [vs nx pv gs fl' hd tl sz]; simpl in *. subst fl'.
  run_unfold. unfold_slots. repeat run_step;
    by rewrite ?list_insert_insert_eq.
Qed.

Lemma emplace_back_Ok c s (v : T) fl idx g :
  shape c s → free_list_ s = fl ++ [idx] →
  vget (generations_ s) idx = Some g →
  emplace_back v s = Ok (Handle.mk idx (wrap32 (g + 1)))
    {| values_ := <[Z.to_nat idx := v]> (values_ s);
       next_ := (if decide (tail_ s ≠ kNull)
                 then <[Z.to_nat (tail_ s) := idx]> else id)
                  (<[Z.to_nat idx := kNull]> (next_ s));
       prev_ := <[Z.to_nat idx := tail_ s]> (prev_ s);
       generations_ := <[Z.to_nat idx := wrap32 (g + 1)]> (generations_ s);
       free_list_ := fl;
       head_ := if decide (tail_ s ≠ kNull) then head_ s else idx;
       tail_ := idx;
       size_ := wrap64 (size_ s + 1) |}.
Proof.
  intros Hs Hfl Hg. pose proof (shape_free_slot _ _ _ _ Hs Hfl) as Hidx.
  destruct Hs as [???? _ _ _ _ Htl].
  destruct s as [vs nx pv gs fl' hd tl sz]; simpl in *. subst fl'.
  run_unfold. unfold_slots. repeat run_step;
    by rewrite ?list_insert_insert_eq.
Qed.

Lemma validates_slot c s h :
  shape c s → validates s h → is_slot c (Handle.index h).
Proof.
  intros Hs [Hi _]%validates_iff. unfold is_slot.
  by rewrite <-(shape_values _ _ Hs).
Qed.

Lemma emplace_after_invalid s h (v : T) :
  length (generations_ s) = length (values_ s) →
  ¬ validates s h → emplace_after h v s = Throw InvalidHandle s.
Proof.
  intros Hlen Hv. unfold emplace_after, bind.
  by rewrite ensure_valid_handle_invalid.
Qed.

Lemma emplace_after_Throw s h (v : T) :
  validates s h → free_list_ s = [] →
  emplace_after h v s = Throw CapacityExhausted s.
Proof.
  intros Hv Hfl. unfold emplace_after. unfold bind at 1. rewrite Hv.
  unfold bind. by rewrite allocate_node_Throw.
Qed.

Lemma emplace_after_Ok c s h (v : T) fl idx g old_next :
  shape c s → validates s h → free_list_ s = fl ++ [idx] →
  vget (generations_ s) idx = Some g →
  vget (<[Z.to_nat idx := kNull]> (next_ s)) (Handle.index h) = Some old_next →
  emplace_after h v s = Ok (Handle.mk idx (wrap32 (g + 1)))
    {| values_ := <[Z.to_nat idx := v]> (values_ s);
       next_ := <[Z.to_nat (Handle.index h) := idx]>
                  (<[Z.to_nat idx := old_next]> (next_ s));
       prev_ := (if decide (old_next ≠ kNull)
                 then <[Z.to_nat old_next := idx]> else id)
                  (<[Z.to_nat idx := Handle.index h]> (prev_ s));
       generations_ := <[Z.to_nat idx := wrap32 (g + 1)]> (generations_ s);
       free_list_ := fl;
       head_ := head_ s;
       tail_ := if decide (old_next ≠ kNull) then tail_ s else idx;
       size_ := wrap64 (size_ s + 1) |}.
Proof.
  intros Hs Hv Hfl Hg Hold.
  pose proof (shape_free_slot _ _ _ _ Hs Hfl) as Hidx.
  pose proof (validates_slot _ _ _ Hs Hv) as Hnode.
  assert (is_link c old_next) as Hlink.
  { eapply Forall_vget; [|done].
    apply Forall_insert_vec; [apply Hs | by left]. }
  unfold emplace_after. unfold bind at 1. rewrite Hv.
  destruct Hs as [???? _ _ _ _ _].
  destruct s as [vs nx pv gs fl' hd tl sz]; simpl in *. subst fl'.
  run_unfold. unfold_slots. repeat run_step;
    by rewrite ?list_insert_insert_eq.
Qed.

Lemma pop_front_Throw s :
  head_ s = kNull → pop_front s = Throw Empty s.
Proof. intros Hhd. run_unfold. by rewrite decide_True. Qed.

Lemma pop_front_Ok c s nx (v : T) :
  shape c s → head_ s ≠ kNull →
  vget (next_ s) (head_ s) = Some nx →
  vget (values_ s) (head_ s) = Some v →
  pop_front s = Ok v
    {| values_ := <[Z.to_nat (head_ s) := moved_from v]> (values_ s);
       next_ := <[Z.to_nat (head_ s) := kNull]> (next_ s);
       prev_ := <[Z.to_nat (head_ s) := kNull]>
                  ((if decide (nx ≠ kNull)
                    then <[Z.to_nat nx := kNull]> else id) (prev_ s));
       generations_ := generations_ s;
       free_list_ := free_list_ s ++ [head_ s];
       head_ := nx;
       tail_ := if decide (nx ≠ kNull) then tail_ s else kNull;
       size_ := wrap64 (size_ s - 1) |}.
Proof.
  intros Hs Hne Hnx Hval.
  pose proof (shape_next_link _ _ _ _ Hs Hnx) as Hlink.
  destruct Hs as [???? _ _ _ Hhd _].
  destruct s as [vs nxs pv gs fl hd tl sz]; simpl in *.
  run_unfold. unfold_slots. by repeat run_step.
Qed.

Lemma erase_after_invalid s h :
  length (generations_ s) = length (values_ s) →
  ¬ validates s h → erase_after h s = Throw InvalidHandle s.
Proof.
  intros Hlen Hv. unfold erase_after, bind.
  by rewrite ensure_valid_handle_invalid.
Qed.

Lemma erase_after_Throw s h :
  validates s h → vget (next_ s) (Handle.index h) = Some kNull →
  erase_after h s = Throw NoSuccessor s.
Proof.
  intros Hv Hnx. unfold erase_after. unfold bind at 1. rewrite Hv.
  unfold bind, read. rewrite Hnx. by rewrite decide_True.
Qed.

Lemma erase_after_Ok c s h target new_next :
  shape c s → validates s h →
  vget (next_ s) (Handle.index h) = Some target → target ≠ kNull →
  vget (next_ s) target = Some new_next →
  erase_after h s = Ok tt
    {| values_ := values_ s;
       next_ := <[Z.to_nat target := kNull]>
                  (<[Z.to_nat (Handle.index h) := new_next]> (next_ s));
       prev_ := <[Z.to_nat target := kNull]>
                  ((if decide (new_next ≠ kNull)
                    then <[Z.to_nat new_next := Handle.index h]> else id)
                     (prev_ s));
       generations_ := generations_ s;
       free_list_ := free_list_ s ++ [target];
       head_ := head_ s;
       tail_ := if decide (new_next ≠ kNull) then tail_ s
                else Handle.index h;
       size_ := wrap64 (size_ s - 1) |}.
Proof.
  intros Hs Hv Htarget Hne Hnew.
  pose proof (validates_slot _ _ _ Hs Hv) as Hnode.
  pose proof (shape_next_link _ _ _ _ Hs Htarget) as Hlink.
  pose proof (shape_next_link _ _ _ _ Hs Hnew) as Hlink'.
  unfold erase_after. unfold bind at 1. rewrite Hv.
  destruct Hs as [???? _ _ _ _ _].
  destruct s as [vs nxs pv gs fl hd tl sz]; simpl in *.
  run_unfold. unfold_slots. by repeat run_step.
Qed.

Lemma erase_invalid s h :
  length (generations_ s) = length (values_ s) →
  ¬ validates s h → erase h s = Throw InvalidHandle s.
Proof.
  intros Hlen Hv. unfold erase, bind.
  by rewrite ensure_valid_handle_invalid.
Qed.

Lemma erase_Ok c s h p n :
  shape c s → validates s h →
  vget (prev_ s) (Handle.index h) = Some p →
  vget (next_ s) (Handle.index h) = Some n →
  erase h s = Ok tt
    {| values_ := values_ s;
       next_ := <[Z.to_nat (Handle.index h) := kNull]>
                  ((if decide (p ≠ kNull)
                    then <[Z.to_nat p := n]> else id) (next_ s));
       prev_ := <[Z.to_nat (Handle.index h) := kNull]>
                  ((if decide (n ≠ kNull)
                    then <[Z.to_nat n := p]> else id) (prev_ s));
       generations_ := generations_ s;
       free_list_ := free_list_ s ++ [Handle.index h];
       head_ := if decide (p ≠ kNull) then head_ s else n;
       tail_ := if decide (n ≠ kNull) then tail_ s else p;
       size_ := wrap64 (size_ s - 1) |}.
Proof.
  intros Hs Hv Hp Hn.
  pose proof (validates_slot _ _ _ Hs Hv) as Hnode.
  pose proof (shape_prev_link _ _ _ _ Hs Hp) as Hlp.
  pose proof (shape_next_link _ _ _ _ Hs Hn) as Hln.
  unfold erase. unfold bind at 1. rewrite Hv.
  destruct Hs as [???? _ _ _ _ _].
  destruct s as [vs nxs pv gs fl hd tl sz]; simpl in *.
  run_unfold. unfold_slots. by repeat run_step.
Qed.

End Running.

(** ** The shape of every object *)

Lemma is_link_kNull c : is_link c kNull.
Proof. by left. Qed.

Lemma is_slot_link c i : is_slot c i → is_link c i.
Proof. by right. Qed.

Lemma is_link_slot c i : is_link c i → i ≠ kNull → is_slot c i.
Proof. by intros [?|?]. Qed.

Create HintDb shape discriminated.
#[export] Hint Resolve is_link_kNull is_slot_link Forall_insert_vec : shape.

(** The shape of an object given by its data members. *)
Ltac shape_solve :=
  constructor; simpl; repeat case_decide; simpl;
  rewrite ?length_insert; eauto 10 with shape.

Section Shape.
Context {T : Type} `{!Move T}.
Context (T_default : T).
Implicit Types (s : ArrayLinkedList T) (h : NodeHandle) (i : Z) (l : list Z).

Lemma to_int_small z : 0 ≤ z ≤ INT_MAX → to_int z = z.
Proof.
  unfold to_int, INT_MAX. intros ?.
  rewrite Z.mod_small by lia. lia.
Qed.

Lemma initial_free_list_eq (c : nat) :
  Z.of_nat c ≤ INT_MAX + 1 →
  initial_free_list c = Z.of_nat <$> rev (seq 0 c).
Proof.
  induction c as [|c IH]; intros Hc; [done|].
  rewrite seq_S, rev_app_distr. simpl.
  rewrite to_int_small by lia. f_equal. apply IH. lia.
Qed.

Lemma initial_free_list_elem (c : nat) i :
  Z.of_nat c ≤ INT_MAX + 1 →
  i ∈ initial_free_list c ↔ is_slot c i.
Proof.
  intros Hc. rewrite initial_free_list_eq by done.
  rewrite list_elem_of_fmap. unfold is_slot. split.
  - intros (k & -> & Hk). rewrite list_elem_of_In, <-in_rev, in_seq in Hk. lia.
  - intros Hi. exists (Z.to_nat i). split; [lia|].
    rewrite list_elem_of_In, <-in_rev, in_seq. lia.
Qed.

Lemma make_shape c s :
  Z.of_nat c ≤ INT_MAX + 1 → make T_default c = inr s → shape c s.
Proof.
  intros Hc. unfold make. case_decide; [done|]. intros [= <-].
  constructor; simpl; rewrite ?length_replicate; try done.
  - apply Forall_forall. intros i. by rewrite initial_free_list_elem.
  - apply Forall_replicate. by left.
  - apply Forall_replicate. by left.
  - by left.
  - by left.
Qed.

End Shape.

Lemma snoc_cases {A} (l : list A) : l = [] ∨ ∃ l' x, l = l' ++ [x].
Proof.
  destruct (back l) as [x|] eqn:Hl.
  - right. eexists _, _. by apply back_Some.
  - left. by apply back_None.
Qed.

Section ShapePreserved.
Context {T : Type} `{!Move T}.
Implicit Types (s : ArrayLinkedList T) (h : NodeHandle) (i : Z) (l : list Z).

Lemma validates_dec s h : validates s h ∨ ¬ validates s h.
Proof.
  rewrite validates_iff.
  destruct (decide (0 ≤ Handle.index h < Z.of_nat (length (values_ s))));
    [|tauto].
  destruct (decide (vget (generations_ s) (Handle.index h)
                    = Some (Handle.generation h))); tauto.
Qed.

Lemma shape_lengths c s :
  shape c s → length (generations_ s) = length (values_ s).
Proof. intros Hs. by rewrite (shape_values _ _ Hs), (shape_generations _ _ Hs). Qed.

Lemma shape_generation c s i :
  shape c s → is_slot c i → is_Some (generation_of s i).
Proof.
  intros Hs Hi. apply vget_is_Some. by rewrite (shape_generations _ _ Hs).
Qed.

Lemma shape_next_Some c s i :
  shape c s → is_slot c i → ∃ x, vget (next_ s) i = Some x ∧ is_link c x.
Proof.
  intros Hs Hi. destruct (vget_is_Some (next_ s) i) as [x Hx].
  { by rewrite (shape_next _ _ Hs). }
  eauto using shape_next_link.
Qed.

Lemma shape_prev_Some c s i :
  shape c s → is_slot c i → ∃ x, vget (prev_ s) i = Some x ∧ is_link c x.
Proof.
  intros Hs Hi. destruct (vget_is_Some (prev_ s) i) as [x Hx].
  { by rewrite (shape_prev _ _ Hs). }
  eauto using shape_prev_link.
Qed.

Lemma shape_value_Some c s i :
  shape c s → is_slot c i → is_Some (vget (values_ s) i).
Proof. intros Hs Hi. apply vget_is_Some. by rewrite (shape_values _ _ Hs). Qed.

Lemma emplace_front_shape c s (v : T) :
  shape c s →
  match emplace_front v s with
  | Ok h s' => shape c s' ∧ effect (PushFront v) (RHandle h) s s'
  | Throw e s' => s' = s ∧ thrown (PushFront v) e s
  | _ => False
  end.
Proof.
  intros Hs. destruct (snoc_cases (free_list_ s)) as [Hfl|(fl & idx & Hfl)].
  { by rewrite emplace_front_Throw. }
  pose proof (shape_free_slot _ _ _ _ Hs Hfl) as Hidx.
  destruct (shape_generation _ _ _ Hs Hidx) as [g Hg].
  erewrite emplace_front_Ok by done. split.
  - pose proof (shape_free_rest _ _ _ _ Hs Hfl).
    pose proof (is_link_slot _ _ (shape_head _ _ Hs)). destruct Hs.
    shape_solve.
  - exists idx, g. by repeat split.
Qed.

Lemma emplace_back_shape c s (v : T) :
  shape c s →
  match emplace_back v s with
  | Ok h s' => shape c s' ∧ effect (PushBack v) (RHandle h) s s'
  | Throw e s' => s' = s ∧ thrown (PushBack v) e s
  | _ => False
  end.
Proof.
  intros Hs. destruct (snoc_cases (free_list_ s)) as [Hfl|(fl & idx & Hfl)].
  { by rewrite emplace_back_Throw. }
  pose proof (shape_free_slot _ _ _ _ Hs Hfl) as Hidx.
  destruct (shape_generation _ _ _ Hs Hidx) as [g Hg].
  erewrite emplace_back_Ok by done. split.
  - pose proof (shape_free_rest _ _ _ _ Hs Hfl).
    pose proof (is_link_slot _ _ (shape_tail _ _ Hs)). destruct Hs.
    shape_solve.
  - exists idx, g. by repeat split.
Qed.

Lemma emplace_after_shape c s h (v : T) :
  shape c s →
  match emplace_after h v s with
  | Ok h' s' => shape c s' ∧ effect (InsertAfter h v) (RHandle h') s s'
  | Throw e s' => s' = s ∧ thrown (InsertAfter h v) e s
  | _ => False
  end.
Proof.
  intros Hs. destruct (validates_dec s h) as [Hv|Hv]; simpl.
  2: { rewrite emplace_after_invalid by eauto using shape_lengths. tauto. }
  destruct (snoc_cases (free_list_ s)) as [Hfl|(fl & idx & Hfl)].
  { rewrite emplace_after_Throw by done. tauto. }
  pose proof (shape_free_slot _ _ _ _ Hs Hfl) as Hidx.
  pose proof (validates_slot _ _ _ Hs Hv) as Hnode.
  destruct (shape_generation _ _ _ Hs Hidx) as [g Hg].
  destruct (vget_is_Some (<[Z.to_nat idx := kNull]> (next_ s))
              (Handle.index h)) as [old_next Hold].
  { by rewrite length_insert, (shape_next _ _ Hs). }
  assert (is_link c old_next) as Hlink.
  { eapply Forall_vget; [|done].
    apply Forall_insert_vec; [apply Hs | by left]. }
  erewrite emplace_after_Ok by done. split.
  - pose proof (shape_free_rest _ _ _ _ Hs Hfl).
    pose proof (is_link_slot _ _ Hlink). destruct Hs.
    shape_solve.
  - exists idx, g. by repeat split.
Qed.

Lemma pop_front_shape c s :
  shape c s →
  match pop_front s with
  | Ok v s' => shape c s' ∧ effect PopFront (RValue v) s s'
  | Throw e s' => s' = s ∧ thrown (T:=T) PopFront e s
  | _ => False
  end.
Proof.
  intros Hs. destruct (decide (head_ s = kNull)) as [Hhd|Hhd].
  { by rewrite pop_front_Throw. }
  pose proof (is_link_slot _ _ (shape_head _ _ Hs) Hhd) as Hslot.
  destruct (shape_next_Some _ _ _ Hs Hslot) as (nx & Hnx & Hlink).
  destruct (shape_value_Some _ _ _ Hs Hslot) as [v Hv].
  erewrite pop_front_Ok by done. split.
  - pose proof (is_link_slot _ _ Hlink). destruct Hs.
    shape_solve; apply Forall_app; eauto.
  - exists (head_ s). split_and!; [done..| |done]. by exists v.
Qed.

Lemma erase_after_shape c s h :
  shape c s →
  match erase_after h s with
  | Ok _ s' => shape c s' ∧ effect (T:=T) (EraseAfter h) RUnit s s'
  | Throw e s' => s' = s ∧ thrown (T:=T) (EraseAfter h) e s
  | _ => False
  end.
Proof.
  intros Hs. destruct (validates_dec s h) as [Hv|Hv]; simpl.
  2: { rewrite erase_after_invalid by eauto using shape_lengths. tauto. }
  pose proof (validates_slot _ _ _ Hs Hv) as Hnode.
  destruct (shape_next_Some _ _ _ Hs Hnode) as (target & Htarget & Hlink).
  destruct (decide (target = kNull)) as [->|Hne].
  { rewrite erase_after_Throw by done. tauto. }
  pose proof (is_link_slot _ _ Hlink Hne) as Hslot.
  destruct (shape_next_Some _ _ _ Hs Hslot) as (new_next & Hnew & Hlink').
  erewrite erase_after_Ok by done. split.
  - pose proof (is_link_slot _ _ Hlink'). destruct Hs.
    shape_solve; apply Forall_app; eauto.
  - by exists target.
Qed.

Lemma erase_shape c s h :
  shape c s →
  match erase h s with
  | Ok _ s' => shape c s' ∧ effect (T:=T) (Erase h) RUnit s s'
  | Throw e s' => s' = s ∧ thrown (T:=T) (Erase h) e s
  | _ => False
  end.
Proof.
  intros Hs. destruct (validates_dec s h) as [Hv|Hv]; simpl.
  2: { by rewrite erase_invalid by eauto using shape_lengths. }
  pose proof (validates_slot _ _ _ Hs Hv) as Hnode.
  destruct (shape_next_Some _ _ _ Hs Hnode) as (n & Hn & Hln).
  destruct (shape_prev_Some _ _ _ Hs Hnode) as (p & Hp & Hlp).
  erewrite erase_Ok by done. split.
  - destruct Hs. shape_solve; apply Forall_app; eauto.
  - by exists (Handle.index h).
Qed.

Lemma for_each_from_shape c s fuel i :
  shape c s → is_link c i →
  match for_each_from fuel i s with
  | Ok _ s' => s' = s
  | OutOfFuel => True
  | _ => False
  end.
Proof.
  intros Hs. revert i. induction fuel as [|fuel IH]; intros i Hi; [done|].
  simpl. case_decide as Hne; [|done].
  pose proof (is_link_slot _ _ Hi Hne) as Hslot.
  destruct (shape_next_Some _ _ _ Hs Hslot) as (nx & Hnx & Hlink).
  destruct (shape_value_Some _ _ _ Hs Hslot) as [v Hv].
  unfold bind, read, ret. rewrite Hv, Hnx.
  specialize (IH nx Hlink). by destruct (for_each_from fuel nx s).
Qed.

Lemma exec_shape c fuel (o : op T) s :
  shape c s →
  match exec fuel o s with
  | Ok a s' => shape c s' ∧ effect o a s s'
  | Throw e s' => s' = s ∧ thrown o e s
  | UB => False
  | OutOfFuel => o = ForEach
  end.
Proof.
  intros Hs. destruct o as [v|v|h v|h|h| | |]; simpl;
    unfold push_front, push_back, insert_after; try unfold bind at 1.
  - pose proof (emplace_front_shape c s v Hs). by destruct (emplace_front v s).
  - pose proof (emplace_back_shape c s v Hs). by destruct (emplace_back v s).
  - pose proof (emplace_after_shape c s h v Hs).
    by destruct (emplace_after h v s).
  - pose proof (erase_shape c s h Hs). by destruct (erase h s) as [[]| | |].
  - pose proof (erase_after_shape c s h Hs).
    by destruct (erase_after h s) as [[]| | |].
  - pose proof (pop_front_shape c s Hs). by destruct (pop_front s).
  - unfold for_each, bind, gets.
    pose proof (for_each_from_shape c s fuel (head_ s) Hs (shape_head _ _ Hs)).
    destruct (for_each_from fuel (head_ s) s); simpl; try done. by subst.
  - done.
Qed.

End ShapePreserved.

(** ** Every object, whatever is called on it *)

Lemma successes_snoc {T} (p : op T → bool) tr o r :
  successes p (tr ++ [(o, r)])
  = successes p tr + match r with
                     | Returned _ => if p o then 1 else 0
                     | _ => 0
                     end.
Proof.
  induction tr as [|[o' r'] tr IH]; simpl.
  - destruct r; lia.
  - destruct r'; rewrite IH; lia.
Qed.

Lemma live_count_snoc {T} (tr : trace T) o r :
  live_count (tr ++ [(o, r)])
  = live_count tr + match r with
                    | Returned _ =>
                        if is_insertion o then 1
                        else if is_removal o then -1 else 0
                    | _ => 0
                    end.
Proof.
  unfold live_count. rewrite !successes_snoc.
  destruct r; try lia. by destruct o; simpl; lia.
Qed.

Lemma wrap64_add z k : wrap64 (wrap64 z + k) = wrap64 (z + k).
Proof. unfold wrap64. by rewrite Zplus_mod_idemp_l. Qed.

Lemma wrap64_sub z k : wrap64 (wrap64 z - k) = wrap64 (z - k).
Proof. unfold wrap64. by rewrite Zminus_mod_idemp_l. Qed.

Lemma wrap32_add z k : wrap32 (wrap32 z + k) = wrap32 (z + k).
Proof. unfold wrap32. by rewrite Zplus_mod_idemp_l. Qed.

Lemma wrap32_range z : 0 ≤ wrap32 z < 2 ^ 32.
Proof. unfold wrap32. apply Z.mod_pos_bound. lia. Qed.

Lemma length_initial_free_list c : length (initial_free_list c) = c.
Proof. induction c; simpl; congruence. Qed.

Section Reachable.
Context {T : Type} `{!Move T}.
Context (T_default : T).
Implicit Types (s : ArrayLinkedList T) (h : NodeHandle) (i : Z) (l : list Z).
Implicit Types (tr : trace T).

Lemma reaches_mono (P Q : ArrayLinkedList T → op T → Prop) c tr s :
  (∀ s o, P s o → Q s o) →
  reaches T_default P c tr s → reaches T_default Q c tr s.
Proof.
  intros HPQ. induction 1 as [s Hs|tr s fuel o s' _ IH Hal Hst].
  - by constructor.
  - constructor; auto.
Qed.

Lemma reaches_shape allowed c tr s :
  Z.of_nat c ≤ INT_MAX + 1 → reaches T_default allowed c tr s → shape c s.
Proof.
  intros Hc. induction 1 as [s Hs|tr s fuel o s' _ IH Hal Hst].
  - by eapply make_shape.
  - pose proof (exec_shape c fuel o s IH) as He.
    destruct (exec fuel o s); simplify_eq/=; [tauto|].
    by destruct He as [-> _].
Qed.

Lemma effect_counts (o : op T) a s s' n :
  effect o a s s' → size_ s = wrap64 n →
  let d := if is_insertion o then 1 else if is_removal o then -1 else 0 in
  Z.of_nat (length (free_list_ s')) = Z.of_nat (length (free_list_ s)) - d ∧
  size_ s' = wrap64 (n + d).
Proof.
  intros He Hn.
  destruct o; simpl in *;
    first
      [ destruct He as (idx & g & _ & Hfl & _ & _ & Hsz);
        rewrite Hfl, length_app, Hsz, Hn, wrap64_add; simpl; split; [lia|done]
      | destruct He as (idx & Hfl & _ & _ & Hsz);
        rewrite Hfl, length_app, Hsz, Hn, wrap64_sub; simpl;
        split; [lia|f_equal; lia]
      | subst; rewrite Z.add_0_r; split; [lia|done] ].
Qed.

Lemma reaches_counts allowed c tr s :
  Z.of_nat c ≤ INT_MAX + 1 → reaches T_default allowed c tr s →
  Z.of_nat (length (free_list_ s)) = Z.of_nat c - live_count tr ∧
  size_ s = wrap64 (live_count tr).
Proof.
  intros Hc. induction 1 as [s Hs|tr s fuel o s' Hr IH Hal Hst].
  - unfold make in Hs. case_decide; [done|]. injection Hs as <-. simpl.
    rewrite length_initial_free_list. unfold live_count. simpl.
    split; [lia|done].
  - pose proof (exec_shape c fuel o s (reaches_shape _ _ _ _ Hc Hr)) as He.
    rewrite live_count_snoc. destruct IH as [IHf IHs].
    destruct (exec fuel o s) as [a s1|e s1| |]; simplify_eq/=.
    + destruct He as [_ He].
      destruct (effect_counts _ _ _ _ _ He IHs) as [Hf Hs]. simpl in *.
      split; [lia|done].
    + destruct He as [-> _]. by rewrite Z.add_0_r.
Qed.

Lemma reaches_generations_range allowed c tr s :
  Z.of_nat c ≤ INT_MAX + 1 → reaches T_default allowed c tr s →
  Forall (λ g, 0 ≤ g < 2 ^ 32) (generations_ s).
Proof.
  intros Hc. induction 1 as [s Hs|tr s fuel o s' Hr IH Hal Hst].
  - unfold make in Hs. case_decide; [done|]. injection Hs as <-. simpl.
    apply Forall_replicate. lia.
  - pose proof (exec_shape c fuel o s (reaches_shape _ _ _ _ Hc Hr)) as He.
    destruct (exec fuel o s) as [a s1|e s1| |]; simplify_eq/=.
    + destruct He as [_ He].
      destruct o; simpl in *;
        try (destruct He as (idx & g & _ & _ & _ & -> & _);
             apply Forall_insert_vec; [done|apply wrap32_range]);
        try (by destruct He as (idx & _ & -> & _ & _));
        by subst.
    + by destruct He as [-> _].
Qed.

End Reachable.

(** C3. On an object built with capacity [c], after any sequence of calls,
    with any arguments: [size()] is the number of insertions that returned
    minus the number of removals that returned, whenever that number is not
    negative (it never exceeds [c]); the free list is empty exactly when that
    number is [c]; a call throws [CapacityExhausted] only if it is an
    insertion and the free list is empty, so never when the size it
    attempts, one more than that number, is within [c]; and [push_front]
    and [push_back] do throw it when the free list is empty. No call has
    undefined behaviour. *)
Theorem size_counts_live_elements {T : Type} `{!Move T} (T_default : T) (c : nat)
    (tr : trace T) (s : ArrayLinkedList T) :
  Z.of_nat c ≤ INT_MAX + 1 →
  reaches T_default any_call c tr s →
  size s = wrap64 (live_count tr) ∧
  live_count tr ≤ Z.of_nat c ∧
  (0 ≤ live_count tr → size s = live_count tr) ∧
  (free_list_ s = [] ↔ live_count tr = Z.of_nat c) ∧
  ∀ fuel o,
    exec fuel o s ≠ UB ∧
    (∀ s', exec fuel o s = Throw CapacityExhausted s' →
           is_insertion o = true ∧ free_list_ s = []) ∧
    (live_count tr + 1 ≤ Z.of_nat c →
     ∀ s', exec fuel o s ≠ Throw CapacityExhausted s') ∧
    (free_list_ s = [] →
     ∀ v, push_front v s = Throw CapacityExhausted s ∧
          push_back v s = Throw CapacityExhausted s).
Proof.
  intros Hc Hr.
  destruct (reaches_counts _ _ _ _ _ Hc Hr) as [Hfl Hsz].
  pose proof (reaches_shape _ _ _ _ _ Hc Hr) as Hs.
  assert (free_list_ s = [] ↔ live_count tr = Z.of_nat c) as Hempty.
  { split.
    - intros H. rewrite H in Hfl. simpl in Hfl. lia.
    - intros H. apply length_zero_iff_nil. lia. }
  assert (∀ fuel o s', exec fuel o s = Throw CapacityExhausted s' →
            is_insertion o = true ∧ free_list_ s = []) as Hthrow.
  { intros fuel o s' He. pose proof (exec_shape c fuel o s Hs) as H.
    rewrite He in H. destruct H as [_ H].
    destruct o; simpl in H; try done;
      first [ by destruct H
            | destruct H as [[? _]|(_ & _ & ?)]; done
            | destruct H as [[? _]|[? _]]; done ]. }
  split_and!; try done.
  - lia.
  - intros Hpos. unfold size. rewrite Hsz. unfold wrap64, INT_MAX in *.
    apply Z.mod_small. lia.
  - intros fuel o. split_and!.
    + intros He. pose proof (exec_shape c fuel o s Hs) as H. by rewrite He in H.
    + apply Hthrow.
    + intros Hlt s' He. apply Hthrow in He as [_ He]. apply Hempty in He. lia.
    + intros He v. unfold push_front, push_back.
      by rewrite emplace_front_Throw, emplace_back_Throw.
Qed.

(** ** Generations *)

Section Generations.
Context {T : Type} `{!Move T}.
Context (T_default : T).
Implicit Types (s : ArrayLinkedList T) (h : NodeHandle) (i : Z) (l : list Z).
Implicit Types (tr : trace T).

Lemma make_generation c s i :
  make T_default c = inr s → is_slot c i → generation_of s i = Some 0.
Proof.
  unfold make. case_decide; [done|]. intros [= <-] Hi.
  unfold generation_of, vget. simpl. rewrite decide_True by apply Hi.
  apply lookup_replicate_2. unfold is_slot in Hi. lia.
Qed.

(** Only an insertion returns a handle. *)
Lemma exec_handle fuel (o : op T) s h s' :
  exec fuel o s = Ok (RHandle h) s' → is_insertion o = true.
Proof.
  destruct o; simpl; try done; unfold bind, ret, gets.
  - by destruct (erase _ s).
  - by destruct (erase_after _ s).
  - by destruct (pop_front s).
  - by destruct (for_each fuel s).
Qed.

Lemma exec_generation c fuel (o : op T) s s' i g :
  shape c s → state_of (exec fuel o s) = Some s' →
  generation_of s i = Some g →
  generation_of s' i
  = Some (generation_after (outcome_of (exec fuel o s)) i g).
Proof.
  intros Hs Hst Hg. pose proof (exec_shape c fuel o s Hs) as He.
  destruct (exec fuel o s) as [a s1|e s1| |] eqn:Hex; simplify_eq/=.
  2: { by destruct He as [-> _]. }
  destruct He as [_ He]. destruct (is_insertion o) eqn:Hins.
  - assert (∃ idx g0, a = RHandle (Handle.mk idx (wrap32 (g0 + 1))) ∧
                      allocated s s' idx g0) as (idx & g0 & -> & Hal).
    { by destruct o. }
    destruct Hal as (_ & Hg0 & Hgens & _). simpl.
    unfold generation_of in *. rewrite Hgens. case_decide as Hi.
    + subst i. rewrite Hg0 in Hg. injection Hg as ->.
      apply vget_insert_eq. by apply vget_lt in Hg0.
    + rewrite vget_insert_ne; [done|done|]. apply vget_lt in Hg0. lia.
  - assert (generations_ s' = generations_ s) as Hgens.
    { destruct o; simpl in He; try done;
        first [by destruct He as (idx & _ & -> & _) | by subst]. }
    unfold generation_of. rewrite Hgens.
    destruct a as [h| | | |]; simpl; try done.
    apply exec_handle in Hex. congruence.
Qed.

Lemma vacant_push_back (w v : T) g :
  push_back v (vacant w g)
  = Ok (Handle.mk 0 (wrap32 (g + 1))) (taken v (wrap32 (g + 1))).
Proof.
  unfold push_back.
  erewrite (emplace_back_Ok 1 (vacant w g) v [] 0 g); [done| |done..].
  constructor; simpl; try done; repeat constructor; unfold is_slot; lia.
Qed.

Lemma taken_pop_front (v : T) g :
  pop_front (taken v g) = Ok v (vacant (moved_from v) g).
Proof.
  erewrite (pop_front_Ok 1 (taken v g) kNull v); [done| |done..].
  constructor; simpl; try done; repeat constructor;
    unfold is_link, is_slot; lia.
Qed.

Lemma reaches_vacant k :
  0 ≤ k →
  ∃ tr w, reaches T_default live_handles 1 tr (vacant w (wrap32 k)).
Proof.
  revert k. apply natlike_ind.
  - exists [], T_default. by constructor.
  - intros k Hk (tr & w & Hr).
    assert (wrap32 (Z.succ k) = wrap32 (wrap32 k + 1)) as ->.
    { by rewrite wrap32_add. }
    eexists _, _. eapply (reaches_step _ _ _ _ _ 0%nat PopFront).
    + eapply (reaches_step _ _ _ _ _ 0%nat (PushBack T_default)); [done..|].
      unfold exec, bind. by rewrite vacant_push_back.
    + done.
    + unfold exec, bind. by rewrite taken_pop_front.
Qed.

End Generations.

(** C4, the claim as it stands fails: on an object of capacity 1 that has
    been through [2^32 - 1] rounds of [push_back] and [pop_front], the
    generation of slot 0 is [2^32 - 1], and one more [push_back] takes it
    down to 0. *)
Lemma generation_wraps :
  ∃ (tr : trace unit) s h s',
    reaches tt live_handles 1 tr s ∧
    push_back tt s = Ok h s' ∧
    generation_of s 0 = Some (2 ^ 32 - 1) ∧
    generation_of s' 0 = Some 0.
Proof.
  destruct (reaches_vacant tt (2 ^ 32 - 1)) as (tr & w & Hr); [done|].
  eexists tr, _, _, _.
  split_and!; [done|apply (vacant_push_back w tt)|done..].
Qed.

(** C4, amended. The generation of every slot is 0 at construction. Over a
    call, the generation of a slot goes from [g] to [g + 1] modulo [2^32]
    if the call is an insertion that returns a handle of that slot (the
    handle carries the new generation), and stays [g] otherwise, a removal
    included. So it does not decrease over a call unless it is [2^32 - 1]
    and wraps to 0. *)
Theorem generation_changes_on_allocation {T : Type} `{!Move T} (T_default : T) (c : nat)
    (tr : trace T) (s : ArrayLinkedList T) :
  Z.of_nat c ≤ INT_MAX + 1 →
  reaches T_default any_call c tr s →
  (tr = [] → ∀ i, is_slot c i → generation_of s i = Some 0) ∧
  ∀ i, is_slot c i →
    ∃ g, generation_of s i = Some g ∧ 0 ≤ g < 2 ^ 32 ∧
    ∀ fuel o s', state_of (exec fuel o s) = Some s' →
      let r := outcome_of (exec fuel o s) in
      generation_of s' i = Some (generation_after r i g) ∧
      (is_insertion o = false → generation_after r i g = g) ∧
      (∀ h, r = Returned (RHandle h) → Handle.index h = i →
            Handle.generation h = wrap32 (g + 1)) ∧
      (g ≠ 2 ^ 32 - 1 → g ≤ generation_after r i g).
Proof.
  intros Hc Hr. pose proof (reaches_shape _ _ _ _ _ Hc Hr) as Hs. split.
  { intros Htr. destruct Hr as [s Hmk|tr]; [|by destruct tr].
    intros i Hi. by eapply make_generation. }
  intros i Hi. destruct (shape_generation _ _ _ Hs Hi) as [g Hg].
  pose proof (reaches_generations_range _ _ _ _ _ Hc Hr) as Hrange.
  pose proof (Forall_vget _ _ _ _ Hrange Hg) as Hgr. simpl in Hgr.
  exists g. split_and!; [done|lia..|].
  intros fuel o s' Hst. simpl. split_and!.
  - by eapply exec_generation.
  - intros Hins. destruct (exec fuel o s) as [[h| | | |] s1| | |] eqn:Hex;
      simpl; try done.
    apply exec_handle in Hex. congruence.
  - intros h Hret Hidx.
    pose proof (exec_shape c fuel o s Hs) as He.
    destruct (exec fuel o s) as [a s1| | |] eqn:Hex; simplify_eq/=.
    destruct He as [_ He]. apply exec_handle in Hex.
    destruct o; simpl in *; try done;
      destruct He as (idx & g0 & [= ->] & _ & Hg0 & _); simpl in *;
      congruence.
  - intros Hne. unfold generation_after.
    destruct (outcome_of _) as [[h| | | |]| | |]; try lia.
    case_decide; [|lia]. unfold wrap32. rewrite Z.mod_small; lia.
Qed.

(** ** Chains of slots *)

Section Chains.
Implicit Types (i j p q x : Z) (l : list Z) (nx pv : list Z).

Lemma first_of_app q l1 l2 : first_of q (l1 ++ l2) = first_of (first_of q l2) l1.
Proof. by destruct l1. Qed.

Lemma first_of_cons q i l : first_of q (i :: l) = i.
Proof. done. Qed.

Lemma last_of_cons p i l : last_of p (i :: l) = last_of i l.
Proof.
  unfold last_of. revert p i. induction l as [|j l IH]; intros p i; [done|].
  rewrite last_cons_cons. by rewrite (IH p j), (IH i j).
Qed.

Lemma last_of_app p l1 l2 : last_of p (l1 ++ l2) = last_of (last_of p l1) l2.
Proof.
  revert p. induction l1 as [|i l1 IH]; intros p; [done|].
  simpl. by rewrite !last_of_cons, IH.
Qed.

Lemma last_of_snoc p l i : last_of p (l ++ [i]) = i.
Proof. unfold last_of. by rewrite last_snoc. Qed.

Lemma first_of_elem q l : l ≠ [] → first_of q l ∈ l.
Proof. destruct l; [done|]. intros _. by left. Qed.

Lemma last_of_elem p l : l ≠ [] → last_of p l ∈ l.
Proof.
  intros Hl. unfold last_of. destruct (last l) as [i|] eqn:Hi.
  - by apply last_Some_elem_of.
  - by apply last_None in Hi.
Qed.

Lemma fwd_ext nx nx' l q :
  (∀ j, j ∈ l → vget nx' j = vget nx j) → fwd nx l q → fwd nx' l q.
Proof.
  induction l as [|i l IH]; [done|]. simpl. intros Hext [Hi Hl]. split.
  - rewrite Hext; [done|by left].
  - apply IH; [|done]. intros j Hj. apply Hext. by right.
Qed.

Lemma bwd_ext pv pv' p l :
  (∀ j, j ∈ l → vget pv' j = vget pv j) → bwd pv p l → bwd pv' p l.
Proof.
  revert p. induction l as [|i l IH]; [done|]. simpl. intros p Hext [Hi Hl].
  split.
  - rewrite Hext; [done|by left].
  - apply IH; [|done]. intros j Hj. apply Hext. by right.
Qed.

Lemma fwd_app nx l1 l2 q :
  fwd nx (l1 ++ l2) q ↔ fwd nx l1 (first_of q l2) ∧ fwd nx l2 q.
Proof.
  induction l1 as [|i l1 IH]; simpl; [tauto|].
  rewrite IH, first_of_app. tauto.
Qed.

Lemma bwd_app pv p l1 l2 :
  bwd pv p (l1 ++ l2) ↔ bwd pv p l1 ∧ bwd pv (last_of p l1) l2.
Proof.
  revert p. induction l1 as [|i l1 IH]; intros p; simpl; [tauto|].
  rewrite IH, last_of_cons. tauto.
Qed.

Lemma length_link_after l x nx : length (link_after l x nx) = length nx.
Proof. unfold link_after. destruct (last l); [apply length_insert|done]. Qed.

Lemma length_link_before l x pv : length (link_before l x pv) = length pv.
Proof. unfold link_before. destruct (head l); [apply length_insert|done]. Qed.

Lemma vget_link_after_ne l x nx j :
  j ∉ l → (∀ k, k ∈ l → 0 ≤ k) → vget (link_after l x nx) j = vget nx j.
Proof.
  intros Hj Hl. unfold link_after. destruct (last l) as [p|] eqn:Hp; [|done].
  apply last_Some_elem_of in Hp. apply vget_insert_ne; [|by apply Hl].
  by intros ->.
Qed.

Lemma vget_link_before_ne l x pv j :
  j ∉ l → (∀ k, k ∈ l → 0 ≤ k) → vget (link_before l x pv) j = vget pv j.
Proof.
  intros Hj Hl. unfold link_before. destruct (head l) as [n|] eqn:Hn; [|done].
  apply head_Some_elem_of in Hn. apply vget_insert_ne; [|by apply Hl].
  by intros ->.
Qed.

Lemma fwd_link_after nx l q x :
  NoDup l → (∀ k, k ∈ l → 0 ≤ k < Z.of_nat (length nx)) →
  fwd nx l q → fwd (link_after l x nx) l x.
Proof.
  induction l as [|i l IH]; [done|].
  intros [Hi Hnd]%NoDup_cons Hr [Hnx Hl]. simpl.
  destruct l as [|j l].
  - split; [|done]. apply vget_insert_eq, Hr. by left.
  - assert (link_after (i :: j :: l) x nx = link_after (j :: l) x nx) as ->.
    { unfold link_after. by rewrite last_cons_cons. }
    split.
    + rewrite vget_link_after_ne; [done|done|].
      intros k Hk. apply Hr. by right.
    + apply IH; [done| |done]. intros k Hk. apply Hr. by right.
Qed.

Lemma bwd_link_before pv l p x :
  NoDup l → (∀ k, k ∈ l → 0 ≤ k < Z.of_nat (length pv)) →
  bwd pv p l → bwd (link_before l x pv) x l.
Proof.
  destruct l as [|i l]; [done|].
  intros [Hi Hnd]%NoDup_cons Hr [Hpv Hl]. simpl. split.
  - apply vget_insert_eq, Hr. by left.
  - eapply bwd_ext; [|done]. intros j Hj.
    apply vget_insert_ne; [by intros ->|]. apply Hr. by left.
Qed.

End Chains.

(** ** Objects that hold a chain *)

Lemma splice_Permutation (l1 l2 fl : list Z) idx :
  (l1 ++ idx :: l2) ++ fl ≡ₚ (l1 ++ l2) ++ fl ++ [idx].
Proof. solve_Permutation. Qed.

Section Representation.
Context {T : Type} `{!Move T}.
Context (T_default : T).
Implicit Types (s : ArrayLinkedList T) (h : NodeHandle) (i : Z) (l : list Z).

Lemma repr_chain_slot c s l i : repr c s l → i ∈ l → is_slot c i.
Proof.
  intros R Hi. apply (repr_slots _ _ _ R). apply elem_of_app. by left.
Qed.

Lemma repr_free_slot c s l i : repr c s l → i ∈ free_list_ s → is_slot c i.
Proof.
  intros R Hi. apply (repr_slots _ _ _ R). apply elem_of_app. by right.
Qed.

Lemma repr_chain_not_free c s l i : repr c s l → i ∈ l → i ∉ free_list_ s.
Proof.
  intros R Hi. pose proof (repr_NoDup _ _ _ R) as Hnd.
  apply NoDup_app in Hnd as (_ & Hnd & _). by apply Hnd.
Qed.

Lemma repr_slot_cases c s l i :
  repr c s l → is_slot c i → i ∈ l ∨ i ∈ free_list_ s.
Proof. intros R Hi. apply elem_of_app. by apply (repr_slots _ _ _ R). Qed.

Lemma first_of_link c q l :
  is_link c q → (∀ i, i ∈ l → is_slot c i) → is_link c (first_of q l).
Proof.
  intros Hq Hl. destruct l as [|i l]; [done|]. right. apply Hl. by left.
Qed.

Lemma last_of_link c p l :
  is_link c p → (∀ i, i ∈ l → is_slot c i) → is_link c (last_of p l).
Proof.
  intros Hp Hl. destruct (decide (l = [])) as [->|Hne]; [done|].
  right. by apply Hl, last_of_elem.
Qed.

(** The links of a slot of the chain. *)
Lemma repr_links c s l1 i l2 :
  repr c s (l1 ++ i :: l2) →
  vget (next_ s) i = Some (first_of kNull l2) ∧
  vget (prev_ s) i = Some (last_of kNull l1).
Proof.
  intros R. pose proof (repr_fwd _ _ _ R) as Hf.
  pose proof (repr_bwd _ _ _ R) as Hb.
  apply fwd_app in Hf as [_ [Hf _]]. apply bwd_app in Hb as [_ [Hb _]].
  done.
Qed.

Lemma repr_shape c s l : repr c s l → shape c s.
Proof.
  intros R. pose proof (λ i, repr_chain_slot c s l i R) as Hl.
  constructor; try apply R.
  - apply Forall_forall. intros i Hi. by eapply repr_free_slot.
  - apply Forall_lookup. intros k x Hk.
    assert (is_slot c (Z.of_nat k)) as Hslot.
    { apply lookup_lt_Some in Hk. rewrite (repr_next _ _ _ R) in Hk.
      unfold is_slot. lia. }
    assert (vget (next_ s) (Z.of_nat k) = Some x) as Hx.
    { apply vget_Some. rewrite Nat2Z.id. split; [lia|done]. }
    destruct (repr_slot_cases _ _ _ _ R Hslot) as [Hin|Hin].
    + apply list_elem_of_split in Hin as (l1 & l2 & ->).
      destruct (repr_links _ _ _ _ _ R) as [Hnx _].
      rewrite Hnx in Hx. injection Hx as <-.
      apply first_of_link; [by left|]. intros j Hj. apply Hl.
      rewrite elem_of_app. right. by right.
    + destruct (repr_free _ _ _ R _ Hin) as [Hnx _].
      rewrite Hnx in Hx. injection Hx as <-. by left.
  - apply Forall_lookup. intros k x Hk.
    assert (is_slot c (Z.of_nat k)) as Hslot.
    { apply lookup_lt_Some in Hk. rewrite (repr_prev _ _ _ R) in Hk.
      unfold is_slot. lia. }
    assert (vget (prev_ s) (Z.of_nat k) = Some x) as Hx.
    { apply vget_Some. rewrite Nat2Z.id. split; [lia|done]. }
    destruct (repr_slot_cases _ _ _ _ R Hslot) as [Hin|Hin].
    + apply list_elem_of_split in Hin as (l1 & l2 & ->).
      destruct (repr_links _ _ _ _ _ R) as [_ Hpv].
      rewrite Hpv in Hx. injection Hx as <-.
      apply last_of_link; [by left|]. intros j Hj. apply Hl.
      rewrite elem_of_app. by left.
    + destruct (repr_free _ _ _ R _ Hin) as [_ Hpv].
      rewrite Hpv in Hx. injection Hx as <-. by left.
  - rewrite (repr_head _ _ _ R). apply first_of_link; [by left|done].
  - rewrite (repr_tail _ _ _ R). apply last_of_link; [by left|done].
Qed.

Lemma make_repr c s :
  Z.of_nat c ≤ INT_MAX + 1 → make T_default c = inr s → repr c s [].
Proof.
  intros Hc Hmk. pose proof (make_shape _ _ _ Hc Hmk) as Hs.
  unfold make in Hmk. case_decide; [done|]. injection Hmk as <-.
  constructor; simpl; rewrite ?length_replicate; try done.
  - rewrite initial_free_list_eq by done.
    apply NoDup_fmap; [apply Nat2Z.inj'|].
    apply NoDup_ListNoDup, NoDup_rev, seq_NoDup.
  - intros i. by rewrite initial_free_list_elem.
  - apply length_initial_free_list.
  - intros i Hi. apply initial_free_list_elem in Hi; [|done].
    unfold vget. rewrite decide_True by apply Hi.
    rewrite !lookup_replicate_2; [done|unfold is_slot in Hi; lia..].
Qed.

End Representation.

Lemma NoDup_splice (l1 l2 fl : list Z) x :
  NoDup ((l1 ++ l2) ++ fl ++ [x]) →
  NoDup l1 ∧ NoDup l2 ∧ (∀ k, k ∈ l1 → k ∉ l2) ∧
  (∀ k, k ∈ l1 ++ l2 → k ∉ fl) ∧
  (x ∉ l1) ∧ (x ∉ l2) ∧ (x ∉ fl).
Proof.
  rewrite !NoDup_app. intros ((Hn1 & H12 & Hn2) & Hd & (Hnf & Hfx & _)).
  split_and!; try done.
  - intros k Hk Hf. apply (Hd k Hk). apply elem_of_app. by left.
  - intros Hx. apply (Hd x).
    + apply elem_of_app. by left.
    + apply elem_of_app. right. by apply list_elem_of_singleton.
  - intros Hx. apply (Hd x).
    + apply elem_of_app. by right.
    + apply elem_of_app. right. by apply list_elem_of_singleton.
  - intros Hx. apply (Hfx x Hx). by apply list_elem_of_singleton.
Qed.

Section Splicing.
Context {T : Type} `{!Move T}.
Implicit Types (s : ArrayLinkedList T) (h : NodeHandle) (i : Z) (l : list Z).

Lemma repr_spliced_in c s l1 l2 fl idx (v : T) :
  repr c s (l1 ++ l2) → free_list_ s = fl ++ [idx] →
  repr c (spliced_in l1 idx l2 v s) (l1 ++ idx :: l2).
Proof.
  intros R Hfl.
  pose proof (repr_NoDup _ _ _ R) as Hnd. rewrite Hfl in Hnd.
  pose proof (repr_total _ _ _ R) as Htot. rewrite Hfl in Htot.
  assert (is_slot c idx) as Hidx.
  { eapply repr_free_slot; [done|]. rewrite Hfl, elem_of_app. right.
    by apply list_elem_of_singleton. }
  assert (∀ k, k ∈ l1 → is_slot c k) as Hl1.
  { intros k Hk. eapply repr_chain_slot; [done|]. apply elem_of_app. by left. }
  assert (∀ k, k ∈ l2 → is_slot c k) as Hl2.
  { intros k Hk. eapply repr_chain_slot; [done|]. apply elem_of_app. by right. }
  destruct (NoDup_splice _ _ _ _ Hnd)
    as (Hnd1 & Hnd2 & Hd12 & Hdf & Hi1 & Hi2 & Hi3).
  pose proof (repr_fwd _ _ _ R) as Hf. apply fwd_app in Hf as [Hf1 Hf2].
  pose proof (repr_bwd _ _ _ R) as Hb. apply bwd_app in Hb as [Hb1 Hb2].
  destruct R as [Hc Hlv Hln Hlp Hlg _ Hslots _ Hhd Htl _ _ Hfree Hsz].
  unfold is_slot in *.
  constructor; simpl;
    rewrite ?length_insert, ?length_link_after, ?length_link_before,
      ?length_insert; try done.
  - by rewrite Hfl, pop_back_snoc, splice_Permutation.
  - intros i. rewrite Hfl, pop_back_snoc, splice_Permutation, <-Hfl.
    apply Hslots.
  - by rewrite Hfl, pop_back_snoc, splice_Permutation.
  - by rewrite first_of_app.
  - by rewrite last_of_app, last_of_cons.
  - apply fwd_app. simpl. split_and!.
    + apply fwd_link_after with (q := first_of kNull l2); [done| |].
      * intros k Hk. rewrite length_insert, Hln. by apply Hl1.
      * eapply fwd_ext; [|done]. intros j Hj.
        apply vget_insert_ne; [by intros ->|lia].
    + rewrite vget_link_after_ne; [|done|]. 
      * apply vget_insert_eq. lia.
      * intros k Hk. by apply Hl1.
    + eapply fwd_ext; [|done]. intros j Hj.
      rewrite vget_link_after_ne.
      * apply vget_insert_ne; [by intros ->|lia].
      * intros Hj'. by apply (Hd12 j).
      * intros k Hk. by apply Hl1.
  - apply bwd_app. simpl. split_and!.
    + eapply bwd_ext; [|done]. intros j Hj.
      rewrite vget_link_before_ne.
      * apply vget_insert_ne; [by intros ->|lia].
      * by apply Hd12.
      * intros k Hk. by apply Hl2.
    + rewrite vget_link_before_ne; [|done|].
      * apply vget_insert_eq. lia.
      * intros k Hk. by apply Hl2.
    + apply bwd_link_before with (p := last_of kNull l1); [done| |].
      * intros k Hk. rewrite length_insert, Hlp. by apply Hl2.
      * eapply bwd_ext; [|done]. intros j Hj.
        apply vget_insert_ne; [by intros ->|lia].
  - rewrite Hfl, pop_back_snoc. intros i Hi.
    assert ((i ∉ l1) ∧ (i ∉ l2) ∧ i ≠ idx) as (? & ? & ?).
    { split_and!.
      - intros Hin. apply (Hdf i); [|done]. apply elem_of_app. by left.
      - intros Hin. apply (Hdf i); [|done]. apply elem_of_app. by right.
      - by intros ->. }
    rewrite vget_link_after_ne; [|done|intros k Hk; by apply Hl1].
    rewrite vget_link_before_ne; [|done|intros k Hk; by apply Hl2].
    rewrite !vget_insert_ne by (done || lia).
    apply Hfree. rewrite Hfl. apply elem_of_app. by left.
  - rewrite Hsz. rewrite !length_app in *. simpl in *.
    unfold wrap64, INT_MAX in *. rewrite Z.mod_small; lia.
Qed.

Lemma repr_spliced_out c s l1 i l2 :
  repr c s (l1 ++ i :: l2) →
  repr c (spliced_out l1 i l2 s) (l1 ++ l2).
Proof.
  intros R.
  pose proof (repr_NoDup _ _ _ R) as Hnd.
  rewrite splice_Permutation in Hnd.
  pose proof (repr_total _ _ _ R) as Htot.
  assert (is_slot c i) as Hi.
  { eapply repr_chain_slot; [done|]. apply elem_of_app. right. by left. }
  assert (∀ k, k ∈ l1 → is_slot c k) as Hl1.
  { intros k Hk. eapply repr_chain_slot; [done|]. apply elem_of_app. by left. }
  assert (∀ k, k ∈ l2 → is_slot c k) as Hl2.
  { intros k Hk. eapply repr_chain_slot; [done|]. apply elem_of_app.
    right. by right. }
  destruct (NoDup_splice _ _ _ _ Hnd)
    as (Hnd1 & Hnd2 & Hd12 & Hdf & Hi1 & Hi2 & Hi3).
  pose proof (repr_fwd _ _ _ R) as Hf.
  apply fwd_app in Hf as [Hf1 [_ Hf2]].
  pose proof (repr_bwd _ _ _ R) as Hb.
  apply bwd_app in Hb as [Hb1 [_ Hb2]].
  destruct R as [Hc Hlv Hln Hlp Hlg _ Hslots _ Hhd Htl _ _ Hfree Hsz].
  unfold is_slot in *.
  constructor; simpl;
    rewrite ?length_insert, ?length_link_after, ?length_link_before; try done.
  - intros k. rewrite <-splice_Permutation. apply Hslots.
  - by rewrite <-splice_Permutation.
  - apply fwd_app. split.
    + eapply fwd_ext.
      { intros j Hj. apply vget_insert_ne; [by intros ->|lia]. }
      apply fwd_link_after with (q := i); [done| |done].
      intros k Hk. rewrite Hln. by apply Hl1.
    + eapply fwd_ext; [|done]. intros j Hj.
      rewrite vget_insert_ne; [|by intros ->|lia].
      apply vget_link_after_ne.
      * intros Hj'. by apply (Hd12 j).
      * intros k Hk. by apply Hl1.
  - apply bwd_app. split.
    + eapply bwd_ext; [|done]. intros j Hj.
      rewrite vget_insert_ne; [|by intros ->|lia].
      apply vget_link_before_ne.
      * by apply Hd12.
      * intros k Hk. by apply Hl2.
    + eapply bwd_ext.
      { intros j Hj. apply vget_insert_ne; [by intros ->|lia]. }
      apply bwd_link_before with (p := i); [done| |done].
      intros k Hk. rewrite Hlp. by apply Hl2.
  - intros k [Hk|Hk%list_elem_of_singleton]%elem_of_app.
    + assert ((k ∉ l1) ∧ (k ∉ l2) ∧ k ≠ i) as (? & ? & ?).
      { split_and!.
        - intros Hin. apply (Hdf k); [|done]. apply elem_of_app. by left.
        - intros Hin. apply (Hdf k); [|done]. apply elem_of_app. by right.
        - by intros ->. }
      rewrite !vget_insert_ne by (done || lia).
      rewrite vget_link_after_ne; [|done|intros j Hj; by apply Hl1].
      rewrite vget_link_before_ne; [|done|intros j Hj; by apply Hl2].
      by apply Hfree.
    + subst k. rewrite !vget_insert_eq; [done|..];
        rewrite ?length_link_after, ?length_link_before; lia.
  - rewrite Hsz. rewrite !length_app in *. simpl in *.
    unfold wrap64, INT_MAX in *. rewrite Z.mod_small; lia.
Qed.

End Splicing.

(** ** The member functions on objects that hold a chain *)

Section ChainEnds.
Implicit Types (i j p q x : Z) (l : list Z).

Lemma is_slot_not_null c i : is_slot c i → i ≠ kNull.
Proof. unfold is_slot, kNull. lia. Qed.

Lemma first_of_null c l :
  (∀ k, k ∈ l → is_slot c k) → first_of kNull l = kNull ↔ l = [].
Proof.
  intros Hl. destruct l as [|k l]; [done|]. simpl. split; [|done].
  intros Hk. destruct (is_slot_not_null c k); [|done]. apply Hl. by left.
Qed.

Lemma last_of_null c l :
  (∀ k, k ∈ l → is_slot c k) → last_of kNull l = kNull ↔ l = [].
Proof.
  intros Hl. split; [|by intros ->]. intros Hk.
  destruct (decide (l = [])) as [|Hne]; [done|].
  destruct (is_slot_not_null c (last_of kNull l)); [|done].
  by apply Hl, last_of_elem.
Qed.

Lemma first_of_default p q l : l ≠ [] → first_of p l = first_of q l.
Proof. by destruct l. Qed.

Lemma last_of_default p q l : l ≠ [] → last_of p l = last_of q l.
Proof.
  intros Hl. unfold last_of. destruct (last l) eqn:Hlast; [done|].
  by apply last_None in Hlast.
Qed.

Lemma link_before_eq l x pv :
  link_before l x pv
  = if decide (l = []) then pv else <[Z.to_nat (first_of kNull l) := x]> pv.
Proof. by destruct l. Qed.

Lemma link_after_eq l x nx :
  link_after l x nx
  = if decide (l = []) then nx else <[Z.to_nat (last_of kNull l) := x]> nx.
Proof.
  unfold link_after, last_of. destruct (last l) eqn:Hlast.
  - rewrite decide_False; [done|]. intros ->. done.
  - apply last_None in Hlast. by rewrite decide_True.
Qed.

End ChainEnds.

(** The ends of a chain of slots, in the tests of the member functions. *)
Ltac chain_ends c :=
  repeat match goal with
    | |- context [decide (first_of kNull ?l ≠ kNull)] =>
        let Hn := fresh "Hends" in
        destruct (decide (first_of kNull l ≠ kNull)) as [Hn|Hn];
        [ assert (l ≠ []) by (intros ->; done)
        | apply dec_stable in Hn; apply (first_of_null c) in Hn;
          [subst l|done] ]
    | |- context [decide (last_of kNull ?l ≠ kNull)] =>
        let Hn := fresh "Hends" in
        destruct (decide (last_of kNull l ≠ kNull)) as [Hn|Hn];
        [ assert (l ≠ []) by (intros ->; done)
        | apply dec_stable in Hn; apply (last_of_null c) in Hn;
          [subst l|done] ]
    end.

Ltac chain_done :=
  repeat match goal with
    | |- context [decide (?l = [])] =>
        first [ rewrite (decide_False (P := l = [])) by done
              | rewrite (decide_True (P := l = [])) by done ]
    end;
  simpl; f_equal; f_equal;
  first [ done
        | by apply first_of_default
        | by apply last_of_default
        | by symmetry; apply first_of_default
        | by symmetry; apply last_of_default ].

Section OnChains.
Context {T : Type} `{!Move T}.
Implicit Types (s : ArrayLinkedList T) (h : NodeHandle) (i : Z) (l : list Z).

Lemma repr_generation c s l i :
  repr c s l → is_slot c i → ∃ g, generation_of s i = Some g.
Proof. intros R. by apply shape_generation, (repr_shape c s l). Qed.

Lemma emplace_front_repr c s l fl idx (v : T) :
  repr c s l → free_list_ s = fl ++ [idx] →
  emplace_front v s
  = Ok (Handle.mk idx (wrap32 (default 0 (generation_of s idx) + 1)))
      (spliced_in [] idx l v s).
Proof.
  intros R Hfl. pose proof (repr_shape _ _ _ R) as Hs.
  pose proof (λ k, repr_chain_slot c s l k R) as Hl.
  destruct (repr_generation c s l idx R) as [g Hg].
  { eapply shape_free_slot; done. }
  erewrite emplace_front_Ok by done. rewrite Hg. simpl.
  unfold spliced_in. rewrite Hg, Hfl, pop_back_snoc. simpl.
  rewrite (repr_head _ _ _ R), (repr_tail _ _ _ R).
  unfold link_after. simpl. rewrite link_before_eq.
  chain_ends c; chain_done.
Qed.

Lemma emplace_back_repr c s l fl idx (v : T) :
  repr c s l → free_list_ s = fl ++ [idx] →
  emplace_back v s
  = Ok (Handle.mk idx (wrap32 (default 0 (generation_of s idx) + 1)))
      (spliced_in l idx [] v s).
Proof.
  intros R Hfl. pose proof (repr_shape _ _ _ R) as Hs.
  pose proof (λ k, repr_chain_slot c s l k R) as Hl.
  destruct (repr_generation c s l idx R) as [g Hg].
  { eapply shape_free_slot; done. }
  erewrite emplace_back_Ok by done. rewrite Hg. simpl.
  unfold spliced_in. rewrite Hg, Hfl, pop_back_snoc. simpl.
  rewrite (repr_head _ _ _ R), (repr_tail _ _ _ R).
  unfold link_before. simpl. rewrite link_after_eq.
  chain_ends c; chain_done.
Qed.

Lemma validates_generation s h :
  validates s h → generation_of s (Handle.index h) = Some (Handle.generation h).
Proof. by intros [_ ?]%validates_iff. Qed.

Lemma emplace_after_repr c s l1 l2 fl idx h (v : T) :
  repr c s (l1 ++ Handle.index h :: l2) → validates s h →
  free_list_ s = fl ++ [idx] →
  emplace_after h v s
  = Ok (Handle.mk idx (wrap32 (default 0 (generation_of s idx) + 1)))
      (spliced_in (l1 ++ [Handle.index h]) idx l2 v s).
Proof.
  intros R Hv Hfl. pose proof (repr_shape _ _ _ R) as Hs.
  pose proof (λ k, repr_chain_slot c s _ k R) as Hl.
  assert (∀ k, k ∈ l2 → is_slot c k) as Hl2.
  { intros k Hk. apply Hl, elem_of_app. right. by right. }
  assert (is_slot c idx) as Hidx by (eapply shape_free_slot; done).
  destruct (repr_generation c s _ idx R Hidx) as [g Hg].
  destruct (repr_links _ _ _ _ _ R) as [Hnx _].
  assert (Handle.index h ≠ idx) as Hne.
  { intros Heq. eapply (repr_chain_not_free c s); [done| |].
    - apply elem_of_app. right. by left.
    - rewrite Heq, Hfl. apply elem_of_app. right. by left. }
  erewrite emplace_after_Ok; [|done..|].
  2: { rewrite vget_insert_ne; [done|done|]. apply Hidx. }
  rewrite Hg. simpl.
  unfold spliced_in. rewrite Hg, Hfl, pop_back_snoc. simpl.
  rewrite (repr_head _ _ _ R), (repr_tail _ _ _ R).
  rewrite link_after_eq, link_before_eq, !last_of_snoc.
  rewrite (decide_False (P := l1 ++ [_] = [])) by (by destruct l1).
  rewrite !last_of_app, last_of_cons, !first_of_app. simpl.
  chain_ends c; chain_done.
Qed.

Lemma repr_moved_out c s l i (v : T) :
  repr c s l → repr c (moved_out i v s) l.
Proof.
  intros R. destruct R. constructor; simpl; try done.
  by rewrite length_insert.
Qed.

Lemma pop_front_repr c s i l2 (v : T) :
  repr c s (i :: l2) → vget (values_ s) i = Some v →
  pop_front s = Ok v (spliced_out [] i l2 (moved_out i v s)).
Proof.
  intros R Hv. pose proof (repr_shape _ _ _ R) as Hs.
  pose proof (λ k, repr_chain_slot c s _ k R) as Hl.
  assert (∀ k, k ∈ l2 → is_slot c k) as Hl2.
  { intros k Hk. apply Hl. by right. }
  destruct (repr_links c s [] i l2 R) as [Hnx _].
  pose proof (repr_head _ _ _ R) as Hhd. simpl in Hhd.
  erewrite pop_front_Ok; [|done| |by rewrite Hhd..].
  2: { rewrite Hhd. apply (is_slot_not_null c), Hl. by left. }
  unfold spliced_out. rewrite Hhd, (repr_tail _ _ _ R), last_of_cons.
  unfold link_after. simpl. rewrite link_before_eq.
  chain_ends c; chain_done.
Qed.

Lemma erase_repr c s l1 l2 h :
  repr c s (l1 ++ Handle.index h :: l2) → validates s h →
  erase h s = Ok tt (spliced_out l1 (Handle.index h) l2 s).
Proof.
  intros R Hv. pose proof (repr_shape _ _ _ R) as Hs.
  pose proof (λ k, repr_chain_slot c s _ k R) as Hl.
  assert (∀ k, k ∈ l1 → is_slot c k) as Hl1.
  { intros k Hk. apply Hl, elem_of_app. by left. }
  assert (∀ k, k ∈ l2 → is_slot c k) as Hl2.
  { intros k Hk. apply Hl, elem_of_app. right. by right. }
  destruct (repr_links _ _ _ _ _ R) as [Hnx Hpv].
  erewrite erase_Ok by done.
  unfold spliced_out.
  rewrite (repr_head _ _ _ R), (repr_tail _ _ _ R).
  rewrite link_after_eq, link_before_eq.
  rewrite !last_of_app, last_of_cons, !first_of_app. simpl.
  chain_ends c; chain_done.
Qed.

Lemma erase_after_repr c s l1 t l2 h :
  repr c s (l1 ++ Handle.index h :: t :: l2) → validates s h →
  erase_after h s = Ok tt (spliced_out (l1 ++ [Handle.index h]) t l2 s).
Proof.
  intros R Hv. pose proof (repr_shape _ _ _ R) as Hs.
  pose proof (λ k, repr_chain_slot c s _ k R) as Hl.
  assert (∀ k, k ∈ l2 → is_slot c k) as Hl2.
  { intros k Hk. apply Hl, elem_of_app. right. right. by right. }
  destruct (repr_links _ _ _ _ _ R) as [Hnx _]. simpl in Hnx.
  pose proof R as R'.
  rewrite (cons_middle (Handle.index h)), (assoc_L (++)) in R'.
  destruct (repr_links _ _ _ _ _ R') as [Hnt _].
  erewrite erase_after_Ok; [|done..| |done].
  2: { apply (is_slot_not_null c), Hl, elem_of_app. right. right. by left. }
  unfold spliced_out.
  rewrite (repr_head _ _ _ R), (repr_tail _ _ _ R).
  rewrite link_after_eq, link_before_eq, !last_of_snoc.
  rewrite (decide_False (P := l1 ++ [_] = [])) by (by destruct l1).
  rewrite !last_of_app, !last_of_cons, !first_of_app. simpl.
  chain_ends c; chain_done.
Qed.

End OnChains.

(** ** Traversal and contents *)

Section Traversal.
Context {T : Type} `{!Move T}.
Implicit Types (s : ArrayLinkedList T) (h : NodeHandle) (i : Z) (l : list Z).
Implicit Types (vs : list T).

Lemma contents_length s l vs : contents s l vs → length l = length vs.
Proof. apply Forall2_length. Qed.

Lemma contents_app s l1 l2 vs1 vs2 :
  length l1 = length vs1 →
  contents s (l1 ++ l2) (vs1 ++ vs2) ↔ contents s l1 vs1 ∧ contents s l2 vs2.
Proof.
  intros Hlen. unfold contents. split.
  - intros H. by apply Forall2_app_inv in H.
  - intros [??]. by apply Forall2_app.
Qed.

Lemma contents_ext s s' l vs :
  (∀ k, k ∈ l → vget (values_ s') k = vget (values_ s) k) →
  contents s l vs → contents s' l vs.
Proof.
  intros Hext H. unfold contents in *.
  induction H as [|k v l vs Hk _ IH]; constructor.
  - rewrite Hext; [done|by left].
  - apply IH. intros j Hj. apply Hext. by right.
Qed.

Lemma contents_moved_out s l vs i (v : T) :
  i ∉ l → 0 ≤ i → contents s l vs → contents (moved_out i v s) l vs.
Proof.
  intros Hi H0. apply contents_ext. intros k Hk. simpl.
  apply vget_insert_ne; [|done]. by intros ->.
Qed.

Lemma repr_contents c s l : repr c s l → ∃ vs, contents s l vs.
Proof.
  intros R. pose proof (λ k, repr_chain_slot c s l k R) as Hl.
  pose proof (repr_values _ _ _ R) as Hlen. clear R.
  induction l as [|k l IH].
  - exists []. constructor.
  - destruct IH as [vs Hvs]. { intros j Hj. apply Hl. by right. }
    destruct (vget_is_Some (values_ s) k) as [v Hv].
    { rewrite Hlen. apply Hl. by left. }
    exists (v :: vs). by constructor.
Qed.

Lemma repr_length c s l : repr c s l → (length l ≤ c)%nat.
Proof. intros R. pose proof (repr_total _ _ _ R) as H. rewrite length_app in H. lia. Qed.

Lemma for_each_from_chain s l vs fuel :
  fwd (next_ s) l kNull → contents s l vs →
  (∀ k, k ∈ l → k ≠ kNull) → (length l < fuel)%nat →
  for_each_from fuel (first_of kNull l) s = Ok (zip vs l) s.
Proof.
  revert vs fuel. induction l as [|i l IH]; intros vs fuel Hf Hc Hl Hfuel.
  - destruct fuel as [|fuel]; [simpl in Hfuel; lia|].
    by apply Forall2_nil_inv_l in Hc as ->.
  - destruct fuel as [|fuel]; [simpl in Hfuel; lia|].
    apply Forall2_cons_inv_l in Hc as (v & vs' & Hv & Hc & ->).
    destruct Hf as [Hnx Hf]. change (first_of kNull (i :: l)) with i. simpl.
    rewrite decide_True by (apply Hl; by left).
    unfold bind, read, ret. rewrite Hv, Hnx.
    rewrite (IH vs' fuel); [done|done|done| |simpl in Hfuel; lia].
    intros k Hk. apply Hl. by right.
Qed.

Lemma for_each_repr c s l vs fuel :
  repr c s l → contents s l vs → (length l < fuel)%nat →
  for_each fuel s = Ok (zip vs l) s.
Proof.
  intros R Hc Hfuel. unfold for_each, bind, gets.
  rewrite (repr_head _ _ _ R).
  rewrite (for_each_from_chain s l vs fuel); [done|apply R|done| |done].
  intros k Hk. eapply is_slot_not_null, repr_chain_slot; done.
Qed.

Lemma contents_spliced_in c s l1 l2 fl idx v vs1 vs2 :
  repr c s (l1 ++ l2) → free_list_ s = fl ++ [idx] →
  length l1 = length vs1 →
  contents s (l1 ++ l2) (vs1 ++ vs2) →
  contents (spliced_in l1 idx l2 v s) (l1 ++ idx :: l2) (vs1 ++ v :: vs2).
Proof.
  intros R Hfl Hlen Hc.
  assert (is_slot c idx) as Hidx.
  { eapply repr_free_slot; [done|]. rewrite Hfl. apply elem_of_app. right.
    by left. }
  assert (∀ k, k ∈ l1 ++ l2 → vget (values_ (spliced_in l1 idx l2 v s)) k
                              = vget (values_ s) k) as Hext.
  { intros k Hk. simpl. apply vget_insert_ne; [|apply Hidx].
    intros ->. eapply repr_chain_not_free; [done..|].
    rewrite Hfl. apply elem_of_app. right. by left. }
  apply contents_app in Hc as [Hc1 Hc2]; [|done].
  apply contents_app; [done|]. split.
  - eapply contents_ext; [|done]. intros k Hk. apply Hext, elem_of_app. by left.
  - constructor.
    + simpl. apply vget_insert_eq. rewrite (repr_values _ _ _ R). apply Hidx.
    + eapply contents_ext; [|done]. intros k Hk.
      apply Hext, elem_of_app. by right.
Qed.

Lemma contents_spliced_out s l1 i l2 vs1 v vs2 :
  length l1 = length vs1 →
  contents s (l1 ++ i :: l2) (vs1 ++ v :: vs2) →
  contents (spliced_out l1 i l2 s) (l1 ++ l2) (vs1 ++ vs2).
Proof.
  intros Hlen Hc. apply contents_app in Hc as [Hc1 Hc2]; [|done].
  apply Forall2_cons_1 in Hc2 as [_ Hc2].
  apply contents_app; [done|]. by split.
Qed.

(** [pop_front] on a chain: the head slot leaves it, its value moved
    out. *)
Lemma pop_front_chain c s i l (v : T) vs :
  repr c s (i :: l) → contents s (i :: l) (v :: vs) →
  pop_front s = Ok v (spliced_out [] i l (moved_out i v s)) ∧
  repr c (spliced_out [] i l (moved_out i v s)) l ∧
  contents (spliced_out [] i l (moved_out i v s)) l vs.
Proof.
  intros R Hc. apply Forall2_cons_1 in Hc as [Hv Hc]. split_and!.
  - by apply (pop_front_repr c).
  - by apply (repr_spliced_out c _ [] i l), repr_moved_out.
  - apply (contents_moved_out s l vs i v); [| |done].
    + pose proof (repr_NoDup _ _ _ R) as Hnd.
      apply NoDup_app in Hnd as [Hnd _]. by apply NoDup_cons in Hnd as [? _].
    + apply (repr_chain_slot c s (i :: l)); [done|by left].
Qed.

End Traversal.

(** ** Objects used with live handles *)

Section ProperUse.
Context {T : Type} `{!Move T}.
Context (T_default : T).
Implicit Types (s : ArrayLinkedList T) (h : NodeHandle) (i : Z) (l : list Z).
Implicit Types (tr : trace T).

(** A handle that passes the check and whose slot is not free is a handle
    of a slot of the chain. *)
Lemma live_handle_in_chain c s l h :
  repr c s l → validates s h → Handle.index h ∉ free_list_ s →
  ∃ l1 l2, l = l1 ++ Handle.index h :: l2.
Proof.
  intros R Hv Hfree. apply list_elem_of_split.
  pose proof (validates_slot c s h (repr_shape _ _ _ R) Hv) as Hslot.
  by destruct (repr_slot_cases _ _ _ _ R Hslot).
Qed.

Lemma exec_repr c fuel (o : op T) s l s' :
  repr c s l → live_handles s o →
  state_of (exec fuel o s) = Some s' → ∃ l', repr c s' l'.
Proof.
  intros R Hlive. pose proof (repr_shape _ _ _ R) as Hs.
  destruct o as [v|v|h v|h|h| | |]; simpl;
    unfold push_front, push_back, insert_after; try unfold bind at 1.
  - destruct (snoc_cases (free_list_ s)) as [Hfl|(fl & idx & Hfl)].
    { rewrite emplace_front_Throw by done. intros [= <-]. eauto. }
    erewrite emplace_front_repr by done. intros [= <-].
    eexists. by eapply (repr_spliced_in c s []).
  - destruct (snoc_cases (free_list_ s)) as [Hfl|(fl & idx & Hfl)].
    { rewrite emplace_back_Throw by done. intros [= <-]. eauto. }
    erewrite emplace_back_repr by done. intros [= <-].
    eexists. eapply (repr_spliced_in c s l []); [|done].
    by rewrite app_nil_r.
  - destruct (validates_dec s h) as [Hv|Hv].
    2: { rewrite emplace_after_invalid by eauto using shape_lengths.
         intros [= <-]. eauto. }
    destruct (snoc_cases (free_list_ s)) as [Hfl|(fl & idx & Hfl)].
    { rewrite emplace_after_Throw by done. intros [= <-]. eauto. }
    destruct (live_handle_in_chain c s l h) as (l1 & l2 & ->); auto.
    erewrite emplace_after_repr by done. intros [= <-].
    eexists. eapply repr_spliced_in; [|done].
    by rewrite <-(assoc_L (++)).
  - destruct (validates_dec s h) as [Hv|Hv].
    2: { rewrite erase_invalid by eauto using shape_lengths.
         intros [= <-]. eauto. }
    destruct (live_handle_in_chain c s l h) as (l1 & l2 & ->); auto.
    erewrite erase_repr by done. intros [= <-].
    eexists. by eapply repr_spliced_out.
  - destruct (validates_dec s h) as [Hv|Hv].
    2: { rewrite erase_after_invalid by eauto using shape_lengths.
         intros [= <-]. eauto. }
    pose proof (validates_slot c s h Hs Hv) as Hslot.
    destruct (repr_slot_cases _ _ _ _ R Hslot) as [Hin|Hin].
    + apply list_elem_of_split in Hin as (l1 & l2 & ->).
      destruct l2 as [|t l2].
      * destruct (repr_links _ _ _ _ _ R) as [Hnx _].
        rewrite erase_after_Throw by done. intros [= <-]. eauto.
      * erewrite erase_after_repr by done. intros [= <-].
        eexists. eapply repr_spliced_out.
        by rewrite <-(assoc_L (++)).
    + destruct (repr_free _ _ _ R _ Hin) as [Hnx _].
      rewrite erase_after_Throw by done. intros [= <-]. eauto.
  - destruct l as [|i l].
    { rewrite pop_front_Throw by apply R. intros [= <-]. eauto. }
    destruct (repr_contents _ _ _ R) as [vs Hvs].
    apply Forall2_cons_inv_l in Hvs as (v & vs' & Hv & _ & _).
    erewrite pop_front_repr by done. intros [= <-].
    eexists. by eapply (repr_spliced_out c _ []), repr_moved_out.
  - intros Hst. pose proof (exec_shape c fuel ForEach s Hs) as He.
    simpl in He. unfold bind at 1 in He.
    destruct (for_each fuel s); simplify_eq/=.
    + destruct He as [_ ->]. eauto.
    + by destruct He.
  - intros [= <-]. eauto.
Qed.

Lemma reaches_repr c tr s :
  Z.of_nat c ≤ INT_MAX + 1 →
  reaches T_default live_handles c tr s → ∃ l, repr c s l.
Proof.
  intros Hc. induction 1 as [s Hs|tr s fuel o s' _ [l IH] Hal Hst].
  - exists []. by apply (make_repr T_default).
  - by eapply exec_repr.
Qed.

End ProperUse.

(** C6, the claim as it stands fails: the count of a list just built is 0. *)
Lemma fresh_list_size_zero :
  ∃ s : ArrayLinkedList unit, make tt 1 = inr s ∧ ¬ (0 < size s).
Proof. eexists. split; [reflexivity|]. simpl. lia. Qed.

(** C6, amended. In every state of an object built with capacity [c],
    [capacity()] is [c] and [0 ≤ size()]; and [size() ≤ c] in every state
    reached by calls none of which hands [erase] or [insert_after] a handle
    that passes the check while its slot is on the free list (the handle of
    an element already removed, or one that no insertion returned). *)
Theorem capacity_fixed_size_bounded {T : Type} `{!Move T} (T_default : T) (c : nat)
    (tr : trace T) (s : ArrayLinkedList T) :
  Z.of_nat c ≤ INT_MAX + 1 →
  reaches T_default any_call c tr s →
  capacity s = Z.of_nat c ∧
  0 ≤ size s ∧
  (reaches T_default live_handles c tr s → size s ≤ Z.of_nat c).
Proof.
  intros Hc Hr. split_and!.
  - unfold capacity. by rewrite (shape_values _ _ (reaches_shape _ _ _ _ _ Hc Hr)).
  - destruct (reaches_counts _ _ _ _ _ Hc Hr) as [_ Hsz].
    unfold size. rewrite Hsz. unfold wrap64.
    apply Z.mod_pos_bound. lia.
  - intros Hlive. destruct (reaches_repr _ _ _ _ Hc Hlive) as [l R].
    unfold size. rewrite (repr_size _ _ _ R).
    pose proof (repr_length _ _ _ R). lia.
Qed.

Section Order.
Context {T : Type} `{!Move T}.
Implicit Types (s : ArrayLinkedList T) (l : list Z) (vs ws : list T).

Lemma repr_free_empty c s l :
  repr c s l → free_list_ s = [] ↔ length l = c.
Proof.
  intros R. pose proof (repr_total _ _ _ R) as Htot.
  rewrite length_app in Htot. split.
  - intros H. rewrite H in Htot. simpl in Htot. lia.
  - intros H. apply length_zero_iff_nil. lia.
Qed.

Lemma push_back_all c fuel s l ws vs :
  repr c s l → contents s l ws →
  ∃ s' l', exec_all fuel (PushBack <$> vs) s = Some s' ∧
    repr c s' (l ++ l') ∧
    contents s' (l ++ l') (ws ++ take (c - length l) vs).
Proof.
  revert s l ws. induction vs as [|v vs IH]; intros s l ws R Hc.
  - exists s, []. rewrite take_nil, !app_nil_r. by simpl.
  - simpl. unfold push_back. unfold bind at 1.
    destruct (snoc_cases (free_list_ s)) as [Hfl|(fl & idx & Hfl)].
    + rewrite emplace_back_Throw by done. simpl.
      destruct (IH s l ws R Hc) as (s' & l' & Hex & R' & Hc').
      exists s', l'. split_and!; [done..|].
      apply (repr_free_empty _ _ _ R) in Hfl.
      rewrite Hfl, Nat.sub_diag in *. by rewrite take_0 in *.
    + erewrite emplace_back_repr by done. simpl.
      assert (repr c (spliced_in l idx [] v s) (l ++ [idx])) as R1.
      { eapply repr_spliced_in; [|done]. by rewrite app_nil_r. }
      assert (contents (spliced_in l idx [] v s) (l ++ [idx]) (ws ++ [v]))
        as Hc1.
      { eapply (contents_spliced_in c s l [] fl idx v ws []);
          rewrite ?app_nil_r; try done. by apply contents_length in Hc. }
      destruct (IH _ _ _ R1 Hc1) as (s' & l' & Hex & R' & Hc').
      exists s', (idx :: l'). rewrite <-!(assoc_L (++)) in *. simpl in *.
      split_and!; [done..|].
      pose proof (repr_length _ _ _ R1) as Hlen.
      rewrite length_app in *. simpl in *.
      replace (c - length l)%nat with (S (c - (length l + 1)))%nat by lia.
      done.
Qed.

Lemma push_front_all c fuel s l ws vs :
  repr c s l → contents s l ws →
  ∃ s' l', exec_all fuel (PushFront <$> vs) s = Some s' ∧
    repr c s' (l' ++ l) ∧
    contents s' (l' ++ l) (reverse (take (c - length l) vs) ++ ws).
Proof.
  revert s l ws. induction vs as [|v vs IH]; intros s l ws R Hc.
  - exists s, []. rewrite take_nil. by simpl.
  - simpl. unfold push_front. unfold bind at 1.
    destruct (snoc_cases (free_list_ s)) as [Hfl|(fl & idx & Hfl)].
    + rewrite emplace_front_Throw by done. simpl.
      destruct (IH s l ws R Hc) as (s' & l' & Hex & R' & Hc').
      exists s', l'. split_and!; [done..|].
      apply (repr_free_empty _ _ _ R) in Hfl.
      rewrite Hfl, Nat.sub_diag in *. by rewrite take_0 in *.
    + erewrite emplace_front_repr by done. simpl.
      assert (repr c (spliced_in [] idx l v s) (idx :: l)) as R1.
      { by eapply (repr_spliced_in c s []). }
      assert (contents (spliced_in [] idx l v s) (idx :: l) (v :: ws))
        as Hc1.
      { by eapply (contents_spliced_in c s [] l fl idx v []). }
      destruct (IH _ _ _ R1 Hc1) as (s' & l' & Hex & R' & Hc').
      exists s', (l' ++ [idx]). rewrite <-!(assoc_L (++)). simpl.
      split_and!; [done..|].
      pose proof (repr_length _ _ _ R1) as Hlen. simpl in *.
      replace (c - length l)%nat with (S (c - S (length l)))%nat by lia.
      simpl. by rewrite reverse_cons, <-(assoc_L (++)).
Qed.

End Order.

(** C7. On a list just built with capacity [c], after [push_back] has been
    called with the values [vs], one after the other, [for_each] visits the
    values stored, which are the first [c] of [vs] (all of [vs] when there
    are at most [c]), in the order of the calls; after [push_front] has
    been called with them, it visits them in the reverse order. *)
Theorem for_each_follows_insertion_order {T : Type} `{!Move T} (T_default : T)
    (c : nat) (s0 : ArrayLinkedList T) (vs : list T) (fuel : nat) :
  Z.of_nat c ≤ INT_MAX + 1 →
  make T_default c = inr s0 →
  (c < fuel)%nat →
  (∃ s calls, exec_all fuel (PushBack <$> vs) s0 = Some s ∧
     for_each fuel s = Ok calls s ∧ calls.*1 = take c vs) ∧
  (∃ s calls, exec_all fuel (PushFront <$> vs) s0 = Some s ∧
     for_each fuel s = Ok calls s ∧ calls.*1 = reverse (take c vs)).
Proof.
  intros Hc Hmk Hfuel. pose proof (make_repr _ _ _ Hc Hmk) as R.
  assert (contents s0 [] []) as Hc0 by constructor.
  split.
  - destruct (push_back_all c fuel s0 [] [] vs R Hc0)
      as (s & l & Hex & R' & Hc').
    simpl in *. rewrite Nat.sub_0_r in Hc'.
    exists s, (zip (take c vs) l). split_and!; [done| |].
    + apply (for_each_repr c); [done..|].
      pose proof (repr_length _ _ _ R'). lia.
    + apply fst_zip. apply contents_length in Hc'. lia.
  - destruct (push_front_all c fuel s0 [] [] vs R Hc0)
      as (s & l & Hex & R' & Hc').
    simpl in *. rewrite Nat.sub_0_r, !app_nil_r in *.
    exists s, (zip (reverse (take c vs)) l). split_and!; [done| |].
    + apply (for_each_repr c); [done..|].
      pose proof (repr_length _ _ _ R'). lia.
    + apply fst_zip. apply contents_length in Hc'. lia.
Qed.

(** X25. On an object used with live handles, [pop_front] throws [Empty]
    exactly when [size()] is 0, as it is on a list just built; otherwise it
    returns the value [for_each] visits first, [size()] goes down by one
    and [for_each] then visits the rest. *)
Theorem pop_front_removes_head {T : Type} `{!Move T} (T_default : T) (c : nat)
    (tr : trace T) (s : ArrayLinkedList T) (fuel : nat) :
  Z.of_nat c ≤ INT_MAX + 1 →
  reaches T_default live_handles c tr s →
  (c < fuel)%nat →
  ((∃ s', pop_front s = Throw Empty s') ↔ size s = 0) ∧
  (tr = [] → pop_front s = Throw Empty s) ∧
  (size s ≠ 0 →
   ∃ v i rest s',
     for_each fuel s = Ok ((v, i) :: rest) s ∧
     pop_front s = Ok v s' ∧
     size s' = size s - 1 ∧
     for_each fuel s' = Ok rest s').
Proof.
  intros Hc Hr Hfuel. split_and!.
  2: { intros Htr. destruct Hr as [s Hmk|tr]; [|by destruct tr].
       apply pop_front_Throw. unfold make in Hmk.
       case_decide; [done|]. by injection Hmk as <-. }
  all: destruct (reaches_repr _ _ _ _ Hc Hr) as [l R];
    destruct (repr_contents _ _ _ R) as [vs Hvs];
    pose proof (repr_size _ _ _ R) as Hsz; unfold size;
    destruct l as [|i l].
  - split; [done|]. intros _. exists s. apply pop_front_Throw, R.
  - apply Forall2_cons_inv_l in Hvs as (v & vs' & Hv & _ & _).
    erewrite pop_front_repr by done. split; [by intros [s' ?]|].
    rewrite Hsz. simpl. lia.
  - by rewrite Hsz.
  - intros _. apply Forall2_cons_inv_l in Hvs as (v & vs' & Hv & Hvs' & ->).
    pose proof (repr_spliced_out c _ [] i l (repr_moved_out c s _ i v R))
      as R'.
    assert (contents (spliced_out [] i l (moved_out i v s)) l vs') as Hc'.
    { apply (contents_moved_out s l vs' i v); [| |done].
      - pose proof (repr_NoDup _ _ _ R) as Hnd.
        apply NoDup_app in Hnd as [Hnd _]. by apply NoDup_cons in Hnd as [? _].
      - apply (repr_chain_slot c s (i :: l)); [done|by left]. }
    pose proof (repr_length _ _ _ R) as Hlen. simpl in Hlen.
    exists v, i, (zip vs' l), (spliced_out [] i l (moved_out i v s)).
    split_and!.
    + apply (for_each_repr c s (i :: l) (v :: vs')); [done| |simpl; lia].
      by constructor.
    + by eapply pop_front_repr.
    + rewrite (repr_size _ _ _ R'), Hsz. simpl. lia.
    + apply (for_each_repr c); [done..|simpl; lia].
Qed.

(** X26. On an object used with live handles, [erase_after] throws
    [InvalidHandle] when the handle does not pass the check, whatever the
    links are; when it passes, [erase_after] throws [NoSuccessor] if the
    [next_] link of the slot is [kNull], and otherwise takes the slot after
    it, and no other, out of what [for_each] visits and puts it on the free
    list. The row layout does the same. *)
Theorem erase_after_removes_successor {T : Type} `{!Move T} (T_default : T) (c : nat)
    (tr : trace T) (s : ArrayLinkedList T) (h : NodeHandle) (fuel : nat) :
  Z.of_nat c ≤ INT_MAX + 1 →
  reaches T_default live_handles c tr s →
  (c < fuel)%nat →
  (¬ validates s h → erase_after h s = Throw InvalidHandle s) ∧
  (validates s h →
   ∃ nx, vget (next_ s) (Handle.index h) = Some nx ∧
     (nx = kNull → erase_after h s = Throw NoSuccessor s) ∧
     (nx ≠ kNull →
      ∃ before v w after s',
        for_each fuel s
        = Ok (before ++ (v, Handle.index h) :: (w, nx) :: after) s ∧
        erase_after h s = Ok tt s' ∧
        for_each fuel s' = Ok (before ++ (v, Handle.index h) :: after) s' ∧
        free_list_ s' = free_list_ s ++ [nx] ∧
        size s' = size s - 1)) ∧
  (∀ sa, to_soa sa = s →
     map_res to_soa (arrlist_slow.erase_after h sa) = erase_after h s).
Proof.
  intros Hc Hr Hfuel. destruct (reaches_repr _ _ _ _ Hc Hr) as [l R].
  pose proof (repr_shape _ _ _ R) as Hs. split_and!.
  - intros Hv. apply erase_after_invalid; eauto using shape_lengths.
  - intros Hv. pose proof (validates_slot c s h Hs Hv) as Hslot.
    destruct (repr_slot_cases _ _ _ _ R Hslot) as [Hin|Hin].
    2: { destruct (repr_free _ _ _ R _ Hin) as [Hnx _].
         exists kNull. split_and!; [done| |done].
         intros _. by apply erase_after_Throw. }
    apply list_elem_of_split in Hin as (l1 & l2 & ->).
    destruct (repr_links _ _ _ _ _ R) as [Hnx _].
    exists (first_of kNull l2). split; [done|].
    destruct l2 as [|t l2]; simpl.
    { split; [|done]. intros _. by apply erase_after_Throw. }
    split.
    { intros Ht. destruct (is_slot_not_null c t); [|done].
      eapply repr_chain_slot; [done|]. apply elem_of_app. right. right.
      by left. }
    intros _. destruct (repr_contents _ _ _ R) as [vs Hvs].
    pose proof Hvs as Hsplit.
    apply Forall2_app_inv_l in Hsplit as (vs1 & vs' & Hvs1 & Hvs' & ->).
    apply Forall2_cons_inv_l in Hvs' as (v & vs'' & Hv1 & Hvs'' & ->).
    apply Forall2_cons_inv_l in Hvs'' as (w & vs2 & Hw & Hvs2 & ->).
    pose proof (Forall2_length _ _ _ Hvs1) as Hlen1.
    pose proof (repr_length _ _ _ R) as Hlen.
    assert (repr c s ((l1 ++ [Handle.index h]) ++ t :: l2)) as R1.
    { by rewrite <-(assoc_L (++)). }
    pose proof (repr_spliced_out c s _ t l2 R1) as R'.
    assert (contents (spliced_out (l1 ++ [Handle.index h]) t l2 s)
              ((l1 ++ [Handle.index h]) ++ l2) ((vs1 ++ [v]) ++ vs2)) as Hc'.
    { apply (contents_spliced_out s _ t l2 _ w vs2).
      - rewrite !length_app. simpl. lia.
      - by rewrite <-!(assoc_L (++)). }
    exists (zip vs1 l1), v, w, (zip vs2 l2),
      (spliced_out (l1 ++ [Handle.index h]) t l2 s). split_and!.
    + rewrite (for_each_repr c s _ _ fuel R Hvs) by lia.
      by rewrite zip_with_app by lia.
    + by eapply erase_after_repr.
    + pose proof (repr_length _ _ _ R').
      rewrite (for_each_repr c _ _ _ fuel R' Hc') by lia.
      rewrite <-!(assoc_L (++)). by rewrite zip_with_app by lia.
    + done.
    + unfold size. rewrite (repr_size _ _ _ R'), (repr_size _ _ _ R).
      rewrite !length_app. simpl. rewrite ?length_app. simpl. lia.
  - intros sa <-. symmetry. apply simulates_erase_after.
Qed.

(** ** The accessor [at] *)

Section At.
Context {T : Type} `{!Move T}.
Implicit Types (s : ArrayLinkedList T) (i : Z).

Lemma at_in_range s i :
  0 ≤ i < capacity s →
  ∃ v, vget (values_ s) i = Some v ∧ at_ i s = Ok v s.
Proof.
  unfold capacity. intros Hi.
  destruct (vget_is_Some (values_ s) i Hi) as [v Hv]. exists v.
  split; [done|]. unfold at_, ensure_valid_node, bind, gets, read. simpl.
  rewrite !decide_False by lia. simpl. by rewrite Hv.
Qed.

Lemma at_out_of_range s i :
  ¬ (0 ≤ i < capacity s) → at_ i s = Throw InvalidNode s.
Proof.
  unfold capacity. intros Hi.
  unfold at_, ensure_valid_node, bind, gets, read. simpl.
  destruct (decide (i < 0)); [done|].
  destruct (decide (i >= _)); [done|]. lia.
Qed.

Lemma at_values_only s s' i :
  values_ s = values_ s' → outcome_of (at_ i s) = outcome_of (at_ i s').
Proof.
  intros Hv. unfold at_, ensure_valid_node, bind, gets, read, throw, ret.
  cbv beta. rewrite Hv.
  destruct (decide (i < 0)); [done|].
  destruct (decide (i >= _)); [done|].
  cbv beta. rewrite Hv. by destruct (vget (values_ s') i).
Qed.

End At.

(** C10. In either layout, [at(index)] returns the value stored at the
    index when the index is in [[0, capacity())], and throws otherwise. What
    it returns or throws depends on the vector of values only, not on the
    generations or the free list: on a list just built it returns the
    default value of a slot, all of them free, and it returns the value of
    an element after the element has been erased. *)
Theorem at_checks_index_only {T : Type} (T_default : T) :
  (∀ (s : ArrayLinkedList T) i,
     (0 ≤ i < capacity s →
      ∃ v, vget (values_ s) i = Some v ∧ at_ i s = Ok v s) ∧
     (¬ (0 ≤ i < capacity s) → at_ i s = Throw InvalidNode s)) ∧
  (∀ (sa : arrlist_slow.ArrayLinkedList T) i,
     arrlist_slow.capacity sa = capacity (to_soa sa) ∧
     map_res to_soa (arrlist_slow.at_ i sa) = at_ i (to_soa sa)) ∧
  (∀ (s s' : ArrayLinkedList T) i,
     values_ s = values_ s' →
     outcome_of (at_ i s) = outcome_of (at_ i s')) ∧
  (∀ c (s : ArrayLinkedList T) i,
     Z.of_nat c ≤ INT_MAX + 1 → make T_default c = inr s → is_slot c i →
     i ∈ free_list_ s ∧ at_ i s = Ok T_default s) ∧
  (∀ c (s : ArrayLinkedList T) l h s',
     repr c s l → validates s h → Handle.index h ∈ l →
     erase h s = Ok tt s' →
     Handle.index h ∈ free_list_ s' ∧
     ∃ v, vget (values_ s) (Handle.index h) = Some v ∧
          at_ (Handle.index h) s' = Ok v s').
Proof.
  split_and!.
  - intros s i. split; [apply at_in_range|apply at_out_of_range].
  - intros sa i. split.
    + unfold arrlist_slow.capacity, capacity. simpl. by rewrite length_fmap.
    + symmetry. apply simulates_at.
  - apply @at_values_only.
  - intros c s i Hc Hmk Hi. pose proof (make_repr _ _ _ Hc Hmk) as R.
    destruct (repr_slot_cases _ _ _ _ R Hi) as [Hin|Hin].
    { by apply elem_of_nil in Hin. }
    split; [done|].
    destruct (at_in_range s i) as (v & Hv & Hat).
    { unfold capacity. by rewrite (repr_values _ _ _ R). }
    rewrite Hat. f_equal. unfold make in Hmk. case_decide; [done|].
    injection Hmk as <-. simpl in Hv. apply vget_Some in Hv as [_ Hv].
    by apply lookup_replicate_1 in Hv as [-> _].
  - intros c s l h s' R Hv Hin Her.
    apply list_elem_of_split in Hin as (l1 & l2 & ->).
    erewrite erase_repr in Her by done. injection Her as <-.
    split. { simpl. apply elem_of_app. right. by left. }
    pose proof (repr_chain_slot c s _ (Handle.index h) R) as Hslot.
    destruct (at_in_range (spliced_out l1 (Handle.index h) l2 s)
                (Handle.index h)) as (v & Hval & Hat).
    { unfold capacity. simpl. rewrite (repr_values _ _ _ R).
      apply Hslot, elem_of_app. right. by left. }
    by exists v.
Qed.

(** C1, where the code departs from the claim: with capacity 1,
    [h = push_back(v)], [erase(h)], then [erase(h)] again. The handle still
    passes the check after the first [erase]; the second [erase] returns
    instead of throwing [InvalidHandle], takes [size()] from 0 to
    [2^64 - 1] and puts slot 0 on the free list a second time. *)
Theorem erase_twice_returns {T : Type} `{!Move T} (T_default v : T) (fuel : nat) :
  let h := Handle.mk 0 1 in
  run_new T_default 1 fuel [PushBack v; Erase h; Erase h; Size]
  = [Returned (RHandle h); Returned RUnit; Returned RUnit;
     Returned (RSize (2 ^ 64 - 1))] ∧
  exec_all fuel [PushBack v; Erase h] (vacant T_default 0)
  = Some (vacant v 1) ∧
  validates (vacant v 1) h ∧
  erase h (vacant v 1)
  = Ok tt {| values_ := [v]; next_ := [kNull]; prev_ := [kNull];
             generations_ := [1]; free_list_ := [0; 0];
             head_ := kNull; tail_ := kNull; size_ := 2 ^ 64 - 1 |}.
Proof. by split_and!. Qed.

(** C8, where the code departs from the claim: [pop_front] tests [head_],
    not [size_], and the two disagree once [erase] has returned twice for
    one handle (C1). With capacity 1, after [h = push_back(v)], [erase(h)]
    and [erase(h)], [size()] is [2^64 - 1] and [pop_front] throws [Empty];
    after one more [push_back(w)], [size()] is 0 and [empty()] holds, and
    [pop_front] returns [w] and takes [size()] to [2^64 - 1]. *)
Theorem pop_front_disagrees_with_size {T : Type} `{!Move T}
    (T_default v w : T) (fuel : nat) :
  let h := Handle.mk 0 1 in
  let s1 := {| values_ := [v]; next_ := [kNull]; prev_ := [kNull];
               generations_ := [1]; free_list_ := [0; 0];
               head_ := kNull; tail_ := kNull; size_ := 2 ^ 64 - 1 |} in
  let s2 := {| values_ := [w]; next_ := [kNull]; prev_ := [kNull];
               generations_ := [2]; free_list_ := [0];
               head_ := 0; tail_ := 0; size_ := 0 |} in
  run_new T_default 1 fuel
    [PushBack v; Erase h; Erase h; Size; PopFront; PushBack w; Size;
     PopFront; Size]
  = [Returned (RHandle h); Returned RUnit; Returned RUnit;
     Returned (RSize (2 ^ 64 - 1)); Thrown Empty;
     Returned (RHandle (Handle.mk 0 2)); Returned (RSize 0);
     Returned (RValue w); Returned (RSize (2 ^ 64 - 1))] ∧
  make T_default 1 = inr (vacant T_default 0) ∧
  exec_all fuel [PushBack v; Erase h; Erase h] (vacant T_default 0)
  = Some s1 ∧
  size s1 ≠ 0 ∧ pop_front s1 = Throw Empty s1 ∧
  exec_all fuel [PushBack w] s1 = Some s2 ∧
  size s2 = 0 ∧ empty s2 = true ∧
  pop_front s2
  = Ok w {| values_ := [moved_from w]; next_ := [kNull]; prev_ := [kNull];
            generations_ := [2]; free_list_ := [0; 0];
            head_ := kNull; tail_ := kNull; size_ := 2 ^ 64 - 1 |}.
Proof. by split_and!. Qed.

(** C9, where the code departs from the claim: once [erase] has returned
    twice for one handle (C1), the slot is on the free list twice, and two
    calls of [push_back] take it twice and link it to itself. With capacity
    1, after [h = push_back(v)], [erase(h)], [erase(h)], [push_back(a)] and
    [h3 = push_back(b)], the handle [h3] passes the check and the [next_]
    of its slot is the slot itself, so [erase_after(h3)] throws nothing:
    it puts the slot of [h3] itself on the free list, and [for_each] goes
    on visiting it, while [size()] is 0. *)
Theorem erase_after_releases_visited_slot {T : Type} `{!Move T}
    (T_default v a b : T) (fuel : nat) :
  let h := Handle.mk 0 1 in
  let h3 := Handle.mk 0 3 in
  let s1 := {| values_ := [b]; next_ := [0]; prev_ := [0];
               generations_ := [3]; free_list_ := [];
               head_ := 0; tail_ := 0; size_ := 1 |} in
  let s2 := {| values_ := [b]; next_ := [kNull]; prev_ := [kNull];
               generations_ := [3]; free_list_ := [0];
               head_ := 0; tail_ := 0; size_ := 0 |} in
  run_new T_default 1 (S (S fuel))
    [PushBack v; Erase h; Erase h; PushBack a; PushBack b; EraseAfter h3;
     ForEach; Size]
  = [Returned (RHandle h); Returned RUnit; Returned RUnit;
     Returned (RHandle (Handle.mk 0 2)); Returned (RHandle h3);
     Returned RUnit; Returned (RVisited [(b, 0)]); Returned (RSize 0)] ∧
  make T_default 1 = inr (vacant T_default 0) ∧
  exec_all fuel [PushBack v; Erase h; Erase h; PushBack a; PushBack b]
    (vacant T_default 0)
  = Some s1 ∧
  validates s1 h3 ∧
  vget (next_ s1) (Handle.index h3) = Some (Handle.index h3) ∧
  erase_after h3 s1 = Ok tt s2 ∧
  Handle.index h3 ∈ free_list_ s2 ∧
  for_each (S (S fuel)) s2 = Ok [(b, Handle.index h3)] s2 ∧
  size s2 = 0.
Proof. split_and!; try done. simpl. by left. Qed.

(** ** The properties on an object of capacity 2 *)

Lemma demo_reaches (allowed : ArrayLinkedList nat → op nat → Prop) :
  (∀ s v, allowed s (PushBack v)) →
  reaches 0%nat allowed 2 demo_trace demo_list.
Proof.
  intros Hal.
  exact (reaches_step 0%nat allowed 2 _ demo_one 0%nat (PushBack 8%nat)
           demo_list
           (reaches_step 0%nat allowed 2 [] demo_empty 0%nat
              (PushBack 7%nat) demo_one
              (reaches_make 0%nat allowed 2 demo_empty eq_refl)
              (Hal _ _) eq_refl)
           (Hal _ _) eq_refl).
Defined.

Lemma demo_capacity : Z.of_nat 2 ≤ INT_MAX + 1.
Proof. unfold INT_MAX. lia. Defined.

Lemma failed_call_is_noop_witness :
  exec 0 PopFront demo_empty = Throw Empty demo_empty ∧
  demo_empty = demo_empty.
Proof.
  split; [reflexivity|].
  exact (proj1 (proj2 (proj2 (failed_call_is_noop 0%nat)))
           0%nat PopFront demo_empty Empty demo_empty eq_refl).
Defined.

Lemma size_counts_live_elements_witness :
  Z.of_nat 2 ≤ INT_MAX + 1 ∧
  reaches 0%nat any_call 2 demo_trace demo_list ∧
  size demo_list = wrap64 (live_count demo_trace) ∧
  live_count demo_trace ≤ Z.of_nat 2.
Proof.
  pose proof (demo_reaches any_call (λ _ _, I)) as Hr.
  destruct (size_counts_live_elements 0%nat 2 demo_trace demo_list
              demo_capacity Hr) as (Hs & Hle & _).
  exact (conj demo_capacity (conj Hr (conj Hs Hle))).
Defined.

Lemma generation_changes_on_allocation_witness :
  Z.of_nat 2 ≤ INT_MAX + 1 ∧
  reaches 0%nat any_call 2 demo_trace demo_list ∧
  ∃ g, generation_of demo_list 0 = Some g ∧ 0 ≤ g < 2 ^ 32.
Proof.
  pose proof (demo_reaches any_call (λ _ _, I)) as Hr.
  destruct (generation_changes_on_allocation 0%nat 2 demo_trace demo_list
              demo_capacity Hr) as [_ Hg].
  destruct (Hg 0) as (g & Hg0 & Hrange & _).
  { unfold is_slot. lia. }
  exact (conj demo_capacity (conj Hr (ex_intro _ g (conj Hg0 Hrange)))).
Defined.

Lemma capacity_fixed_size_bounded_witness :
  Z.of_nat 2 ≤ INT_MAX + 1 ∧
  reaches 0%nat any_call 2 demo_trace demo_list ∧
  reaches 0%nat live_handles 2 demo_trace demo_list ∧
  capacity demo_list = Z.of_nat 2 ∧
  0 ≤ size demo_list ≤ Z.of_nat 2.
Proof.
  pose proof (demo_reaches any_call (λ _ _, I)) as Hr.
  pose proof (demo_reaches live_handles (λ _ _, I)) as Hl.
  destruct (capacity_fixed_size_bounded 0%nat 2 demo_trace demo_list
              demo_capacity Hr) as (Hcap & H0 & Hle).
  exact (conj demo_capacity
           (conj Hr (conj Hl (conj Hcap (conj H0 (Hle Hl)))))).
Defined.

Lemma for_each_follows_insertion_order_witness :
  Z.of_nat 2 ≤ INT_MAX + 1 ∧
  make 0%nat 2 = inr demo_empty ∧
  (2 < 3)%nat ∧
  (∃ s calls, exec_all 3 (PushBack <$> [7%nat; 8%nat]) demo_empty = Some s ∧
     for_each 3 s = Ok calls s ∧ calls.*1 = take 2 [7%nat; 8%nat]) ∧
  (∃ s calls, exec_all 3 (PushFront <$> [7%nat; 8%nat]) demo_empty = Some s ∧
     for_each 3 s = Ok calls s ∧
     calls.*1 = reverse (take 2 [7%nat; 8%nat])).
Proof.
  assert (2 < 3)%nat as Hfuel by lia.
  exact (conj demo_capacity (conj eq_refl (conj Hfuel
           (for_each_follows_insertion_order 0%nat 2 demo_empty
              [7%nat; 8%nat] 3 demo_capacity eq_refl Hfuel)))).
Defined.

Lemma pop_front_removes_head_witness :
  Z.of_nat 2 ≤ INT_MAX + 1 ∧
  reaches 0%nat live_handles 2 demo_trace demo_list ∧
  (2 < 3)%nat ∧
  ((∃ s', pop_front demo_list = Throw Empty s') ↔ size demo_list = 0).
Proof.
  assert (2 < 3)%nat as Hfuel by lia.
  pose proof (demo_reaches live_handles (λ _ _, I)) as Hl.
  destruct (pop_front_removes_head 0%nat 2 demo_trace demo_list 3
              demo_capacity Hl Hfuel) as (Hiff & _).
  exact (conj demo_capacity (conj Hl (conj Hfuel Hiff))).
Defined.

Lemma erase_after_removes_successor_witness :
  Z.of_nat 2 ≤ INT_MAX + 1 ∧
  reaches 0%nat live_handles 2 demo_trace demo_list ∧
  (2 < 3)%nat ∧
  (¬ validates demo_list (Handle.mk 0 2) →
   erase_after (Handle.mk 0 2) demo_list = Throw InvalidHandle demo_list).
Proof.
  assert (2 < 3)%nat as Hfuel by lia.
  pose proof (demo_reaches live_handles (λ _ _, I)) as Hl.
  destruct (erase_after_removes_successor 0%nat 2 demo_trace demo_list
              (Handle.mk 0 2) 3 demo_capacity Hl Hfuel) as (Hinv & _).
  exact (conj demo_capacity (conj Hl (conj Hfuel Hinv))).
Defined.

Lemma at_checks_index_only_witness :
  0 ≤ 1 < capacity demo_list ∧
  ∃ v, vget (values_ demo_list) 1 = Some v ∧ at_ 1 demo_list = Ok v demo_list.
Proof.
  assert (0 ≤ 1 < capacity demo_list) as Hi by (unfold capacity; simpl; lia).
  exact (conj Hi
           (proj1 (proj1 (at_checks_index_only 0%nat) demo_list 1) Hi)).
Defined.

(** * Further properties *)

(** ** Handles over calls *)

Section Handles.
Context {T : Type} `{!Move T}.
Context (T_default : T).
Implicit Types (s : ArrayLinkedList T) (h : NodeHandle) (i : Z) (l : list Z).
Implicit Types (tr : trace T).

Lemma validates_intro c s h :
  shape c s → is_slot c (Handle.index h) →
  generation_of s (Handle.index h) = Some (Handle.generation h) →
  validates s h.
Proof.
  intros Hs Hi Hg. apply validates_iff. split; [|done].
  by rewrite (shape_values _ _ Hs).
Qed.

(** What an insertion that returned has done. *)
Lemma exec_insertion c fuel (o : op T) s h s' :
  shape c s → exec fuel o s = Ok (RHandle h) s' →
  shape c s' ∧ is_slot c (Handle.index h) ∧
  ∃ g, Handle.generation h = wrap32 (g + 1) ∧
       allocated s s' (Handle.index h) g.
Proof.
  intros Hs Hex. pose proof (exec_shape c fuel o s Hs) as He.
  rewrite Hex in He. destruct He as [Hs' He].
  apply exec_handle in Hex.
  assert (∃ idx g, @RHandle T h = RHandle (Handle.mk idx (wrap32 (g + 1))) ∧
                   allocated s s' idx g) as (idx & g & [= ->] & Hal).
  { by destruct o. }
  simpl. split_and!; [done| |by exists g].
  destruct Hal as (Hfl & _). exact (shape_free_slot _ _ _ _ Hs Hfl).
Qed.

Lemma exec_insertion_validates c fuel (o : op T) s h s' :
  shape c s → exec fuel o s = Ok (RHandle h) s' → validates s' h.
Proof.
  intros Hs Hex.
  destruct (exec_insertion _ _ _ _ _ _ Hs Hex) as (Hs' & Hi & g & Hh & Hal).
  apply (validates_intro c); [done..|].
  destruct Hal as (_ & Hg & Hgens & _). unfold generation_of. rewrite Hgens.
  rewrite Hh. apply vget_insert_eq. by apply vget_lt in Hg.
Qed.

End Handles.

(** X1. The handle an insertion returns passes the check right after the
    insertion, whatever was called on the list before. *)
Theorem inserted_handle_validates {T : Type} `{!Move T} (T_default : T) (c : nat)
    (tr : trace T) (s : ArrayLinkedList T) (fuel : nat) (o : op T)
    (h : NodeHandle) (s' : ArrayLinkedList T) :
  Z.of_nat c ≤ INT_MAX + 1 →
  reaches T_default any_call c tr s →
  exec fuel o s = Ok (RHandle h) s' →
  validates s' h ∧ is_insertion o = true ∧ 0 ≤ Handle.index h < capacity s'.
Proof.
  intros Hc Hr Hex. pose proof (reaches_shape _ _ _ _ _ Hc Hr) as Hs.
  destruct (exec_insertion _ _ _ _ _ _ Hs Hex) as (Hs' & Hi & _).
  split_and!.
  - exact (exec_insertion_validates _ _ _ _ _ _ Hs Hex).
  - exact (exec_handle _ _ _ _ _ Hex).
  - apply Hi.
  - unfold capacity. rewrite (shape_values _ _ Hs'). apply Hi.
Qed.

(** X2. Once an insertion has taken a slot, a handle that passed the check
    for that slot before the insertion fails it afterwards, and so does
    every handle of that slot with another generation than the one
    returned: [erase], [erase_after] and [insert_after] throw
    [InvalidHandle] on it. *)
Theorem reused_slot_rejects_old_handle {T : Type} `{!Move T} (T_default : T) (c : nat)
    (tr : trace T) (s : ArrayLinkedList T) (fuel : nat) (o : op T)
    (h' : NodeHandle) (s' : ArrayLinkedList T) (h : NodeHandle) :
  Z.of_nat c ≤ INT_MAX + 1 →
  reaches T_default any_call c tr s →
  exec fuel o s = Ok (RHandle h') s' →
  Handle.index h = Handle.index h' →
  (validates s h ∨ Handle.generation h ≠ Handle.generation h') →
  ¬ validates s' h ∧
  erase h s' = Throw InvalidHandle s' ∧
  erase_after h s' = Throw InvalidHandle s' ∧
  ∀ v, insert_after h v s' = Throw InvalidHandle s'.
Proof.
  intros Hc Hr Hex Hidx Hold.
  pose proof (reaches_shape _ _ _ _ _ Hc Hr) as Hs.
  pose proof (reaches_generations_range _ _ _ _ _ Hc Hr) as Hrange.
  destruct (exec_insertion _ _ _ _ _ _ Hs Hex) as (Hs' & Hi & g & Hh & Hal).
  pose proof (exec_insertion_validates _ _ _ _ _ _ Hs Hex) as Hv'.
  assert (¬ validates s' h) as Hinv.
  { intros Hv. apply validates_generation in Hv.
    apply validates_generation in Hv'. rewrite Hidx, Hv' in Hv.
    injection Hv as Hgen. destruct Hold as [Hvs|Hne]; [|done].
    apply validates_generation in Hvs. rewrite Hidx in Hvs.
    destruct Hal as (_ & Hg & _). rewrite Hg in Hvs. injection Hvs as Hg'.
    pose proof (Forall_vget _ _ _ _ Hrange Hg) as Hgr. simpl in Hgr.
    rewrite Hh in Hgen. rewrite <-Hg' in Hgen.
    unfold wrap32 in Hgen.
    destruct (decide (g = 2 ^ 32 - 1)) as [->|].
    - by vm_compute in Hgen.
    - rewrite Z.mod_small in Hgen; lia. }
  pose proof (shape_lengths _ _ Hs') as Hlen.
  split_and!; [done| | |intros v].
  - by apply erase_invalid.
  - by apply erase_after_invalid.
  - by apply emplace_after_invalid.
Qed.

Section Stability.
Context {T : Type} `{!Move T}.
Context (T_default : T).
Implicit Types (s : ArrayLinkedList T) (h : NodeHandle) (i : Z) (l : list Z).
Implicit Types (tr : trace T).

(** A call writes the value of no slot but the one it takes and the one
    it moves the value out of. *)
Lemma exec_values c fuel (o : op T) s a s' i :
  shape c s → exec fuel o s = Ok a s' →
  (∀ h', a = RHandle h' → Handle.index h' ≠ i) →
  (o = PopFront → head_ s ≠ i) →
  vget (values_ s') i = vget (values_ s) i.
Proof.
  intros Hs Hex Hi Hpop. pose proof (exec_shape c fuel o s Hs) as He.
  rewrite Hex in He. destruct He as [_ He].
  destruct o as [v|v|h v|h|h| | |]; simpl in Hex, He;
    unfold push_front, push_back, insert_after in Hex;
    try unfold bind at 1 in Hex.
  - destruct (snoc_cases (free_list_ s)) as [Hfl|(fl & idx & Hfl)].
    { by rewrite emplace_front_Throw in Hex. }
    pose proof (shape_free_slot _ _ _ _ Hs Hfl) as Hidx.
    destruct (shape_generation _ _ _ Hs Hidx) as [g Hg].
    erewrite emplace_front_Ok in Hex by done. unfold ret in Hex. simplify_eq/=.
    apply vget_insert_ne; [|apply Hidx]. by apply (Hi _ eq_refl).
  - destruct (snoc_cases (free_list_ s)) as [Hfl|(fl & idx & Hfl)].
    { by rewrite emplace_back_Throw in Hex. }
    pose proof (shape_free_slot _ _ _ _ Hs Hfl) as Hidx.
    destruct (shape_generation _ _ _ Hs Hidx) as [g Hg].
    erewrite emplace_back_Ok in Hex by done. unfold ret in Hex. simplify_eq/=.
    apply vget_insert_ne; [|apply Hidx]. by apply (Hi _ eq_refl).
  - destruct (validates_dec s h) as [Hv|Hv].
    2: { by rewrite emplace_after_invalid in Hex
           by eauto using shape_lengths. }
    destruct (snoc_cases (free_list_ s)) as [Hfl|(fl & idx & Hfl)].
    { by rewrite emplace_after_Throw in Hex. }
    pose proof (shape_free_slot _ _ _ _ Hs Hfl) as Hidx.
    destruct (shape_generation _ _ _ Hs Hidx) as [g Hg].
    destruct (vget_is_Some (<[Z.to_nat idx := kNull]> (next_ s))
                (Handle.index h)) as [old_next Hold].
    { rewrite length_insert, (shape_next _ _ Hs).
      by eapply validates_slot. }
    erewrite emplace_after_Ok in Hex by done. unfold ret in Hex. simplify_eq/=.
    apply vget_insert_ne; [|apply Hidx]. by apply (Hi _ eq_refl).
  - destruct He as (idx & _ & _ & -> & _). done.
  - destruct He as (idx & _ & _ & -> & _). done.
  - destruct He as (idx & _ & _ & (v & _ & Hhd & Hv & ->) & _).
    apply vget_insert_ne; [|apply vget_lt in Hv; lia].
    rewrite <-Hhd. by apply Hpop.
  - by subst.
  - by subst.
Qed.

(** [pop_front] leaves in the head slot what the move leaves. *)
Lemma pop_front_value c s v s' :
  shape c s → pop_front s = Ok v s' →
  vget (values_ s) (head_ s) = Some v ∧
  vget (values_ s') (head_ s) = Some (moved_from v).
Proof.
  intros Hs Hex. pose proof (pop_front_shape c s Hs) as He.
  rewrite Hex in He.
  destruct He as (_ & idx & _ & _ & (w & [= ->] & <- & Hv & ->) & _).
  split; [done|]. apply vget_insert_eq. by apply vget_lt in Hv.
Qed.

End Stability.

(** X3. No call takes away the validity of the handle of another slot: a
    handle that passes the check before a call passes it after the call,
    unless the call is an insertion that returned a handle with the same
    index. [at] then returns the same value at its index as before the
    call, except at the head slot after [pop_front], whose handle still
    passes the check and where [at] returns what the move has left of the
    value. *)
Theorem other_handles_stay_valid {T : Type} `{!Move T} (T_default : T) (c : nat)
    (tr : trace T) (s : ArrayLinkedList T) (fuel : nat) (o : op T)
    (s' : ArrayLinkedList T) (h : NodeHandle) :
  Z.of_nat c ≤ INT_MAX + 1 →
  reaches T_default any_call c tr s →
  state_of (exec fuel o s) = Some s' →
  validates s h →
  (∀ h', outcome_of (exec fuel o s) = Returned (RHandle h') →
         Handle.index h' ≠ Handle.index h) →
  validates s' h ∧
  ∃ v, at_ (Handle.index h) s = Ok v s ∧
    (o = PopFront → head_ s = Handle.index h →
     outcome_of (exec fuel o s) = Returned (RValue v) ∧
     at_ (Handle.index h) s' = Ok (moved_from v) s') ∧
    (¬ (o = PopFront ∧ head_ s = Handle.index h) →
     at_ (Handle.index h) s' = Ok v s').
Proof.
  intros Hc Hr Hst Hv Hother.
  pose proof (reaches_shape _ _ _ _ _ Hc Hr) as Hs.
  pose proof (validates_slot _ _ _ Hs Hv) as Hslot.
  assert (shape c s') as Hs'.
  { pose proof (exec_shape c fuel o s Hs) as He.
    destruct (exec fuel o s); simplify_eq/=; [tauto|].
    by destruct He as [-> _]. }
  split.
  - apply (validates_intro c); [done..|].
    rewrite (exec_generation c fuel o s s' _ _ Hs Hst
               (validates_generation _ _ Hv)).
    f_equal. unfold generation_after.
    destruct (outcome_of _) as [[h'| | | |]| | |] eqn:Hout; try done.
    rewrite decide_False; [done|]. by apply Hother.
  - destruct (at_in_range s (Handle.index h)) as (v & Hval & Hat).
    { unfold capacity. rewrite (shape_values _ _ Hs). apply Hslot. }
    destruct (at_in_range s' (Handle.index h)) as (v' & Hval' & Hat').
    { unfold capacity. rewrite (shape_values _ _ Hs'). apply Hslot. }
    exists v. split_and!; [done| |].
    + intros -> Hhd. simpl in Hst |- *. unfold bind in Hst |- *.
      destruct (decide (head_ s = kNull)) as [Hnull|Hnull].
      { destruct (is_slot_not_null c (Handle.index h) Hslot). congruence. }
      pose proof (pop_front_shape c s Hs) as He.
      destruct (pop_front s) as [w s1|e s1| |] eqn:Hex; simplify_eq/=.
      * destruct (pop_front_value c s w s' Hs Hex) as [Hw Hw'].
        rewrite Hhd in Hw, Hw'. split; [congruence|].
        rewrite Hat'. f_equal. congruence.
      * by destruct He as (_ & _ & ?).
    + intros Hnot.
      assert (vget (values_ s') (Handle.index h)
              = vget (values_ s) (Handle.index h)) as Hvals.
      { pose proof (atomic_exec fuel o s) as Hatom.
        destruct (exec fuel o s) as [a s1|e s1| |] eqn:Hex; simplify_eq/=.
        - eapply exec_values; [done..| |].
          + intros h' ->. by apply Hother.
          + intros -> Hhd. by apply Hnot.
        - by rewrite (Hatom e s' eq_refl). }
      rewrite Hat'. f_equal. congruence.
Qed.

(** ** Insertion and removal in the order of traversal *)

Section InOrder.
Context {T : Type} `{!Move T}.
Implicit Types (s : ArrayLinkedList T) (h : NodeHandle) (i : Z) (l : list Z).

Lemma repr_size_full c s l :
  repr c s l → size s = Z.of_nat c ↔ free_list_ s = [].
Proof.
  intros R. rewrite (repr_free_empty _ _ _ R). unfold size.
  rewrite (repr_size _ _ _ R). lia.
Qed.

(** The values of a chain split where the chain does. *)
Lemma contents_split s l1 i l2 vs :
  contents s (l1 ++ i :: l2) vs →
  ∃ vs1 v vs2, vs = vs1 ++ v :: vs2 ∧ length l1 = length vs1 ∧
               length l2 = length vs2 ∧ vget (values_ s) i = Some v.
Proof.
  intros Hvs.
  apply Forall2_app_inv_l in Hvs as (vs1 & vs' & Hvs1 & Hvs' & ->).
  apply Forall2_cons_inv_l in Hvs' as (v & vs2 & Hv & Hvs2 & ->).
  exists vs1, v, vs2. split_and!; [done| | |done].
  - by apply Forall2_length in Hvs1.
  - by apply Forall2_length in Hvs2.
Qed.

Lemma zip_splice (vs1 vs2 : list T) v l1 l2 i :
  length l1 = length vs1 →
  zip (vs1 ++ v :: vs2) (l1 ++ i :: l2) = zip vs1 l1 ++ (v, i) :: zip vs2 l2.
Proof. intros Hlen. by rewrite zip_with_app by lia. Qed.

Lemma zip_join (vs1 vs2 : list T) l1 l2 :
  length l1 = length vs1 →
  zip (vs1 ++ vs2) (l1 ++ l2) = zip vs1 l1 ++ zip vs2 l2.
Proof. intros Hlen. by rewrite zip_with_app by lia. Qed.

End InOrder.

(** X4. On an object used with live handles, [erase] throws
    [InvalidHandle] on a handle that does not pass the check; given the
    handle of an element it takes that element, and no other, out of what
    [for_each] visits, keeps the order of the rest, takes [size()] down by
    one and puts the slot on the free list. *)
Theorem erase_removes_element {T : Type} `{!Move T} (T_default : T) (c : nat)
    (tr : trace T) (s : ArrayLinkedList T) (h : NodeHandle) (fuel : nat) :
  Z.of_nat c ≤ INT_MAX + 1 →
  reaches T_default live_handles c tr s →
  (c < fuel)%nat →
  (¬ validates s h → erase h s = Throw InvalidHandle s) ∧
  (validates s h → Handle.index h ∉ free_list_ s →
   ∃ before v after s',
     for_each fuel s = Ok (before ++ (v, Handle.index h) :: after) s ∧
     erase h s = Ok tt s' ∧
     for_each fuel s' = Ok (before ++ after) s' ∧
     size s' = size s - 1 ∧
     free_list_ s' = free_list_ s ++ [Handle.index h]).
Proof.
  intros Hc Hr Hfuel. destruct (reaches_repr _ _ _ _ Hc Hr) as [l R].
  pose proof (repr_shape _ _ _ R) as Hs. split.
  { intros Hv. apply erase_invalid; eauto using shape_lengths. }
  intros Hv Hfree.
  destruct (live_handle_in_chain c s l h R Hv Hfree) as (l1 & l2 & ->).
  destruct (repr_contents _ _ _ R) as [vs Hvs].
  destruct (contents_split _ _ _ _ _ Hvs)
    as (vs1 & v & vs2 & -> & Hlen1 & Hlen2 & Hval).
  pose proof (repr_spliced_out c s _ _ l2 R) as R'.
  pose proof (contents_spliced_out s _ _ l2 _ v vs2 Hlen1 Hvs) as Hvs'.
  pose proof (repr_length _ _ _ R) as Hlen.
  pose proof (repr_length _ _ _ R') as Hlen'.
  exists (zip vs1 l1), v, (zip vs2 l2),
    (spliced_out l1 (Handle.index h) l2 s). split_and!.
  - rewrite (for_each_repr c s _ _ fuel R Hvs) by lia.
    by rewrite zip_splice.
  - by eapply erase_repr.
  - rewrite (for_each_repr c _ _ _ fuel R' Hvs') by lia.
    by rewrite zip_join.
  - unfold size. rewrite (repr_size _ _ _ R'), (repr_size _ _ _ R).
    rewrite !length_app. simpl. lia.
  - done.
Qed.

(** X5. On an object used with live handles, [insert_after], given the
    handle of an element, throws [CapacityExhausted] when [size()] is the
    capacity; otherwise the new value is visited by [for_each] right after
    that element, the rest keeps its order, [size()] goes up by one and the
    handle returned passes the check. *)
Theorem insert_after_places_successor {T : Type} `{!Move T} (T_default : T) (c : nat)
    (tr : trace T) (s : ArrayLinkedList T) (h : NodeHandle) (v : T)
    (fuel : nat) :
  Z.of_nat c ≤ INT_MAX + 1 →
  reaches T_default live_handles c tr s →
  (c < fuel)%nat →
  validates s h → Handle.index h ∉ free_list_ s →
  (size s = Z.of_nat c →
   insert_after h v s = Throw CapacityExhausted s) ∧
  (size s ≠ Z.of_nat c →
   ∃ before w after h' s',
     for_each fuel s = Ok (before ++ (w, Handle.index h) :: after) s ∧
     insert_after h v s = Ok h' s' ∧
     for_each fuel s'
     = Ok (before ++ (w, Handle.index h) :: (v, Handle.index h') :: after)
         s' ∧
     size s' = size s + 1 ∧
     validates s' h').
Proof.
  intros Hc Hr Hfuel Hv Hfree. destruct (reaches_repr _ _ _ _ Hc Hr) as [l R].
  pose proof (repr_shape _ _ _ R) as Hs. split.
  { intros Hfull. apply (repr_size_full _ _ _ R) in Hfull.
    by apply emplace_after_Throw. }
  intros Hroom.
  destruct (snoc_cases (free_list_ s)) as [Hfl|(fl & idx & Hfl)].
  { by apply (repr_size_full _ _ _ R) in Hfl. }
  destruct (live_handle_in_chain c s l h R Hv Hfree) as (l1 & l2 & ->).
  destruct (repr_contents _ _ _ R) as [vs Hvs].
  destruct (contents_split _ _ _ _ _ Hvs)
    as (vs1 & w & vs2 & -> & Hlen1 & Hlen2 & Hval).
  assert (repr c s ((l1 ++ [Handle.index h]) ++ l2)) as R1.
  { by rewrite <-(assoc_L (++)). }
  pose proof (repr_spliced_in c s _ l2 fl idx v R1 Hfl) as R'.
  assert (contents (spliced_in (l1 ++ [Handle.index h]) idx l2 v s)
            ((l1 ++ [Handle.index h]) ++ idx :: l2)
            ((vs1 ++ [w]) ++ v :: vs2)) as Hvs'.
  { apply (contents_spliced_in c s _ l2 fl idx); [done..| |].
    - rewrite !length_app. simpl. lia.
    - by rewrite <-!(assoc_L (++)). }
  pose proof (repr_length _ _ _ R) as Hlen.
  pose proof (repr_length _ _ _ R') as Hlen'.
  pose proof (emplace_after_repr c s l1 l2 fl idx h v R Hv Hfl) as Hex.
  eexists (zip vs1 l1), w, (zip vs2 l2), _, _. split_and!.
  - rewrite (for_each_repr c s _ _ fuel R Hvs) by lia.
    by rewrite zip_splice.
  - exact Hex.
  - rewrite (for_each_repr c _ _ _ fuel R' Hvs') by lia.
    rewrite <-!(assoc_L (++)). simpl.
    by rewrite zip_splice by done.
  - unfold size. rewrite (repr_size _ _ _ R'), (repr_size _ _ _ R).
    rewrite !length_app. simpl. rewrite ?length_app. simpl. lia.
  - eapply (exec_insertion_validates c 0%nat (InsertAfter h v) s); [done|].
    simpl. unfold bind, insert_after. by rewrite Hex.
Qed.

(** X6. On an object used with live handles, [push_back] and [push_front]
    throw [CapacityExhausted] when [size()] is the capacity; otherwise
    [for_each] visits the new value last after [push_back], first after
    [push_front], around what it visited before, and [size()] goes up by
    one. *)
Theorem push_extends_traversal {T : Type} `{!Move T} (T_default : T) (c : nat)
    (tr : trace T) (s : ArrayLinkedList T) (v : T) (fuel : nat) :
  Z.of_nat c ≤ INT_MAX + 1 →
  reaches T_default live_handles c tr s →
  (c < fuel)%nat →
  ∃ calls, for_each fuel s = Ok calls s ∧
    (size s = Z.of_nat c →
     push_back v s = Throw CapacityExhausted s ∧
     push_front v s = Throw CapacityExhausted s) ∧
    (size s ≠ Z.of_nat c →
     (∃ h s', push_back v s = Ok h s' ∧
        for_each fuel s' = Ok (calls ++ [(v, Handle.index h)]) s' ∧
        size s' = size s + 1) ∧
     (∃ h s', push_front v s = Ok h s' ∧
        for_each fuel s' = Ok ((v, Handle.index h) :: calls) s' ∧
        size s' = size s + 1)).
Proof.
  intros Hc Hr Hfuel. destruct (reaches_repr _ _ _ _ Hc Hr) as [l R].
  destruct (repr_contents _ _ _ R) as [vs Hvs].
  pose proof (repr_length _ _ _ R) as Hlen.
  pose proof (contents_length _ _ _ Hvs) as Hlvs.
  exists (zip vs l). split_and!.
  - apply (for_each_repr c); [done..|lia].
  - intros Hfull. apply (repr_size_full _ _ _ R) in Hfull.
    unfold push_back, push_front.
    by rewrite emplace_back_Throw, emplace_front_Throw.
  - intros Hroom.
    destruct (snoc_cases (free_list_ s)) as [Hfl|(fl & idx & Hfl)].
    { by apply (repr_size_full _ _ _ R) in Hfl. }
    split.
    + assert (repr c s (l ++ [])) as R0 by (by rewrite app_nil_r).
      pose proof (repr_spliced_in c s l [] fl idx v R0 Hfl) as R'.
      assert (contents (spliced_in l idx [] v s) (l ++ [idx]) (vs ++ [v]))
        as Hvs'.
      { apply (contents_spliced_in c s l [] fl idx v vs []);
          rewrite ?app_nil_r; done. }
      pose proof (repr_length _ _ _ R') as Hlen'.
      exists (Handle.mk idx (wrap32 (default 0 (generation_of s idx) + 1))),
        (spliced_in l idx [] v s). split_and!.
      * unfold push_back. by eapply emplace_back_repr.
      * rewrite (for_each_repr c _ _ _ fuel R' Hvs') by lia.
        simpl. by rewrite zip_join by done.
      * unfold size. rewrite (repr_size _ _ _ R'), (repr_size _ _ _ R).
        rewrite length_app. simpl. lia.
    + pose proof (repr_spliced_in c s [] l fl idx v R Hfl) as R'.
      assert (contents (spliced_in [] idx l v s) (idx :: l) (v :: vs))
        as Hvs'.
      { by apply (contents_spliced_in c s [] l fl idx v [] vs). }
      pose proof (repr_length _ _ _ R') as Hlen'.
      exists (Handle.mk idx (wrap32 (default 0 (generation_of s idx) + 1))),
        (spliced_in [] idx l v s). split_and!.
      * unfold push_front. by eapply emplace_front_repr.
      * by rewrite (for_each_repr c _ _ _ fuel R' Hvs') by lia.
      * unfold size. rewrite (repr_size _ _ _ R'), (repr_size _ _ _ R).
        simpl. lia.
Qed.

(** X11. On an object used with live handles, [for_each] returns, after
    [size()] calls of its argument; the slots it visits are distinct, in
    range and not on the free list, and the value it passes for a slot is
    the one [at] returns for that slot. *)
Theorem for_each_visits_every_element {T : Type} `{!Move T} (T_default : T) (c : nat)
    (tr : trace T) (s : ArrayLinkedList T) (fuel : nat) :
  Z.of_nat c ≤ INT_MAX + 1 →
  reaches T_default live_handles c tr s →
  (c < fuel)%nat →
  ∃ calls, for_each fuel s = Ok calls s ∧
    Z.of_nat (length calls) = size s ∧
    NoDup calls.*2 ∧
    ∀ v i, (v, i) ∈ calls →
      is_slot c i ∧ (i ∉ free_list_ s) ∧ at_ i s = Ok v s.
Proof.
  intros Hc Hr Hfuel. destruct (reaches_repr _ _ _ _ Hc Hr) as [l R].
  destruct (repr_contents _ _ _ R) as [vs Hvs].
  pose proof (repr_length _ _ _ R) as Hlen.
  pose proof (contents_length _ _ _ Hvs) as Hlvs.
  exists (zip vs l). split_and!.
  - apply (for_each_repr c); [done..|lia].
  - unfold size. rewrite (repr_size _ _ _ R), length_zip_with. lia.
  - rewrite snd_zip by lia.
    pose proof (repr_NoDup _ _ _ R) as Hnd. by apply NoDup_app in Hnd as [? _].
  - intros v i Hin. apply list_elem_of_lookup in Hin as [k Hk].
    apply lookup_zip_with_Some in Hk as (v' & i' & [= <- <-] & Hv & Hi).
    assert (i ∈ l) as Hil by (by eapply list_elem_of_lookup_2).
    split_and!.
    + by eapply repr_chain_slot.
    + by eapply repr_chain_not_free.
    + destruct (at_in_range s i) as (v' & Hval & Hat).
      { unfold capacity. rewrite (repr_values _ _ _ R).
        by eapply repr_chain_slot. }
      rewrite Hat. f_equal.
      pose proof (Forall2_lookup_lr _ _ _ _ _ _ Hvs Hi Hv) as Hget.
      simpl in Hget. congruence.
Qed.

(** ** Order of the checks, reuse of slots *)

(** X7. [insert_after] checks the handle before it looks for a free slot:
    on a full list a handle that does not pass the check gets
    [InvalidHandle], one that passes gets [CapacityExhausted]; whatever
    was called on the list before. *)
Theorem insert_after_checks_handle_first {T : Type} `{!Move T} (T_default : T)
    (c : nat) (tr : trace T) (s : ArrayLinkedList T) (h : NodeHandle)
    (v : T) :
  Z.of_nat c ≤ INT_MAX + 1 →
  reaches T_default any_call c tr s →
  (¬ validates s h → insert_after h v s = Throw InvalidHandle s) ∧
  (validates s h → free_list_ s = [] →
   insert_after h v s = Throw CapacityExhausted s) ∧
  (validates s h → free_list_ s ≠ [] →
   ∃ h' s', insert_after h v s = Ok h' s').
Proof.
  intros Hc Hr. pose proof (reaches_shape _ _ _ _ _ Hc Hr) as Hs.
  split_and!.
  - intros Hv. apply emplace_after_invalid; eauto using shape_lengths.
  - intros Hv Hfl. by apply emplace_after_Throw.
  - intros Hv Hfl. pose proof (emplace_after_shape c s h v Hs) as He.
    unfold insert_after.
    destruct (emplace_after h v s) as [h' s'|e s'| |]; [eauto| |done..].
    destruct He as [_ [[_ ?]|(_ & _ & ?)]]; done.
Qed.

Section Reuse.
Context {T : Type} `{!Move T}.
Implicit Types (s : ArrayLinkedList T) (h : NodeHandle) (i : Z) (l : list Z).

(** The slot an [erase] that returned has put on the free list. *)
Lemma erase_released c s h s' :
  shape c s → erase h s = Ok tt s' →
  validates s h ∧ released s s' (Handle.index h).
Proof.
  intros Hs Hex. destruct (validates_dec s h) as [Hv|Hv].
  2: { by rewrite erase_invalid in Hex by eauto using shape_lengths. }
  split; [done|].
  pose proof (validates_slot _ _ _ Hs Hv) as Hnode.
  destruct (shape_next_Some _ _ _ Hs Hnode) as (n & Hn & Hln).
  destruct (shape_prev_Some _ _ _ Hs Hnode) as (p & Hp & Hlp).
  erewrite erase_Ok in Hex by done. by injection Hex as <-.
Qed.

End Reuse.

(** X9. The free list is a stack: the insertion that follows [erase(h)]
    takes the slot of [h], and returns it with the generation after the
    one of [h]. *)
Theorem insertion_reuses_erased_slot {T : Type} `{!Move T} (T_default : T) (c : nat)
    (tr : trace T) (s : ArrayLinkedList T) (h : NodeHandle)
    (s1 : ArrayLinkedList T) (fuel : nat) (o : op T) (h' : NodeHandle)
    (s2 : ArrayLinkedList T) :
  Z.of_nat c ≤ INT_MAX + 1 →
  reaches T_default any_call c tr s →
  erase h s = Ok tt s1 →
  exec fuel o s1 = Ok (RHandle h') s2 →
  Handle.index h' = Handle.index h ∧
  Handle.generation h' = wrap32 (Handle.generation h + 1).
Proof.
  intros Hc Hr Her Hex. pose proof (reaches_shape _ _ _ _ _ Hc Hr) as Hs.
  destruct (erase_released c s h s1 Hs Her) as (Hv & Hfl & Hgens & _).
  assert (shape c s1) as Hs1.
  { pose proof (erase_shape c s h Hs) as He. rewrite Her in He. tauto. }
  destruct (exec_insertion _ _ _ _ _ _ Hs1 Hex)
    as (_ & _ & g & Hgen & Hfl' & Hg & _).
  rewrite Hfl in Hfl'. apply app_inj_tail in Hfl' as [_ Hidx].
  split; [done|]. rewrite Hgen. f_equal. f_equal.
  apply validates_generation in Hv.
  unfold generation_of in *. rewrite Hgens, <-Hidx, Hv in Hg. congruence.
Qed.

(** ** The unchecked helpers *)

Section Unchecked.
Context {T : Type} `{!Move T}.
Implicit Types (s : ArrayLinkedList T) (i : Z).

Lemma for_each_value_unchecked_from_eq fuel i s :
  for_each_value_unchecked_from fuel i s
  = res_map (fmap fst) (for_each_from fuel i s).
Proof.
  revert i. induction fuel as [|fuel IH]; intros i; simpl; [done|].
  case_decide; [|done]. unfold bind, read, ret.
  destruct (vget (values_ s) i) as [v|]; [|done].
  destruct (vget (next_ s) i) as [nx|]; [|done].
  rewrite IH. by destruct (for_each_from fuel nx s).
Qed.

Lemma for_each_value_unchecked_from_eq_slow fuel i
    (s : arrlist_slow.ArrayLinkedList T) :
  arrlist_slow.for_each_value_unchecked_from fuel i s
  = res_map (fmap fst) (arrlist_slow.for_each_from fuel i s).
Proof.
  revert i. induction fuel as [|fuel IH]; intros i; simpl; [done|].
  case_decide; [|done].
  unfold bind, arrlist_slow.read_field, bind, read, ret.
  destruct (vget (arrlist_slow.nodes_ s) i) as [n|] eqn:Hn; [|done].
  simpl. rewrite Hn. simpl.
  rewrite IH. by destruct (arrlist_slow.for_each_from fuel _ s).
Qed.

End Unchecked.

(** X12. In either layout and in every state, [for_each_value_unchecked]
    passes its argument the values [for_each] passes, in the same order,
    and ends as [for_each] does. *)
Theorem for_each_value_unchecked_visits_same {T : Type} (fuel : nat) :
  (∀ s : ArrayLinkedList T,
     for_each_value_unchecked fuel s
     = res_map (fmap fst) (for_each fuel s)) ∧
  (∀ s : arrlist_slow.ArrayLinkedList T,
     arrlist_slow.for_each_value_unchecked fuel s
     = res_map (fmap fst) (arrlist_slow.for_each fuel s)).
Proof.
  split; intros s.
  - unfold for_each_value_unchecked, for_each, bind, gets.
    apply for_each_value_unchecked_from_eq.
  - unfold arrlist_slow.for_each_value_unchecked, arrlist_slow.for_each,
      bind, gets.
    apply for_each_value_unchecked_from_eq_slow.
Qed.

(** X13. [value_unchecked] returns what [at] returns for an index inside
    the vector; for an index outside, where [at] throws, it has undefined
    behaviour. *)
Theorem value_unchecked_is_at_without_check {T : Type}
    (s : ArrayLinkedList T) (i : Z) :
  (0 ≤ i < capacity s → value_unchecked i s = at_ i s) ∧
  (¬ (0 ≤ i < capacity s) →
   value_unchecked i s = UB ∧ at_ i s = Throw InvalidNode s).
Proof.
  split.
  - intros Hi. destruct (at_in_range s i Hi) as (v & Hv & ->).
    unfold value_unchecked, read. by rewrite Hv.
  - intros Hi. split; [|by apply at_out_of_range].
    unfold value_unchecked, read. unfold capacity in Hi.
    apply vget_None in Hi. by rewrite Hi.
Qed.

(** X14. On an object used with live handles, a loop that starts at
    [head_index_unchecked()], reads [value_unchecked(i)] and goes on to
    [next_index_unchecked(i)] until [kNull] goes through what [for_each]
    visits: the first is the index [for_each] visits first ([kNull] if it
    visits none), and at every index visited the value is the one visited
    and the next is the index visited after it ([kNull] after the last). *)
Theorem unchecked_walk_follows_for_each {T : Type} `{!Move T} (T_default : T)
    (c : nat) (tr : trace T) (s : ArrayLinkedList T) (fuel : nat)
    (calls : list (T * Z)) :
  Z.of_nat c ≤ INT_MAX + 1 →
  reaches T_default live_handles c tr s →
  (c < fuel)%nat →
  for_each fuel s = Ok calls s →
  head_index_unchecked s = Ok (first_of kNull calls.*2) s ∧
  ∀ before v i after, calls = before ++ (v, i) :: after →
    value_unchecked i s = Ok v s ∧
    next_index_unchecked i s = Ok (first_of kNull after.*2) s.
Proof.
  intros Hc Hr Hfuel Hfe. destruct (reaches_repr _ _ _ _ Hc Hr) as [l R].
  destruct (repr_contents _ _ _ R) as [vs Hvs].
  pose proof (repr_length _ _ _ R) as Hlen.
  pose proof (contents_length _ _ _ Hvs) as Hlvs.
  rewrite (for_each_repr c s l vs fuel R Hvs) in Hfe by lia.
  injection Hfe as <-.
  assert ((zip vs l).*2 = l) as Hsnd by (apply snd_zip; lia).
  assert ((zip vs l).*1 = vs) as Hfst by (apply fst_zip; lia).
  split.
  - unfold head_index_unchecked, gets. by rewrite Hsnd, (repr_head _ _ _ R).
  - intros before v i after Hsplit.
    assert (l = before.*2 ++ i :: after.*2) as Hl.
    { by rewrite <-Hsnd, Hsplit, fmap_app. }
    assert (vs = before.*1 ++ v :: after.*1) as Hv.
    { by rewrite <-Hfst, Hsplit, fmap_app. }
    subst l vs. destruct (repr_links _ _ _ _ _ R) as [Hnx _].
    apply contents_app in Hvs as [_ Hvs]; [|by rewrite !length_fmap].
    apply Forall2_cons_1 in Hvs as [Hval _].
    unfold value_unchecked, next_index_unchecked, read.
    by rewrite Hval, Hnx.
Qed.

(** X15. On an object used with live handles, [empty()] holds exactly when
    [for_each] visits nothing, when [head_index_unchecked()] is [kNull],
    and when [pop_front] throws [Empty]. *)
Theorem empty_means_nothing_to_visit {T : Type} `{!Move T} (T_default : T) (c : nat)
    (tr : trace T) (s : ArrayLinkedList T) (fuel : nat) :
  Z.of_nat c ≤ INT_MAX + 1 →
  reaches T_default live_handles c tr s →
  (c < fuel)%nat →
  (empty s = true ↔ for_each fuel s = Ok [] s) ∧
  (empty s = true ↔ head_index_unchecked s = Ok kNull s) ∧
  (empty s = true ↔ pop_front s = Throw Empty s).
Proof.
  intros Hc Hr Hfuel. destruct (reaches_repr _ _ _ _ Hc Hr) as [l R].
  destruct (repr_contents _ _ _ R) as [vs Hvs].
  pose proof (repr_length _ _ _ R) as Hlen.
  unfold empty. rewrite bool_decide_eq_true, (repr_size _ _ _ R).
  rewrite (for_each_repr c s l vs fuel R Hvs) by lia.
  unfold head_index_unchecked, gets. rewrite (repr_head _ _ _ R).
  destruct l as [|i l]; simpl.
  - apply Forall2_nil_inv_l in Hvs as ->.
    rewrite pop_front_Throw by apply R. done.
  - apply Forall2_cons_inv_l in Hvs as (v & vs' & Hv & _ & ->).
    erewrite pop_front_repr by done.
    assert (i ≠ kNull) as Hi.
    { apply (is_slot_not_null c). eapply repr_chain_slot; [done|]. by left. }
    split_and!; (split; [lia|]); intros [=]; done.
Qed.

(** ** Queue and stack *)

Section Queue.
Context {T : Type} `{!Move T}.
Implicit Types (s : ArrayLinkedList T) (l : list Z) (vs ws : list T).

Lemma run_cons fuel (o : op T) ops s :
  run fuel (o :: ops) s
  = match exec fuel o s with
    | Ok a s' => Returned a :: run fuel ops s'
    | Throw e s' => Thrown e :: run fuel ops s'
    | UB => [Undefined]
    | OutOfFuel => [Unfinished]
    end.
Proof. done. Qed.

Lemma exec_all_cons fuel (o : op T) ops s :
  exec_all fuel (o :: ops) s
  = match state_of (exec fuel o s) with
    | Some s' => exec_all fuel ops s'
    | None => None
    end.
Proof. done. Qed.

(** [pop_front], as many times as the chain is long, returns the values of
    the chain from head to tail and leaves the list empty. *)
Lemma pop_front_all c fuel s l ws :
  repr c s l → contents s l ws →
  run fuel (replicate (length l) PopFront) s
  = (λ v, Returned (RValue v)) <$> ws ∧
  ∃ s', exec_all fuel (replicate (length l) PopFront) s = Some s' ∧
        repr c s' [].
Proof.
  revert s ws. induction l as [|i l IH]; intros s ws R Hc.
  - apply Forall2_nil_inv_l in Hc as ->. simpl. eauto.
  - apply Forall2_cons_inv_l in Hc as (v & ws' & Hv & Hc & ->).
    assert (contents s (i :: l) (v :: ws')) as Hc0 by (by constructor).
    destruct (pop_front_chain c s i l v ws' R Hc0) as (Hpop & R' & Hc').
    destruct (IH _ _ R' Hc') as (Hrun & s' & Hex & Hend).
    assert (exec fuel PopFront s
            = Ok (RValue v) (spliced_out [] i l (moved_out i v s)))
      as Hexec.
    { simpl. unfold bind. by rewrite Hpop. }
    change (replicate (length (i :: l)) PopFront)
      with (@PopFront T :: replicate (length l) PopFront).
    rewrite run_cons, exec_all_cons, Hexec, fmap_cons, Hrun. simpl. eauto.
Qed.

End Queue.

(** X8. A list just built with capacity [c] is a queue under [push_back]
    and [pop_front], and a stack under [push_front] and [pop_front]: after
    the values [vs], at most [c] of them, have been pushed, as many calls
    of [pop_front] return them in the order of the calls of [push_back],
    and in the reverse order of the calls of [push_front], and leave the
    list empty. *)
Theorem pop_front_returns_in_order {T : Type} `{!Move T} (T_default : T) (c : nat)
    (s0 : ArrayLinkedList T) (vs : list T) (fuel : nat) :
  Z.of_nat c ≤ INT_MAX + 1 →
  make T_default c = inr s0 →
  (length vs ≤ c)%nat →
  (∃ s s', exec_all fuel (PushBack <$> vs) s0 = Some s ∧
     run fuel (replicate (length vs) PopFront) s
     = (λ v, Returned (RValue v)) <$> vs ∧
     exec_all fuel (replicate (length vs) PopFront) s = Some s' ∧
     size s' = 0) ∧
  (∃ s s', exec_all fuel (PushFront <$> vs) s0 = Some s ∧
     run fuel (replicate (length vs) PopFront) s
     = (λ v, Returned (RValue v)) <$> reverse vs ∧
     exec_all fuel (replicate (length vs) PopFront) s = Some s' ∧
     size s' = 0).
Proof.
  intros Hc Hmk Hlen. pose proof (make_repr _ _ _ Hc Hmk) as R.
  assert (contents s0 [] []) as Hc0 by constructor.
  split.
  - destruct (push_back_all c fuel s0 [] [] vs R Hc0)
      as (s & l & Hex & R' & Hc').
    simpl in *. rewrite Nat.sub_0_r, take_ge in Hc' by lia.
    pose proof (contents_length _ _ _ Hc') as Hl.
    destruct (pop_front_all c fuel s l vs R' Hc') as (Hrun & s' & Hex' & Re).
    rewrite Hl in Hrun, Hex'. exists s, s'. split_and!; [done..|].
    unfold size. by rewrite (repr_size _ _ _ Re).
  - destruct (push_front_all c fuel s0 [] [] vs R Hc0)
      as (s & l & Hex & R' & Hc').
    simpl in *. rewrite Nat.sub_0_r, take_ge, !app_nil_r in * by lia.
    pose proof (contents_length _ _ _ Hc') as Hl.
    rewrite length_reverse in Hl.
    destruct (pop_front_all c fuel s l _ R' Hc') as (Hrun & s' & Hex' & Re).
    rewrite Hl in Hrun, Hex'. exists s, s'. split_and!; [done..|].
    unfold size. by rewrite (repr_size _ _ _ Re).
Qed.

Section FreshSlots.
Context {T : Type} `{!Move T}.
Implicit Types (s : ArrayLinkedList T) (l : list Z) (vs ws : list T).

(** The object after the first [k] insertions on a list just built: the
    free slots are [k], ..., [c - 1], the last being taken first, and none
    has been taken yet. *)
Lemma run_push_back_fresh c fuel s k vs :
  shape c s →
  free_list_ s = Z.of_nat <$> rev (seq k (c - k)) →
  (∀ i, (k ≤ i < c)%nat → generation_of s (Z.of_nat i) = Some 0) →
  (k + length vs ≤ c)%nat →
  run fuel (PushBack <$> vs) s
  = imap (λ j _, Returned (RHandle (Handle.mk (Z.of_nat (k + j)) 1))) vs.
Proof.
  revert s k. induction vs as [|v vs IH]; intros s k Hs Hfl Hg Hlen; [done|].
  simpl in Hlen.
  replace (c - k)%nat with (S (c - S k)) in Hfl by lia.
  simpl in Hfl. rewrite fmap_app in Hfl. simpl in Hfl.
  assert (generation_of s (Z.of_nat k) = Some 0) as Hgk by (apply Hg; lia).
  assert (exec fuel (PushBack v) s
          = Ok (RHandle (Handle.mk (Z.of_nat k) 1))
              {| values_ := <[Z.to_nat (Z.of_nat k) := v]> (values_ s);
                 next_ := (if decide (tail_ s ≠ kNull)
                           then <[Z.to_nat (tail_ s) := Z.of_nat k]> else id)
                            (<[Z.to_nat (Z.of_nat k) := kNull]> (next_ s));
                 prev_ := <[Z.to_nat (Z.of_nat k) := tail_ s]> (prev_ s);
                 generations_ :=
                   <[Z.to_nat (Z.of_nat k) := wrap32 (0 + 1)]> (generations_ s);
                 free_list_ := Z.of_nat <$> rev (seq (S k) (c - S k));
                 head_ := if decide (tail_ s ≠ kNull) then head_ s
                          else Z.of_nat k;
                 tail_ := Z.of_nat k;
                 size_ := wrap64 (size_ s + 1) |}) as Hex.
  { simpl. unfold bind, push_back.
    by rewrite (emplace_back_Ok c s v _ (Z.of_nat k) 0 Hs Hfl Hgk). }
  pose proof (exec_shape c fuel (PushBack v) s Hs) as Hs'.
  rewrite Hex in Hs'. destruct Hs' as [Hs' _].
  change (PushBack <$> v :: vs) with (PushBack v :: (PushBack <$> vs)).
  rewrite run_cons, Hex. simpl. rewrite Nat.add_0_r. f_equal.
  rewrite (IH _ (S k)); [|done|done| |lia].
  - apply imap_ext. intros j x _. simpl. do 4 f_equal. lia.
  - intros i Hi. unfold generation_of. simpl.
    rewrite vget_insert_ne; [apply Hg; lia|lia|lia].
Qed.

End FreshSlots.

(** X10. A list just built with capacity [c] hands out its slots in the
    order 0, 1, 2, ...: the [j]-th call of [push_back], counting from 0,
    returns the handle with index [j] and generation 1, for as long as
    there is room. *)
Theorem fresh_list_takes_slots_in_order {T : Type} `{!Move T} (T_default : T)
    (c : nat) (s0 : ArrayLinkedList T) (vs : list T) (fuel : nat) :
  Z.of_nat c ≤ INT_MAX + 1 →
  make T_default c = inr s0 →
  (length vs ≤ c)%nat →
  run fuel (PushBack <$> vs) s0
  = imap (λ j _, Returned (RHandle (Handle.mk (Z.of_nat j) 1))) vs.
Proof.
  intros Hc Hmk Hlen. pose proof (make_shape _ _ _ Hc Hmk) as Hs.
  apply (run_push_back_fresh c fuel s0 0 vs); [done| | |lia].
  - unfold make in Hmk. case_decide; [done|]. injection Hmk as <-. simpl.
    rewrite Nat.sub_0_r. by apply initial_free_list_eq.
  - intros i Hi. eapply make_generation; [done|]. unfold is_slot. lia.
Qed.

(** ** The order book *)

Lemma swap_remove_Permutation {A} (v : list A) pos x y :
  v !! pos = Some x → last v = Some y →
  v ≡ₚ x :: pop_back (<[pos := y]> v).
Proof.
  intros Hx Hy. pose proof (lookup_lt_Some _ _ _ Hx) as Hpos.
  rewrite <-(take_drop_middle v pos x Hx) in Hy |- *.
  assert (length (take pos v) = pos) as Hlen by (rewrite length_take; lia).
  set (v1 := take pos v) in *. set (v2 := drop (S pos) v) in *.
  clearbody v1 v2. clear Hx Hpos. subst pos.
  rewrite insert_app_r_alt by lia. rewrite Nat.sub_diag. simpl.
  destruct (snoc_cases v2) as [->|(v2' & y' & ->)].
  - rewrite last_snoc in Hy. injection Hy as <-. unfold pop_back.
    rewrite removelast_last. by rewrite Permutation_app_comm.
  - rewrite app_comm_cons, (assoc_L (++)), last_snoc in Hy.
    injection Hy as <-.
    rewrite (app_comm_cons v2' [y'] y'), (assoc_L (++) v1). unfold pop_back.
    rewrite removelast_last. solve_Permutation.
Qed.

Lemma foldl_qty_sum (orders : list benchmark.Order) a :
  foldl (λ sum o, wrap64 (sum + wrap64 (benchmark.qty o))) (wrap64 a) orders
  = wrap64 (a + foldr (λ o sum, benchmark.qty o + sum) 0 orders).
Proof.
  revert a. induction orders as [|o orders IH]; intros a; simpl.
  - by rewrite Z.add_0_r.
  - replace (wrap64 (wrap64 a + wrap64 (benchmark.qty o)))
      with (wrap64 (a + benchmark.qty o)).
    + rewrite IH. f_equal. lia.
    + unfold wrap64. by rewrite <-Zplus_mod.
Qed.

Section Book.
Import benchmark.
Implicit Types (b : ArrayListBook) (l : list Z) (h : NodeHandle).

Lemma add_Throw c b l (o : Order) :
  repr c (list_ b) l → free_list_ (list_ b) = [] →
  add o b = Throw CapacityExhausted b.
Proof.
  intros R Hfl. unfold add, bind, on_list, push_back.
  rewrite emplace_back_Throw by done. by destruct b.
Qed.

Lemma add_Ok c b l fl idx (o : Order) :
  repr c (list_ b) l → free_list_ (list_ b) = fl ++ [idx] →
  add o b = Ok tt
    (mkBook (spliced_in l idx [] o (list_ b))
       (handles_ b ++
        [Handle.mk idx
           (wrap32 (default 0 (generation_of (list_ b) idx) + 1))])).
Proof.
  intros R Hfl. unfold add, bind, on_list, push_back.
  by erewrite emplace_back_repr.
Qed.

Lemma cancel_at_position_beyond b pos :
  (length (handles_ b) ≤ pos)%nat → cancel_at_position pos b = Ok tt b.
Proof.
  intros Hpos. unfold cancel_at_position, bind, gets.
  by rewrite decide_True by lia.
Qed.

Lemma cancel_at_position_Ok c b l1 l2 pos h y :
  repr c (list_ b) (l1 ++ Handle.index h :: l2) →
  validates (list_ b) h →
  handles_ b !! pos = Some h → last (handles_ b) = Some y →
  Z.of_nat (length (handles_ b)) < 2 ^ 64 →
  cancel_at_position pos b = Ok tt
    (mkBook (spliced_out l1 (Handle.index h) l2 (list_ b))
       (pop_back (<[pos := y]> (handles_ b)))).
Proof.
  intros R Hv Hh Hy Hlen. pose proof (lookup_lt_Some _ _ _ Hh) as Hpos.
  unfold cancel_at_position, bind, gets, read, write, modify, on_list.
  cbv beta. destruct (decide _) as [Hge|_]; [lia|].
  assert (vget (handles_ b) (Z.of_nat pos) = Some h) as ->.
  { apply vget_Some. rewrite Nat2Z.id. split; [lia|done]. }
  erewrite erase_repr by done. simpl.
  assert (wrap64 (Z.of_nat (length (handles_ b)) - 1)
          = Z.of_nat (pred (length (handles_ b)))) as ->.
  { unfold wrap64. rewrite Z.mod_small; lia. }
  assert (vget (handles_ b) (Z.of_nat (pred (length (handles_ b))))
          = Some y) as ->.
  { apply vget_Some. rewrite Nat2Z.id. split; [lia|].
    by rewrite <-last_lookup. }
  unfold store_list, store_handles. simpl.
  rewrite (vset_Some (handles_ b) (Z.of_nat pos) y) by lia.
  simpl. by rewrite Nat2Z.id.
Qed.

End Book.

Section BookInvariant.
Import benchmark.
Implicit Types (b : ArrayListBook) (l : list Z) (h : NodeHandle).

Lemma for_each_value_unchecked_repr {T} c (s : ArrayLinkedList T) l vs fuel :
  repr c s l → contents s l vs → (length l < fuel)%nat →
  for_each_value_unchecked fuel s = Ok vs s.
Proof.
  intros R Hc Hfuel.
  pose proof (for_each_repr c s l vs fuel R Hc Hfuel) as Hfe.
  unfold for_each_value_unchecked, for_each, bind, gets in *.
  rewrite for_each_value_unchecked_from_eq, Hfe. simpl.
  rewrite fst_zip; [done|]. apply contents_length in Hc. lia.
Qed.

Lemma make_book_inv c b :
  Z.of_nat c ≤ INT_MAX + 1 → make_book c = inr b → book_inv c b.
Proof.
  intros Hc Hmk. unfold make_book in Hmk.
  destruct (make Order_default c) as [e|s] eqn:Hs; [done|].
  injection Hmk as <-. exists []. split_and!; simpl; [|done|done].
  by eapply make_repr.
Qed.

Lemma validates_spliced_in c (s : ArrayLinkedList Order) l fl idx o h :
  repr c s l → free_list_ s = fl ++ [idx] → Handle.index h ∈ l →
  validates s h → validates (spliced_in l idx [] o s) h.
Proof.
  intros R Hfl Hin. rewrite !validates_iff. simpl.
  rewrite length_insert. intros [Hr Hg]. split; [done|].
  assert (is_slot c idx) as Hidx.
  { eapply repr_free_slot; [done|]. rewrite Hfl, elem_of_app. right.
    by left. }
  rewrite vget_insert_ne; [done| |apply Hidx].
  intros Heq. eapply repr_chain_not_free; [done..|].
  rewrite Hfl, elem_of_app, Heq. right. by left.
Qed.

Lemma validates_new c (s : ArrayLinkedList Order) l fl idx o :
  repr c s l → free_list_ s = fl ++ [idx] →
  validates (spliced_in l idx [] o s)
    (Handle.mk idx (wrap32 (default 0 (generation_of s idx) + 1))).
Proof.
  intros R Hfl. rewrite validates_iff. simpl.
  assert (is_slot c idx) as Hidx.
  { eapply repr_free_slot; [done|]. rewrite Hfl, elem_of_app. right.
    by left. }
  rewrite length_insert, (repr_values _ _ _ R). split; [apply Hidx|].
  apply vget_insert_eq. rewrite (repr_generations _ _ _ R). apply Hidx.
Qed.

Lemma add_inv c b l fl idx (o : Order) :
  repr c (list_ b) l → Handle.index <$> handles_ b ≡ₚ l →
  Forall (validates (list_ b)) (handles_ b) →
  free_list_ (list_ b) = fl ++ [idx] →
  ∃ b', add o b = Ok tt b' ∧
        repr c (list_ b') (l ++ [idx]) ∧
        Handle.index <$> handles_ b' ≡ₚ l ++ [idx] ∧
        Forall (validates (list_ b')) (handles_ b') ∧
        length (handles_ b') = S (length (handles_ b)) ∧
        list_ b' = spliced_in l idx [] o (list_ b) ∧
        handles_ b' = handles_ b ++
          [Handle.mk idx
             (wrap32 (default 0 (generation_of (list_ b) idx) + 1))].
Proof.
  intros R Hp Hv Hfl. eexists. split; [by eapply add_Ok|]. simpl.
  split_and!.
  - eapply repr_spliced_in; [|done]. by rewrite app_nil_r.
  - rewrite fmap_app. simpl. by rewrite Hp.
  - apply Forall_app. split.
    + apply Forall_forall. intros h Hh.
      eapply validates_spliced_in; [done..| |].
      * rewrite <-Hp. by apply list_elem_of_fmap_2.
      * by eapply Forall_forall in Hv.
    + apply Forall_singleton. by eapply validates_new.
  - rewrite length_app. simpl. lia.
  - done.
  - done.
Qed.

Lemma cancel_inv c b l pos :
  repr c (list_ b) l → Handle.index <$> handles_ b ≡ₚ l →
  Forall (validates (list_ b)) (handles_ b) →
  (pos < length (handles_ b))%nat →
  ∃ b' h l1 l2, cancel_at_position pos b = Ok tt b' ∧
        handles_ b !! pos = Some h ∧
        l = l1 ++ Handle.index h :: l2 ∧
        erase h (list_ b) = Ok tt (list_ b') ∧
        list_ b' = spliced_out l1 (Handle.index h) l2 (list_ b) ∧
        handles_ b ≡ₚ h :: handles_ b' ∧
        repr c (list_ b') (l1 ++ l2) ∧
        Handle.index <$> handles_ b' ≡ₚ l1 ++ l2 ∧
        Forall (validates (list_ b')) (handles_ b').
Proof.
  intros R Hp Hv Hpos.
  destruct (lookup_lt_is_Some_2 _ _ Hpos) as [h Hh].
  destruct (last (handles_ b)) as [y|] eqn:Hy.
  2: { apply last_None in Hy. rewrite Hy in Hpos. simpl in Hpos. lia. }
  assert (Handle.index h ∈ l) as Hin.
  { rewrite <-Hp. eapply list_elem_of_fmap_2, list_elem_of_lookup_2. done. }
  apply list_elem_of_split in Hin as (l1 & l2 & ->).
  assert (validates (list_ b) h) as Hvh.
  { eapply Forall_lookup_1 in Hv; done. }
  assert (Z.of_nat (length (handles_ b)) < 2 ^ 64) as Hlen.
  { pose proof (repr_length _ _ _ R) as Hl.
    pose proof (repr_capacity _ _ _ R) as Hc.
    apply Permutation_length in Hp. rewrite length_fmap in Hp.
    unfold INT_MAX in Hc. lia. }
  pose proof (swap_remove_Permutation _ _ _ _ Hh Hy) as Hsw.
  eexists _, h, l1, l2.
  split; [by eapply cancel_at_position_Ok|]. simpl.
  split_and!; try done.
  - by eapply erase_repr.
  - by apply repr_spliced_out.
  - rewrite Hsw in Hp. rewrite fmap_cons in Hp.
    rewrite <-Permutation_middle in Hp.
    by apply Permutation_cons_inv in Hp.
  - apply Forall_forall. intros h' Hh'.
    assert (h' ∈ handles_ b) as Hin'. { rewrite Hsw. by right. }
    eapply Forall_forall in Hv; [|done].
    by rewrite validates_iff in Hv |- *.
Qed.

Lemma book_reaches_inv c b :
  Z.of_nat c ≤ INT_MAX + 1 → book_reaches c b → book_inv c b.
Proof.
  intros Hc. induction 1 as [b Hmk|b k b' _ IH Hst].
  - by apply make_book_inv.
  - destruct IH as (l & R & Hp & Hv). destruct k as [o|pos]; simpl in Hst.
    + destruct (snoc_cases (free_list_ (list_ b))) as [Hfl|(fl & idx & Hfl)].
      * erewrite add_Throw in Hst by done. injection Hst as <-.
        by exists l.
      * destruct (add_inv c b l fl idx o R Hp Hv Hfl)
          as (b1 & Hadd & R1 & Hp1 & Hv1 & _).
        rewrite Hadd in Hst. injection Hst as <-. by eexists.
    + destruct (decide (pos < length (handles_ b))%nat) as [Hpos|Hpos].
      * destruct (cancel_inv c b l pos R Hp Hv Hpos)
          as (b1 & h & l1 & l2 & Hcan & _ & _ & _ & _ & _ & R1 & Hp1 & Hv1).
        rewrite Hcan in Hst. injection Hst as <-. by eexists.
      * rewrite cancel_at_position_beyond in Hst by lia.
        injection Hst as <-. by exists l.
Qed.

Lemma book_size c b l :
  repr c (list_ b) l → Handle.index <$> handles_ b ≡ₚ l →
  length (handles_ b) = length l.
Proof. intros _ Hp. apply Permutation_length in Hp. by rewrite length_fmap in Hp. Qed.

Lemma foldl_qty_total (orders : list Order) :
  foldl (λ sum o, wrap64 (sum + wrap64 (qty o))) 0 orders = total_qty orders.
Proof. apply (foldl_qty_sum orders 0). Qed.

Lemma iterate_sum_repr c b l vs fuel :
  repr c (list_ b) l → contents (list_ b) l vs → (length l < fuel)%nat →
  iterate_sum fuel b = Ok (total_qty vs) b.
Proof.
  intros R Hc Hfuel. unfold iterate_sum, bind, on_list.
  erewrite for_each_value_unchecked_repr by done.
  unfold ret. rewrite foldl_qty_total. by destruct b.
Qed.

Lemma preload_app xs ys b :
  preload (xs ++ ys) b = (preload xs >>> preload ys) b.
Proof.
  revert b. induction xs as [|x xs IH]; intros b; simpl; [done|].
  unfold bind in *. by destruct (add x b) as [[] b1|e b1| |].
Qed.

Lemma preload_all c b l ws orders :
  repr c (list_ b) l → Handle.index <$> handles_ b ≡ₚ l →
  Forall (validates (list_ b)) (handles_ b) →
  contents (list_ b) l ws →
  (length l + length orders ≤ c)%nat →
  ∃ b' l', preload orders b = Ok tt b' ∧
    repr c (list_ b') (l ++ l') ∧
    Handle.index <$> handles_ b' ≡ₚ l ++ l' ∧
    Forall (validates (list_ b')) (handles_ b') ∧
    contents (list_ b') (l ++ l') (ws ++ orders).
Proof.
  revert b l ws. induction orders as [|o orders IH];
    intros b l ws R Hp Hv Hc Hlen.
  - exists b, []. rewrite !app_nil_r. by simpl.
  - simpl in Hlen |- *.
    destruct (snoc_cases (free_list_ (list_ b))) as [Hfl|(fl & idx & Hfl)].
    { apply (repr_free_empty _ _ _ R) in Hfl. lia. }
    destruct (add_inv c b l fl idx o R Hp Hv Hfl)
      as (b1 & Hadd & R1 & Hp1 & Hv1 & _ & Hl1 & _).
    assert (contents (list_ b1) (l ++ [idx]) (ws ++ [o])) as Hc1.
    { rewrite Hl1.
      eapply (contents_spliced_in c _ l [] fl idx o ws []);
        rewrite ?app_nil_r; try done. by apply contents_length in Hc. }
    destruct (IH b1 _ _ R1 Hp1 Hv1 Hc1) as (b' & l' & Hpre & R' & Hp' & Hv' & Hc').
    { rewrite length_app. simpl. lia. }
    exists b', (idx :: l'). unfold bind. rewrite Hadd, Hpre.
    rewrite <-!(assoc_L (++)) in *. by simpl in *.
Qed.

End BookInvariant.

(** X16. In every state of a book of capacity [c], built by the
    constructor and changed by [add] and [cancel_at_position] only, the
    book keeps one handle for each element of its list and no other: the
    book and the list have the same size, at most [c]; the handles are of
    different slots, none of them free; and each passes the list's
    check. *)
Theorem book_keeps_handles_of_elements (c : nat) (b : benchmark.ArrayListBook) :
  Z.of_nat c ≤ INT_MAX + 1 → benchmark.book_reaches c b →
  benchmark.capacity b = Z.of_nat c ∧
  benchmark.size b = size (benchmark.list_ b) ∧
  benchmark.size b ≤ Z.of_nat c ∧
  NoDup (Handle.index <$> benchmark.handles_ b) ∧
  ∀ h, h ∈ benchmark.handles_ b →
       validates (benchmark.list_ b) h ∧
       Handle.index h ∉ free_list_ (benchmark.list_ b).
Proof.
  intros Hc Hr. destruct (book_reaches_inv c b Hc Hr) as (l & R & Hp & Hv).
  pose proof (book_size c b l R Hp) as Hlen.
  unfold benchmark.capacity, benchmark.size, capacity, size.
  split_and!.
  - by rewrite (repr_values _ _ _ R).
  - by rewrite (repr_size _ _ _ R), Hlen.
  - pose proof (repr_length _ _ _ R). lia.
  - rewrite Hp. pose proof (repr_NoDup _ _ _ R) as Hnd.
    by apply NoDup_app in Hnd as [? _].
  - intros h Hh. split; [by eapply Forall_forall in Hv|].
    eapply repr_chain_not_free; [done|]. rewrite <-Hp.
    by apply list_elem_of_fmap_2.
Qed.

(** X17. In every such state [cancel_at_position(pos)] returns: it never
    throws and has no undefined behaviour. With [pos] beyond the handles it
    leaves the book as it is; otherwise the list's [erase] of the handle at
    [pos] returns, the book loses that handle and no other, and its size
    goes down by one. *)
Theorem cancel_at_position_erases_one (c : nat) (b : benchmark.ArrayListBook)
    (pos : nat) :
  Z.of_nat c ≤ INT_MAX + 1 → benchmark.book_reaches c b →
  ∃ b', benchmark.cancel_at_position pos b = Ok tt b' ∧
    match benchmark.handles_ b !! pos with
    | None => b' = b
    | Some h =>
        erase h (benchmark.list_ b) = Ok tt (benchmark.list_ b') ∧
        benchmark.handles_ b ≡ₚ h :: benchmark.handles_ b' ∧
        benchmark.size b' = benchmark.size b - 1
    end.
Proof.
  intros Hc Hr. destruct (book_reaches_inv c b Hc Hr) as (l & R & Hp & Hv).
  destruct (decide (pos < length (benchmark.handles_ b))%nat) as [Hpos|Hpos].
  - destruct (cancel_inv c b l pos R Hp Hv Hpos)
      as (b1 & h & l1 & l2 & Hcan & Hh & _ & Her & _ & Hsw & _).
    exists b1. split; [done|]. rewrite Hh. split_and!; [done..|].
    unfold benchmark.size. apply Permutation_length in Hsw.
    simpl in Hsw. lia.
  - exists b. split; [apply cancel_at_position_beyond; lia|].
    by rewrite lookup_ge_None_2 by lia.
Qed.

(** X18. In every such state [add] throws, for no free slot, exactly when
    the book holds [c] orders, and then leaves the book as it is;
    otherwise the list's [push_back] returns a handle, which the book puts
    behind its handles. *)
Theorem add_throws_only_when_full (c : nat) (b : benchmark.ArrayListBook)
    (o : benchmark.Order) :
  Z.of_nat c ≤ INT_MAX + 1 → benchmark.book_reaches c b →
  if decide (benchmark.size b = Z.of_nat c)
  then benchmark.add o b = Throw CapacityExhausted b
  else ∃ h s', push_back o (benchmark.list_ b) = Ok h s' ∧
         benchmark.add o b
         = Ok tt (benchmark.mkBook s' (benchmark.handles_ b ++ [h])).
Proof.
  intros Hc Hr. destruct (book_reaches_inv c b Hc Hr) as (l & R & Hp & Hv).
  pose proof (book_size c b l R Hp) as Hlen. unfold benchmark.size.
  destruct (snoc_cases (free_list_ (benchmark.list_ b)))
    as [Hfl|(fl & idx & Hfl)].
  - rewrite decide_True.
    + by eapply add_Throw.
    + apply (repr_free_empty _ _ _ R) in Hfl. lia.
  - rewrite decide_False.
    + eexists _, _. split.
      * unfold push_back. by eapply emplace_back_repr.
      * by eapply add_Ok.
    + intros Hfull. assert (length l = c) as Hl by lia.
      apply (repr_free_empty _ _ _ R) in Hl. rewrite Hl in Hfl.
      by destruct fl.
Qed.

(** X19. In every such state, with fuel for [c] elements, [iterate_sum]
    returns the sum modulo [2^64] of the quantities of the orders that
    [for_each] visits, which are as many as the book has handles, and
    leaves the book as it is. *)
Theorem iterate_sum_adds_visited_quantities (c : nat)
    (b : benchmark.ArrayListBook) (fuel : nat) :
  Z.of_nat c ≤ INT_MAX + 1 → benchmark.book_reaches c b → (c < fuel)%nat →
  ∃ visited, for_each fuel (benchmark.list_ b)
             = Ok visited (benchmark.list_ b) ∧
    Z.of_nat (length visited) = benchmark.size b ∧
    benchmark.iterate_sum fuel b = Ok (benchmark.total_qty visited.*1) b.
Proof.
  intros Hc Hr Hfuel.
  destruct (book_reaches_inv c b Hc Hr) as (l & R & Hp & Hv).
  destruct (repr_contents _ _ _ R) as [vs Hvs].
  pose proof (repr_length _ _ _ R) as Hl.
  pose proof (contents_length _ _ _ Hvs) as Hlv.
  exists (zip vs l). split_and!.
  - eapply for_each_repr; [done..|lia].
  - unfold benchmark.size. rewrite length_zip_with, (book_size c b l R Hp).
    lia.
  - rewrite fst_zip by lia. eapply iterate_sum_repr; [done..|lia].
Qed.

(** X20. [preload] on a book just built with capacity [c]: with at most
    [c] orders it returns, with more it throws for no free slot; either
    way the book then holds the first [c] of the orders, which [for_each]
    visits in their order and [iterate_sum] adds up. *)
Theorem preload_fills_until_full (c : nat) (b0 : benchmark.ArrayListBook)
    (orders : list benchmark.Order) (fuel : nat) :
  Z.of_nat c ≤ INT_MAX + 1 → benchmark.make_book c = inr b0 →
  (c < fuel)%nat →
  ∃ b, benchmark.preload orders b0
       = (if decide (length orders ≤ c)%nat then Ok tt b
          else Throw CapacityExhausted b) ∧
    benchmark.size b = Z.of_nat (length orders `min` c) ∧
    res_map (fmap fst) (for_each fuel (benchmark.list_ b))
    = Ok (take c orders) (benchmark.list_ b) ∧
    benchmark.iterate_sum fuel b = Ok (benchmark.total_qty (take c orders)) b.
Proof.
  intros Hc Hmk Hfuel.
  destruct (make_book_inv c b0 Hc Hmk) as (l0 & R0 & Hp0 & Hv0).
  assert (l0 = []) as ->.
  { apply Permutation_nil. rewrite <-Hp0. unfold benchmark.make_book in Hmk.
    destruct (make _ c); [done|]. by injection Hmk as <-. }
  destruct (preload_all c b0 [] [] (take c orders) R0 Hp0 Hv0)
    as (b & l & Hpre & R & Hp & Hv & Hvs).
  { constructor. }
  { rewrite length_take. simpl. lia. }
  simpl in R, Hp, Hvs. pose proof (contents_length _ _ _ Hvs) as Hlen.
  pose proof (book_size c b l R Hp) as Hsz.
  rewrite length_take in Hlen.
  exists b. split_and!.
  - case_decide as Hle.
    + by rewrite take_ge in Hpre by lia.
    + rewrite <-(take_drop c orders), preload_app. unfold bind at 1.
      rewrite Hpre. destruct (drop c orders) as [|o rest] eqn:Hd.
      { apply (f_equal length) in Hd. rewrite length_drop in Hd.
        simpl in Hd. lia. }
      simpl. unfold bind at 1. erewrite add_Throw; [done..|].
      apply (repr_free_empty _ _ _ R). lia.
  - unfold benchmark.size. lia.
  - erewrite for_each_repr; [|done..|lia]. simpl.
    rewrite fst_zip; [done|]. rewrite length_take. lia.
  - eapply iterate_sum_repr; [done..|lia].
Qed.

(** X21. In every such state with a free slot, [add] followed by
    [cancel_at_position] of the last position returns and gives the book
    its handles back, and [for_each] visits what it visited before. *)
Theorem add_then_cancel_last_restores (c : nat) (b : benchmark.ArrayListBook)
    (o : benchmark.Order) (fuel : nat) :
  Z.of_nat c ≤ INT_MAX + 1 → benchmark.book_reaches c b → (c < fuel)%nat →
  benchmark.size b < Z.of_nat c →
  ∃ b1 b2 visited,
    benchmark.add o b = Ok tt b1 ∧
    benchmark.cancel_at_position (length (benchmark.handles_ b)) b1
    = Ok tt b2 ∧
    benchmark.handles_ b2 = benchmark.handles_ b ∧
    for_each fuel (benchmark.list_ b) = Ok visited (benchmark.list_ b) ∧
    for_each fuel (benchmark.list_ b2) = Ok visited (benchmark.list_ b2).
Proof.
  intros Hc Hr Hfuel Hfree.
  destruct (book_reaches_inv c b Hc Hr) as (l & R & Hp & Hv).
  pose proof (book_size c b l R Hp) as Hlen. unfold benchmark.size in Hfree.
  destruct (snoc_cases (free_list_ (benchmark.list_ b)))
    as [Hfl|(fl & idx & Hfl)].
  { apply (repr_free_empty _ _ _ R) in Hfl. lia. }
  destruct (add_inv c b l fl idx o R Hp Hv Hfl)
    as (b1 & Hadd & R1 & Hp1 & Hv1 & Hlen1 & Hl1 & Hh1).
  destruct (repr_contents _ _ _ R) as [vs Hvs].
  pose proof (repr_length _ _ _ R) as Hl.
  set (hn := Handle.mk idx _) in Hh1.
  assert (benchmark.cancel_at_position (length (benchmark.handles_ b)) b1
          = Ok tt (benchmark.mkBook
                     (spliced_out l idx [] (benchmark.list_ b1))
                     (pop_back (<[length (benchmark.handles_ b) := hn]>
                                  (benchmark.handles_ b1))))) as Hcan.
  { apply (cancel_at_position_Ok c b1 l [] _ hn hn).
    - done.
    - eapply Forall_forall in Hv1; [done|]. rewrite Hh1, elem_of_app.
      right. by left.
    - rewrite Hh1. by apply list_lookup_middle.
    - by rewrite Hh1, last_snoc.
    - pose proof (repr_capacity _ _ _ R). unfold INT_MAX in *. lia. }
  assert (repr c (spliced_out l idx [] (benchmark.list_ b1)) l) as R2.
  { rewrite <-(app_nil_r l) at 2. by apply repr_spliced_out. }
  eexists b1, _, (zip vs l). split_and!; [done|done| | |].
  - simpl. rewrite Hh1, insert_app_r_alt, Nat.sub_diag by lia. simpl.
    apply pop_back_snoc.
  - eapply for_each_repr; [done..|lia].
  - simpl. eapply for_each_repr; [done| |lia].
    eapply contents_ext; [|done]. intros k Hk. simpl. rewrite Hl1. simpl.
    assert (is_slot c idx) as Hidx.
    { eapply (repr_free_slot c _ l); [exact R|].
      rewrite Hfl, elem_of_app. right. by left. }
    apply vget_insert_ne; [|apply Hidx]. intros ->.
    eapply (repr_chain_not_free c _ l); [exact R|exact Hk|].
    rewrite Hfl, elem_of_app. right. by left.
Qed.

(** ** The accessors in the two layouts *)

Section SimulationAccessors.
Context {T : Type} `{!Move T}.

Lemma simulates_value_unchecked i :
  simulates (T:=T) (value_unchecked i) (arrlist_slow.value_unchecked i).
Proof.
  unfold value_unchecked, arrlist_slow.value_unchecked,
    arrlist_slow.read_field. by apply simulates_read.
Qed.

Lemma simulates_next_index_unchecked i :
  simulates (T:=T) (next_index_unchecked i)
    (arrlist_slow.next_index_unchecked i).
Proof.
  unfold next_index_unchecked, arrlist_slow.next_index_unchecked,
    arrlist_slow.read_field. by apply simulates_read.
Qed.

Lemma simulates_for_each_value_unchecked fuel :
  simulates (T:=T) (for_each_value_unchecked fuel)
    (arrlist_slow.for_each_value_unchecked fuel).
Proof.
  intros s.
  unfold for_each_value_unchecked, arrlist_slow.for_each_value_unchecked,
    bind, gets.
  rewrite for_each_value_unchecked_from_eq,
    for_each_value_unchecked_from_eq_slow.
  change (head_ (to_soa s)) with (arrlist_slow.head_ s).
  rewrite (simulates_for_each_from fuel (arrlist_slow.head_ s) s).
  by destruct (arrlist_slow.for_each_from fuel _ s).
Qed.

End SimulationAccessors.

(** X22. The accessors the sequences of calls leave out agree in the two
    layouts too, on corresponding objects in any state: [at],
    [value_unchecked], [next_index_unchecked], [head_index_unchecked] and
    [for_each_value_unchecked] return the same, throw the same and have
    undefined behaviour together, and [capacity()], [size()] and [empty()]
    are equal. *)
Theorem layouts_agree_on_accessors {T : Type}
    (s : arrlist_slow.ArrayLinkedList T) (i : Z) (fuel : nat) :
  at_ i (to_soa s) = map_res to_soa (arrlist_slow.at_ i s) ∧
  value_unchecked i (to_soa s)
  = map_res to_soa (arrlist_slow.value_unchecked i s) ∧
  next_index_unchecked i (to_soa s)
  = map_res to_soa (arrlist_slow.next_index_unchecked i s) ∧
  head_index_unchecked (to_soa s)
  = map_res to_soa (arrlist_slow.head_index_unchecked s) ∧
  for_each_value_unchecked fuel (to_soa s)
  = map_res to_soa (arrlist_slow.for_each_value_unchecked fuel s) ∧
  capacity (to_soa s) = arrlist_slow.capacity s ∧
  size (to_soa s) = arrlist_slow.size s ∧
  empty (to_soa s) = arrlist_slow.empty s.
Proof.
  split_and!.
  - apply simulates_at.
  - apply simulates_value_unchecked.
  - apply simulates_next_index_unchecked.
  - done.
  - apply simulates_for_each_value_unchecked.
  - unfold capacity, arrlist_slow.capacity. simpl. by rewrite length_fmap.
  - done.
  - done.
Qed.

(** ** The constructor *)

(** X23. The constructor throws for capacity 0. For a capacity [c] from 1
    to [INT_MAX + 1] it builds a list of capacity [c] and size 0, which is
    empty, on which [for_each] visits nothing and [pop_front] throws, and
    whose free list holds each slot once. On this list a handle passes the
    check exactly when its index is a slot and its generation is 0: the
    default handle, of index [-1], does not. *)
Theorem constructor_builds_empty_list {T : Type} `{!Move T} (T_default : T) (c : nat)
    (fuel : nat) :
  (c = 0%nat → make T_default c = inl InvalidCapacity) ∧
  (c ≠ 0%nat → Z.of_nat c ≤ INT_MAX + 1 →
   ∃ s, make T_default c = inr s ∧
     capacity s = Z.of_nat c ∧ size s = 0 ∧ empty s = true ∧
     for_each (S fuel) s = Ok [] s ∧
     pop_front s = Throw Empty s ∧
     NoDup (free_list_ s) ∧
     (∀ i, i ∈ free_list_ s ↔ is_slot c i) ∧
     (∀ h, validates s h ↔
           is_slot c (Handle.index h) ∧ Handle.generation h = 0) ∧
     ¬ validates s (Handle.mk (-1) 0)).
Proof.
  split; [by intros ->|]. intros Hne Hc.
  destruct (make T_default c) as [e|s] eqn:Hmk.
  { unfold make in Hmk. by case_decide. }
  pose proof (make_repr T_default c s Hc Hmk) as R.
  assert (∀ h, validates s h ↔
               is_slot c (Handle.index h) ∧ Handle.generation h = 0) as Hval.
  { intros h. rewrite validates_iff, (repr_values _ _ _ R).
    unfold is_slot. split.
    - intros [Hr Hg]. split; [done|].
      pose proof (make_generation T_default c s _ Hmk Hr) as H0.
      unfold generation_of in H0. rewrite H0 in Hg. by injection Hg.
    - intros [Hr ->]. split; [done|].
      by apply (make_generation T_default c s).
  }
  exists s. split_and!.
  - done.
  - unfold capacity. by rewrite (repr_values _ _ _ R).
  - unfold size. by rewrite (repr_size _ _ _ R).
  - unfold empty. rewrite (repr_size _ _ _ R). done.
  - unfold for_each, bind, gets. rewrite (repr_head _ _ _ R). done.
  - apply pop_front_Throw. by rewrite (repr_head _ _ _ R).
  - by pose proof (repr_NoDup _ _ _ R).
  - intros i. by rewrite (repr_slots _ _ _ R).
  - done.
  - rewrite Hval. unfold is_slot. simpl. lia.
Qed.

(** ** The links backwards *)

(** X24. On an object used with live handles the [prev_] links run back
    along what [for_each] visits: [tail_] is the index visited last
    ([kNull] if there is none), the [prev_] of every index visited is the
    index visited before it ([kNull] for the first), and the slots of the
    free list have both links [kNull]. *)
Theorem prev_links_run_backwards {T : Type} `{!Move T} (T_default : T)
    (c : nat) (tr : trace T) (s : ArrayLinkedList T) (fuel : nat)
    (calls : list (T * Z)) :
  Z.of_nat c ≤ INT_MAX + 1 →
  reaches T_default live_handles c tr s →
  (c < fuel)%nat →
  for_each fuel s = Ok calls s →
  tail_ s = last_of kNull calls.*2 ∧
  (∀ before v i after, calls = before ++ (v, i) :: after →
     vget (prev_ s) i = Some (last_of kNull before.*2)) ∧
  (∀ i, i ∈ free_list_ s →
     vget (next_ s) i = Some kNull ∧ vget (prev_ s) i = Some kNull).
Proof.
  intros Hc Hr Hfuel Hfe. destruct (reaches_repr _ _ _ _ Hc Hr) as [l R].
  destruct (repr_contents _ _ _ R) as [vs Hvs].
  pose proof (repr_length _ _ _ R) as Hlen.
  pose proof (contents_length _ _ _ Hvs) as Hlvs.
  rewrite (for_each_repr c s l vs fuel R Hvs) in Hfe by lia.
  injection Hfe as <-.
  assert ((zip vs l).*2 = l) as Hsnd by (apply snd_zip; lia).
  split_and!.
  - by rewrite Hsnd, (repr_tail _ _ _ R).
  - intros before v i after Hsplit.
    assert (l = before.*2 ++ i :: after.*2) as Hl.
    { by rewrite <-Hsnd, Hsplit, fmap_app. }
    rewrite Hl in R. by destruct (repr_links _ _ _ _ _ R) as [_ Hpv].
  - apply R.
Qed.

(** ** The further properties on objects of capacity 2 *)

Lemma demo_one_reaches (allowed : ArrayLinkedList nat → op nat → Prop) :
  (∀ s v, allowed s (PushBack v)) →
  reaches 0%nat allowed 2 [(PushBack 7%nat, Returned (RHandle (Handle.mk 0 1)))]
    demo_one.
Proof.
  intros Hal.
  exact (reaches_step 0%nat allowed 2 [] demo_empty 0%nat
           (PushBack 7%nat) demo_one
           (reaches_make 0%nat allowed 2 demo_empty eq_refl)
           (Hal _ _) eq_refl).
Defined.

Lemma demo_book_reaches : benchmark.book_reaches 2 demo_book_one.
Proof.
  exact (benchmark.book_step 2 demo_book
           (benchmark.Add (benchmark.mkOrder 1 5)) demo_book_one
           (benchmark.book_make 2 demo_book eq_refl) eq_refl).
Defined.

Lemma demo_fuel : (2 < 3)%nat.
Proof. lia. Defined.

Lemma inserted_handle_validates_witness :
  Z.of_nat 2 ≤ INT_MAX + 1 ∧
  reaches 0%nat any_call 2 [] demo_empty ∧
  exec 0 (PushBack 7%nat) demo_empty
  = Ok (RHandle (Handle.mk 0 1)) demo_one ∧
  validates demo_one (Handle.mk 0 1).
Proof.
  pose proof (reaches_make 0%nat any_call 2 demo_empty eq_refl) as Hr.
  exact (conj demo_capacity (conj Hr (conj eq_refl
           (proj1 (inserted_handle_validates 0%nat 2 [] demo_empty 0
                     (PushBack 7%nat) (Handle.mk 0 1) demo_one
                     demo_capacity Hr eq_refl))))).
Defined.

Lemma reused_slot_rejects_old_handle_witness :
  Z.of_nat 2 ≤ INT_MAX + 1 ∧
  reaches 0%nat any_call 2 [] demo_empty ∧
  exec 0 (PushBack 7%nat) demo_empty
  = Ok (RHandle (Handle.mk 0 1)) demo_one ∧
  validates demo_empty (Handle.mk 0 0) ∧
  ¬ validates demo_one (Handle.mk 0 0) ∧
  erase (Handle.mk 0 0) demo_one = Throw InvalidHandle demo_one.
Proof.
  pose proof (reaches_make 0%nat any_call 2 demo_empty eq_refl) as Hr.
  assert (validates demo_empty (Handle.mk 0 0)) as Hv by reflexivity.
  destruct (reused_slot_rejects_old_handle 0%nat 2 [] demo_empty 0
              (PushBack 7%nat) (Handle.mk 0 1) demo_one (Handle.mk 0 0)
              demo_capacity Hr eq_refl eq_refl (or_introl Hv))
    as (Hn & He & _).
  exact (conj demo_capacity (conj Hr (conj eq_refl (conj Hv (conj Hn He))))).
Defined.

Lemma other_handles_stay_valid_witness :
  Z.of_nat 2 ≤ INT_MAX + 1 ∧
  reaches 0%nat any_call 2 demo_trace demo_list ∧
  state_of (exec 0 PopFront demo_list) = Some demo_popped ∧
  validates demo_list (Handle.mk 1 1) ∧
  validates demo_popped (Handle.mk 1 1).
Proof.
  pose proof (demo_reaches any_call (λ _ _, I)) as Hr.
  assert (validates demo_list (Handle.mk 1 1)) as Hv by reflexivity.
  assert (∀ h', outcome_of (exec 0 PopFront demo_list)
                = Returned (RHandle h') →
                Handle.index h' ≠ Handle.index (Handle.mk 1 1)) as Hother.
  { intros h' H. vm_compute in H. discriminate H. }
  destruct (other_handles_stay_valid 0%nat 2 demo_trace demo_list 0 PopFront
              demo_popped (Handle.mk 1 1) demo_capacity Hr eq_refl Hv Hother)
    as [Hv' _].
  exact (conj demo_capacity (conj Hr (conj eq_refl (conj Hv Hv')))).
Defined.

Lemma erase_removes_element_witness :
  Z.of_nat 2 ≤ INT_MAX + 1 ∧
  reaches 0%nat live_handles 2 demo_trace demo_list ∧
  (2 < 3)%nat ∧
  validates demo_list (Handle.mk 0 1) ∧
  (0 ∉ free_list_ demo_list) ∧
  ∃ before v after s',
    for_each 3 demo_list = Ok (before ++ (v, 0) :: after) demo_list ∧
    erase (Handle.mk 0 1) demo_list = Ok tt s' ∧
    for_each 3 s' = Ok (before ++ after) s' ∧
    size s' = size demo_list - 1 ∧
    free_list_ s' = free_list_ demo_list ++ [0].
Proof.
  pose proof (demo_reaches live_handles (λ _ _, I)) as Hl.
  assert (validates demo_list (Handle.mk 0 1)) as Hv by reflexivity.
  assert (0 ∉ free_list_ demo_list) as Hnf by (simpl; apply not_elem_of_nil).
  destruct (erase_removes_element 0%nat 2 demo_trace demo_list
              (Handle.mk 0 1) 3 demo_capacity Hl demo_fuel) as [_ He].
  exact (conj demo_capacity (conj Hl (conj demo_fuel (conj Hv (conj Hnf
           (He Hv Hnf)))))).
Defined.

Lemma insert_after_places_successor_witness :
  Z.of_nat 2 ≤ INT_MAX + 1 ∧
  reaches 0%nat live_handles 2
    [(PushBack 7%nat, Returned (RHandle (Handle.mk 0 1)))] demo_one ∧
  (2 < 3)%nat ∧
  validates demo_one (Handle.mk 0 1) ∧
  (0 ∉ free_list_ demo_one) ∧
  size demo_one ≠ Z.of_nat 2 ∧
  ∃ before w after h' s',
    for_each 3 demo_one = Ok (before ++ (w, 0) :: after) demo_one ∧
    insert_after (Handle.mk 0 1) 8%nat demo_one = Ok h' s' ∧
    for_each 3 s'
    = Ok (before ++ (w, 0) :: (8%nat, Handle.index h') :: after) s' ∧
    size s' = size demo_one + 1 ∧
    validates s' h'.
Proof.
  pose proof (demo_one_reaches live_handles (λ _ _, I)) as Hl.
  assert (validates demo_one (Handle.mk 0 1)) as Hv by reflexivity.
  assert (0 ∉ free_list_ demo_one) as Hnf.
  { simpl. rewrite list_elem_of_singleton. lia. }
  assert (size demo_one ≠ Z.of_nat 2) as Hne by (unfold size; simpl; lia).
  destruct (insert_after_places_successor 0%nat 2 _ demo_one
              (Handle.mk 0 1) 8%nat 3 demo_capacity Hl demo_fuel Hv Hnf)
    as [_ Hi].
  exact (conj demo_capacity (conj Hl (conj demo_fuel (conj Hv (conj Hnf
           (conj Hne (Hi Hne))))))).
Defined.

Lemma push_extends_traversal_witness :
  Z.of_nat 2 ≤ INT_MAX + 1 ∧
  reaches 0%nat live_handles 2 demo_trace demo_list ∧
  (2 < 3)%nat ∧
  ∃ calls, for_each 3 demo_list = Ok calls demo_list ∧
    (size demo_list = Z.of_nat 2 →
     push_back 9%nat demo_list = Throw CapacityExhausted demo_list ∧
     push_front 9%nat demo_list = Throw CapacityExhausted demo_list).
Proof.
  pose proof (demo_reaches live_handles (λ _ _, I)) as Hl.
  destruct (push_extends_traversal 0%nat 2 demo_trace demo_list 9%nat 3
              demo_capacity Hl demo_fuel) as (calls & Hfe & Hfull & _).
  exact (conj demo_capacity (conj Hl (conj demo_fuel
           (ex_intro _ calls (conj Hfe Hfull))))).
Defined.

Lemma insert_after_checks_handle_first_witness :
  Z.of_nat 2 ≤ INT_MAX + 1 ∧
  reaches 0%nat any_call 2 demo_trace demo_list ∧
  validates demo_list (Handle.mk 0 1) ∧
  free_list_ demo_list = [] ∧
  insert_after (Handle.mk 0 1) 9%nat demo_list
  = Throw CapacityExhausted demo_list.
Proof.
  pose proof (demo_reaches any_call (λ _ _, I)) as Hr.
  assert (validates demo_list (Handle.mk 0 1)) as Hv by reflexivity.
  destruct (insert_after_checks_handle_first 0%nat 2 demo_trace demo_list
              (Handle.mk 0 1) 9%nat demo_capacity Hr) as (_ & Hfull & _).
  exact (conj demo_capacity (conj Hr (conj Hv (conj eq_refl
           (Hfull Hv eq_refl))))).
Defined.

Lemma pop_front_returns_in_order_witness :
  Z.of_nat 2 ≤ INT_MAX + 1 ∧
  make 0%nat 2 = inr demo_empty ∧
  (length [7%nat; 8%nat] ≤ 2)%nat ∧
  ∃ s s', exec_all 3 (PushBack <$> [7%nat; 8%nat]) demo_empty = Some s ∧
    run 3 (replicate (length [7%nat; 8%nat]) PopFront) s
    = (λ v, Returned (RValue v)) <$> [7%nat; 8%nat] ∧
    exec_all 3 (replicate (length [7%nat; 8%nat]) PopFront) s = Some s' ∧
    size s' = 0.
Proof.
  assert (length [7%nat; 8%nat] ≤ 2)%nat as Hlen by (simpl; lia).
  exact (conj demo_capacity (conj eq_refl (conj Hlen
           (proj1 (pop_front_returns_in_order 0%nat 2 demo_empty
                     [7%nat; 8%nat] 3 demo_capacity eq_refl Hlen))))).
Defined.

Lemma insertion_reuses_erased_slot_witness :
  Z.of_nat 2 ≤ INT_MAX + 1 ∧
  reaches 0%nat any_call 2 demo_trace demo_list ∧
  erase (Handle.mk 1 1) demo_list = Ok tt demo_erased ∧
  exec 0 (PushBack 9%nat) demo_erased
  = Ok (RHandle (Handle.mk 1 2)) demo_reused ∧
  Handle.index (Handle.mk 1 2) = Handle.index (Handle.mk 1 1) ∧
  Handle.generation (Handle.mk 1 2)
  = wrap32 (Handle.generation (Handle.mk 1 1) + 1).
Proof.
  pose proof (demo_reaches any_call (λ _ _, I)) as Hr.
  exact (conj demo_capacity (conj Hr (conj eq_refl (conj eq_refl
           (insertion_reuses_erased_slot 0%nat 2 demo_trace demo_list
              (Handle.mk 1 1) demo_erased 0 (PushBack 9%nat)
              (Handle.mk 1 2) demo_reused demo_capacity Hr eq_refl
              eq_refl))))).
Defined.

Lemma fresh_list_takes_slots_in_order_witness :
  Z.of_nat 2 ≤ INT_MAX + 1 ∧
  make 0%nat 2 = inr demo_empty ∧
  (length [7%nat; 8%nat] ≤ 2)%nat ∧
  run 0 (PushBack <$> [7%nat; 8%nat]) demo_empty
  = imap (λ j _, Returned (RHandle (Handle.mk (Z.of_nat j) 1)))
      [7%nat; 8%nat].
Proof.
  assert (length [7%nat; 8%nat] ≤ 2)%nat as Hlen by (simpl; lia).
  exact (conj demo_capacity (conj eq_refl (conj Hlen
           (fresh_list_takes_slots_in_order 0%nat 2 demo_empty
              [7%nat; 8%nat] 0 demo_capacity eq_refl Hlen)))).
Defined.

Lemma for_each_visits_every_element_witness :
  Z.of_nat 2 ≤ INT_MAX + 1 ∧
  reaches 0%nat live_handles 2 demo_trace demo_list ∧
  (2 < 3)%nat ∧
  ∃ calls, for_each 3 demo_list = Ok calls demo_list ∧
    Z.of_nat (length calls) = size demo_list ∧
    NoDup calls.*2 ∧
    ∀ v i, (v, i) ∈ calls →
      is_slot 2 i ∧ (i ∉ free_list_ demo_list) ∧
      at_ i demo_list = Ok v demo_list.
Proof.
  pose proof (demo_reaches live_handles (λ _ _, I)) as Hl.
  exact (conj demo_capacity (conj Hl (conj demo_fuel
           (for_each_visits_every_element 0%nat 2 demo_trace demo_list 3
              demo_capacity Hl demo_fuel)))).
Defined.

Lemma value_unchecked_is_at_without_check_witness :
  0 ≤ 1 < capacity demo_list ∧
  value_unchecked 1 demo_list = at_ 1 demo_list.
Proof.
  assert (0 ≤ 1 < capacity demo_list) as Hi by (unfold capacity; simpl; lia).
  exact (conj Hi
           (proj1 (value_unchecked_is_at_without_check demo_list 1) Hi)).
Defined.

Lemma unchecked_walk_follows_for_each_witness :
  Z.of_nat 2 ≤ INT_MAX + 1 ∧
  reaches 0%nat live_handles 2 demo_trace demo_list ∧
  (2 < 3)%nat ∧
  for_each 3 demo_list = Ok [(7%nat, 0); (8%nat, 1)] demo_list ∧
  head_index_unchecked demo_list
  = Ok (first_of kNull [(7%nat, 0); (8%nat, 1)].*2) demo_list.
Proof.
  pose proof (demo_reaches live_handles (λ _ _, I)) as Hl.
  exact (conj demo_capacity (conj Hl (conj demo_fuel (conj eq_refl
           (proj1 (unchecked_walk_follows_for_each 0%nat 2 demo_trace
                     demo_list 3 [(7%nat, 0); (8%nat, 1)] demo_capacity Hl
                     demo_fuel eq_refl)))))).
Defined.

Lemma empty_means_nothing_to_visit_witness :
  Z.of_nat 2 ≤ INT_MAX + 1 ∧
  reaches 0%nat live_handles 2 demo_trace demo_list ∧
  (2 < 3)%nat ∧
  (empty demo_list = true ↔ for_each 3 demo_list = Ok [] demo_list).
Proof.
  pose proof (demo_reaches live_handles (λ _ _, I)) as Hl.
  exact (conj demo_capacity (conj Hl (conj demo_fuel
           (proj1 (empty_means_nothing_to_visit 0%nat 2 demo_trace
                     demo_list 3 demo_capacity Hl demo_fuel))))).
Defined.

Lemma book_keeps_handles_of_elements_witness :
  Z.of_nat 2 ≤ INT_MAX + 1 ∧
  benchmark.book_reaches 2 demo_book_one ∧
  benchmark.capacity demo_book_one = Z.of_nat 2 ∧
  benchmark.size demo_book_one = size (benchmark.list_ demo_book_one).
Proof.
  destruct (book_keeps_handles_of_elements 2 demo_book_one demo_capacity
              demo_book_reaches) as (Hcap & Hsz & _).
  exact (conj demo_capacity (conj demo_book_reaches (conj Hcap Hsz))).
Defined.

Lemma cancel_at_position_erases_one_witness :
  Z.of_nat 2 ≤ INT_MAX + 1 ∧
  benchmark.book_reaches 2 demo_book_one ∧
  ∃ b', benchmark.cancel_at_position 0 demo_book_one = Ok tt b' ∧
    match benchmark.handles_ demo_book_one !! 0%nat with
    | None => b' = demo_book_one
    | Some h =>
        erase h (benchmark.list_ demo_book_one)
        = Ok tt (benchmark.list_ b') ∧
        benchmark.handles_ demo_book_one ≡ₚ h :: benchmark.handles_ b' ∧
        benchmark.size b' = benchmark.size demo_book_one - 1
    end.
Proof.
  exact (conj demo_capacity (conj demo_book_reaches
           (cancel_at_position_erases_one 2 demo_book_one 0 demo_capacity
              demo_book_reaches))).
Defined.

Lemma add_throws_only_when_full_witness :
  Z.of_nat 2 ≤ INT_MAX + 1 ∧
  benchmark.book_reaches 2 demo_book_one ∧
  if decide (benchmark.size demo_book_one = Z.of_nat 2)
  then benchmark.add (benchmark.mkOrder 2 3) demo_book_one
       = Throw CapacityExhausted demo_book_one
  else ∃ h s',
         push_back (benchmark.mkOrder 2 3) (benchmark.list_ demo_book_one)
         = Ok h s' ∧
         benchmark.add (benchmark.mkOrder 2 3) demo_book_one
         = Ok tt (benchmark.mkBook s'
                    (benchmark.handles_ demo_book_one ++ [h])).
Proof.
  exact (conj demo_capacity (conj demo_book_reaches
           (add_throws_only_when_full 2 demo_book_one
              (benchmark.mkOrder 2 3) demo_capacity demo_book_reaches))).
Defined.

Lemma iterate_sum_adds_visited_quantities_witness :
  Z.of_nat 2 ≤ INT_MAX + 1 ∧
  benchmark.book_reaches 2 demo_book_one ∧
  (2 < 3)%nat ∧
  ∃ visited, for_each 3 (benchmark.list_ demo_book_one)
             = Ok visited (benchmark.list_ demo_book_one) ∧
    Z.of_nat (length visited) = benchmark.size demo_book_one ∧
    benchmark.iterate_sum 3 demo_book_one
    = Ok (benchmark.total_qty visited.*1) demo_book_one.
Proof.
  exact (conj demo_capacity (conj demo_book_reaches (conj demo_fuel
           (iterate_sum_adds_visited_quantities 2 demo_book_one 3
              demo_capacity demo_book_reaches demo_fuel)))).
Defined.

Lemma preload_fills_until_full_witness :
  Z.of_nat 2 ≤ INT_MAX + 1 ∧
  benchmark.make_book 2 = inr demo_book ∧
  (2 < 3)%nat ∧
  ∃ b, benchmark.preload
         [benchmark.mkOrder 1 5; benchmark.mkOrder 2 3; benchmark.mkOrder 3 4]
         demo_book
       = Throw CapacityExhausted b ∧
    benchmark.size b = 2 ∧
    benchmark.iterate_sum 3 b = Ok 8 b.
Proof.
  destruct (preload_fills_until_full 2 demo_book
              [benchmark.mkOrder 1 5; benchmark.mkOrder 2 3;
               benchmark.mkOrder 3 4] 3 demo_capacity eq_refl demo_fuel)
    as (b & Hpre & Hsz & _ & Hsum).
  exact (conj demo_capacity (conj eq_refl (conj demo_fuel
           (ex_intro _ b (conj Hpre (conj Hsz Hsum)))))).
Defined.

Lemma add_then_cancel_last_restores_witness :
  Z.of_nat 2 ≤ INT_MAX + 1 ∧
  benchmark.book_reaches 2 demo_book_one ∧
  (2 < 3)%nat ∧
  benchmark.size demo_book_one < Z.of_nat 2 ∧
  ∃ b1 b2 visited,
    benchmark.add (benchmark.mkOrder 2 3) demo_book_one = Ok tt b1 ∧
    benchmark.cancel_at_position
      (length (benchmark.handles_ demo_book_one)) b1 = Ok tt b2 ∧
    benchmark.handles_ b2 = benchmark.handles_ demo_book_one ∧
    for_each 3 (benchmark.list_ demo_book_one)
    = Ok visited (benchmark.list_ demo_book_one) ∧
    for_each 3 (benchmark.list_ b2) = Ok visited (benchmark.list_ b2).
Proof.
  assert (benchmark.size demo_book_one < Z.of_nat 2) as Hfree by reflexivity.
  exact (conj demo_capacity (conj demo_book_reaches (conj demo_fuel
           (conj Hfree
              (add_then_cancel_last_restores 2 demo_book_one
                 (benchmark.mkOrder 2 3) 3 demo_capacity demo_book_reaches
                 demo_fuel Hfree))))).
Defined.

Lemma constructor_builds_empty_list_witness :
  2%nat ≠ 0%nat ∧
  Z.of_nat 2 ≤ INT_MAX + 1 ∧
  ∃ s, make 0%nat 2 = inr s ∧
    capacity s = Z.of_nat 2 ∧ size s = 0 ∧ empty s = true ∧
    for_each 1 s = Ok [] s ∧ pop_front s = Throw Empty s.
Proof.
  assert (2%nat ≠ 0%nat) as Hne by lia.
  destruct (proj2 (constructor_builds_empty_list 0%nat 2 0) Hne
              demo_capacity)
    as (s & Hmk & Hcap & Hsz & Hem & Hfe & Hpop & _).
  exact (conj Hne (conj demo_capacity
           (ex_intro _ s (conj Hmk (conj Hcap (conj Hsz (conj Hem
              (conj Hfe Hpop)))))))).
Defined.

Lemma prev_links_run_backwards_witness :
  Z.of_nat 2 ≤ INT_MAX + 1 ∧
  reaches 0%nat live_handles 2 demo_trace demo_list ∧
  (2 < 3)%nat ∧
  for_each 3 demo_list = Ok [(7%nat, 0); (8%nat, 1)] demo_list ∧
  tail_ demo_list = last_of kNull [(7%nat, 0); (8%nat, 1)].*2.
Proof.
  pose proof (demo_reaches live_handles (λ _ _, I)) as Hl.
  exact (conj demo_capacity (conj Hl (conj demo_fuel (conj eq_refl
           (proj1 (prev_links_run_backwards 0%nat 2 demo_trace demo_list 3
                     [(7%nat, 0); (8%nat, 1)] demo_capacity Hl demo_fuel
                     eq_refl)))))).
Defined.
